(** * Multi-démarche manager: configuration resolution and environment staging

    A shallow embedding of [multi_demarche_manager.py] and the properties of
    its placeholder resolver, configuration loader, job registry, environment
    stager, orchestrator and command line.

    Conventions of the embedding.
    - A Python [str] is a [string]: the bytes of its UTF-8 encoding.  The
      characters the code inspects ([$], [{], [}] and the comma) are ASCII, so
      scanning bytes and scanning code points agree.
    - A value read by [json.load] is a [json].  Numbers with a fraction or an
      exponent (Python [float]) are left out: the code never computes with
      one.  A [dict] is an association list in document order; [json.load]
      yields no duplicate key, and lookup takes the first binding.
    - [os.environ] is a [gmap string string].
    - A method is a function from the state of the process ([World]) to a
      [result]: it returns a value, or raises a Python exception, and in both
      cases leaves a state behind.  The state is the environment and the list
      of what the process has done: what it printed, and its calls to the
      outside.
    - What lies outside the file is a [Platform]: the [.env] file, the
      configuration file, the answer to the probe, the collaborator, the
      clock and the lowering of text that is not ASCII.  An error of the
      outside is an instance of [Exception], which is what the handlers of
      the code catch.  Time is counted in whole units.  What [main] takes
      from the standard library is a [Builtins]; the arguments are taken as
      [argparse] has read them.
    - The [.env] file is one that [load_dotenv] loads, and it is the same at
      every call; its values are expanded at each call.
    - The methods are followed as an ordinary run has them: [os.getenv] can
      encode the name that it is given, and the stack has a frame for each
      call.  What the interpreter does otherwise is followed for the
      resolver in [Interpreter]; in the loader it is one of the exceptions
      that escape from the reading of the file ([Unreadable]).
    - The messages of the built-in exceptions are those of CPython 3.12; no
      statement rests on their text. *)

From Stdlib Require Import ZArith Ascii.
From stdpp Require Import gmap strings list pretty.

Local Open Scope Z_scope.

(** ** Strings *)

Module Str.

(** [s.startswith(p)] *)
Fixpoint startswith (p s : string) : bool :=
  match p, s with
  | EmptyString, _ => true
  | String a p', String b s' => Ascii.eqb a b && startswith p' s'
  | _, _ => false
  end.
Arguments startswith : simpl never.

(** [sep.join(parts)] *)
Fixpoint join (sep : string) (parts : list string) : string :=
  match parts with
  | [] => ""
  | [p] => p
  | p :: rest => p +:+ sep +:+ join sep rest
  end.

(** A byte [10xxxxxx] continues a UTF-8 sequence. *)
Definition continuation (c : ascii) : bool :=
  let n := nat_of_ascii c in ((128 <=? n)%nat && (n <? 192)%nat)%bool.

(** The characters of a string, each as a string of its own: what iterating
    over a [str] yields.  A lead byte takes its continuation bytes along. *)
Fixpoint chars (s : string) : list string :=
  match s with
  | EmptyString => []
  | String c t =>
      match chars t with
      | x :: rest =>
          if match t with String d _ => continuation d | _ => false end
          then String c x :: rest
          else String c EmptyString :: x :: rest
      | [] => [String c EmptyString]
      end
  end.

Definition lower_ascii (c : ascii) : ascii :=
  let n := nat_of_ascii c in
  if ((65 <=? n)%nat && (n <=? 90)%nat)%bool then ascii_of_nat (n + 32) else c.

(** Every character of [s] is ASCII: [s.isascii()]. *)
Fixpoint isascii (s : string) : bool :=
  match s with
  | EmptyString => true
  | String c t => (nat_of_ascii c <? 128)%nat && isascii t
  end.

(** [s.lower()] for a string of ASCII characters: the letters [A] to [Z] are
    lowered and every other character is kept.  The lowering of other text is
    the Unicode database's, [str_lower] of the platform. *)
Fixpoint lower (s : string) : string :=
  match s with
  | EmptyString => EmptyString
  | String c t => String (lower_ascii c) (lower t)
  end.

(** [c in s] for a character. *)
Fixpoint mem (c : ascii) (s : string) : bool :=
  match s with
  | EmptyString => false
  | String d t => Ascii.eqb c d || mem c t
  end.

(** [sub in s] for a substring. *)
Fixpoint contains (sub s : string) : bool :=
  startswith sub s ||
  match s with
  | EmptyString => false
  | String _ t => contains sub t
  end.

End Str.

(** ** The regular expression of the resolver

    [re.sub(r'\$\{([^}]+)\}', replace_var, text)]: the literal [${], a
    longest non-empty run of characters other than [}], and a [}].  The
    substitution scans left to right, replaces each match by the result of the
    callback on group 1 and resumes after the match; the replacement text is
    not scanned again. *)

Module Re.

(** The run matched by [[^}]*] at the head of [s], when a [}] ends it. *)
Fixpoint run_to_brace (s : string) : option string :=
  match s with
  | EmptyString => None
  | String c t =>
      if Ascii.eqb c "}" then Some EmptyString
      else String c <$> run_to_brace t
  end.

(** Group 1 of a match anchored at the head of [s]. *)
Definition match_at (s : string) : option string :=
  match s with
  | String c1 (String c2 t) =>
      if (Ascii.eqb c1 "$" && Ascii.eqb c2 "{")%bool then
        match run_to_brace t with
        | Some (String c n) => Some (String c n)
        | _ => None
        end
      else None
  | _ => None
  end.

(** [skip] characters of the last match remain to be passed over: after
    the [$] of a match, the [{], the name and the [}]. *)
Fixpoint sub_from (repl : string -> string) (skip : nat) (s : string) : string :=
  match s with
  | EmptyString => EmptyString
  | String c t =>
      match skip with
      | S k => sub_from repl k t
      | O =>
          match match_at s with
          | Some name => repl name +:+ sub_from repl (2 + String.length name) t
          | None => String c (sub_from repl O t)
          end
      end
  end.

Definition sub (repl : string -> string) (s : string) : string :=
  sub_from repl O s.

End Re.

(** ** JSON values *)

#[warnings="-register-all"]
Inductive json : Type :=
| JNull
| JBool (b : bool)
| JInt (n : Z)
| JStr (s : string)
| JList (items : list json)
| JDict (fields : list (string * json)).

Abbreviation dict := (list (string * json)).

(** [d.get(key)]: the first binding of [key]. *)
Fixpoint dict_get (key : string) (d : dict) : option json :=
  match d with
  | [] => None
  | (k, v) :: rest => if String.eqb k key then Some v else dict_get key rest
  end.

(** [d.get(key, dflt)] *)
Definition dict_get_d (key : string) (dflt : json) (d : dict) : json :=
  default dflt (dict_get key d).

(** ** Placeholder resolver

    The two methods of the resolver, as functions of the environment: what a
    call returns.  The methods raise nothing themselves; how a call can fail
    all the same is in [Interpreter], below. *)

Section Resolver.

(** The process environment that [os.getenv] reads. *)
Variable env : gmap string string.

(** [replace_var]: the value of the variable, or the placeholder itself. *)
Definition replace_var (var_name : string) : string :=
  default ("${" +:+ var_name +:+ "}") (env !! var_name).

Definition resolve_str (text : string) : string := Re.sub replace_var text.

Definition _resolve_env_vars (text : json) : json :=
  match text with
  | JStr s => JStr (resolve_str s)
  | _ => text
  end.

Fixpoint _resolve_dict_env_vars (data : json) : json :=
  match data with
  | JDict fields =>
      JDict (map (fun kv => match kv with
                            | (key, value) => (key, _resolve_dict_env_vars value)
                            end) fields)
  | JList items => JList (map _resolve_dict_env_vars items)
  | JStr s => _resolve_env_vars (JStr s)
  | _ => data
  end.

End Resolver.

(** ** Python operations on JSON values *)

(** [bool(v)] *)
Definition py_truthy (v : json) : bool :=
  match v with
  | JNull => false
  | JBool b => b
  | JInt n => negb (n =? 0)
  | JStr s => negb (String.eqb s "")
  | JList items => match items with [] => false | _ => true end
  | JDict fields => match fields with [] => false | _ => true end
  end.

(** [a == b]: [bool] is a subclass of [int], sequences compare item by item,
    mappings compare as sets of bindings. *)
Fixpoint py_eq (a b : json) {struct a} : bool :=
  match a, b with
  | JNull, JNull => true
  | JBool x, JBool y => Bool.eqb x y
  | JBool x, JInt n => Z.b2z x =? n
  | JInt n, JBool y => n =? Z.b2z y
  | JInt n, JInt m => n =? m
  | JStr s, JStr t => String.eqb s t
  | JList xs, JList ys =>
      (fix eq_items (xs ys : list json) {struct xs} : bool :=
         match xs, ys with
         | [], [] => true
         | x :: xs', y :: ys' => py_eq x y && eq_items xs' ys'
         | _, _ => false
         end) xs ys
  | JDict xs, JDict ys =>
      (length xs =? length ys)%nat &&
      (fix all_fields (xs : dict) {struct xs} : bool :=
         match xs with
         | [] => true
         | (k, v) :: xs' =>
             match dict_get k ys with
             | Some v' => py_eq v v'
             | None => false
             end && all_fields xs'
         end) xs
  | _, _ => false
  end.

(** [type(v).__name__] *)
Definition py_type (v : json) : string :=
  match v with
  | JNull => "NoneType"
  | JBool _ => "bool"
  | JInt _ => "int"
  | JStr _ => "str"
  | JList _ => "list"
  | JDict _ => "dict"
  end.

(** ** Exceptions, output and effects *)

(** The exceptions, by the classes that the handlers of the file tell apart
    and that the code raises itself.  An instance of a subclass goes with its
    class, and [Exception] stands for every other class. *)
Inductive exn : Type :=
| FileNotFoundError (msg : string)
| ValueError (msg : string)
| KeyError (key : string)
| TypeError (msg : string)
| AttributeError (msg : string)
| Exception (msg : string).

(** [str(e)] *)
Definition exn_str (e : exn) : string :=
  match e with
  | FileNotFoundError msg | ValueError msg | TypeError msg
  | AttributeError msg | Exception msg => msg
  | KeyError key => "'" +:+ key +:+ "'"
  end.

(** [UnicodeDecodeError] is a [ValueError]. *)
Definition UnicodeDecodeError (msg : string) : exn := ValueError msg.

Definition no_attribute (v : json) (attr : string) : exn :=
  AttributeError ("'" +:+ py_type v +:+ "' object has no attribute '" +:+ attr +:+ "'").

Record DemarcheConfig : Type := {
  number : json;
  name : json;
  api_token : string;
  api_url : json;
  enabled : json;
  sync_config : json;
  filters : json
}.

(** The [errors] of a [SyncResult]; [sync_error_text] is the text the code
    stores. *)
Inductive sync_error : Type :=
| ErrEnvironmentSetup
| ErrNotInConfiguration
| ErrSynchronisation (e : exn).

Definition sync_error_text (e : sync_error) : string :=
  match e with
  | ErrEnvironmentSetup => "Échec de la configuration de l'environnement"
  | ErrNotInConfiguration => "Démarche non trouvée dans la configuration"
  | ErrSynchronisation e => "Erreur lors de la synchronisation : " +:+ exn_str e
  end.

Record SyncResult : Type := {
  demarche_number : json;
  demarche_name : json;
  success : bool;
  dossiers_processed : Z;
  errors : list sync_error;
  duration_seconds : Z
}.

(** One constructor for each [print] of the code, with the values its
    f-string shows. *)
Inductive message : Type :=
(* _load_demarches *)
| WarnTokenUnresolved (number : json)
| WarnMissingVariable (api_token : string)
(* get_grist_config *)
| WarnGristUnresolved (key value : string)
(* set_environment_for_demarche, sync_specific_demarches *)
| ErrDemarcheNotFound (number : json)
(* set_environment_for_demarche *)
| ErrInvalidToken (number : json)
| InfoReconfiguring (number : json)
| InfoToken (api_token : string)
| InfoModulesReloaded
| InfoEnvironmentReady (number name : json)
| InfoTokenValidated
| WarnDemarcheInaccessible
| WarnApiError (text : string)
| WarnHttpStatus (status : Z)
| WarnProbeFailed (text : string)
(* sync_all_demarches *)
| InfoStartAll (count : nat)
| InfoSyncIndexed (i total : nat) (name number : json)
| InfoPause
(* sync_specific_demarches *)
| InfoSearching (numbers : list json)
| InfoAvailable (numbers : list json)
| WarnDisabled (number name : json)
| InfoUseForce
| InfoSync (name number : json)
| WarnNothingSynced
(* _sync_single_demarche *)
| ErrSync (text : string)
(* _print_sync_summary: the whole summary *)
| Summary (results : list SyncResult)
(* validate_configuration *)
| InfoValidating
| ErrGristIncomplete (key : string)
| InfoGristValid
| InfoCounts (enabled total : nat)
| ErrTokenMissing (number name : json)
| InfoDemarcheStatus (enabled : bool) (name number : json)
| InfoConfigurationValid
| ErrConfigurationInvalid.

Inductive event : Type :=
| Output (m : message)
| Sleep (seconds : Z)
(* the queries_config block of the stager *)
| RefreshModules (api_token : string) (api_url : json)
(* load_dotenv *)
| LoadDotenv (override : bool)
(* requests.post of the connectivity probe *)
| HttpPost (api_url : json) (api_token : string) (number : json)
(* process_demarche_for_grist_optimized, with the error it raised or the
   value it returned *)
| SyncJob (base_url api_key doc_id number parallel batch_size max_workers : json)
    (outcome : string + bool).

(** The state of the process: the environment and what it has done so far,
    latest event first. *)
Record World : Type := {
  environ : gmap string string;
  log : list event
}.

Inductive result (A : Type) : Type :=
| Returns (a : A) (w : World)
| Raises (e : exn) (w : World).
Arguments Returns {A} a w.
Arguments Raises {A} e w.

Definition M (A : Type) : Type := World -> result A.

Definition ret {A} (a : A) : M A := fun w => Returns a w.

Definition raise {A} (e : exn) : M A := fun w => Raises e w.

Definition bind {A B} (m : M A) (k : A -> M B) : M B :=
  fun w =>
    match m w with
    | Returns a w' => k a w'
    | Raises e w' => Raises e w'
    end.

(** [try: m except Exception as e: handler(e)] *)
Definition try_except {A} (m : M A) (handler : exn -> M A) : M A :=
  fun w =>
    match m w with
    | Returns a w' => Returns a w'
    | Raises e w' => handler e w'
    end.

Declare Scope py_scope.
Delimit Scope py_scope with py.
Notation "x <- m ;; k" := (bind m (fun x => k))
  (at level 100, m at next level, right associativity) : py_scope.
Notation "m ;; k" := (bind m (fun _ => k))
  (at level 100, right associativity) : py_scope.
Local Open Scope py_scope.

Definition emit (ev : event) : M unit :=
  fun w => Returns tt {| environ := environ w; log := ev :: log w |}.

Definition print (m : message) : M unit := emit (Output m).

(** [for x in xs: body(x)] *)
Fixpoint for_each {A} (xs : list A) (body : A -> M unit) : M unit :=
  match xs with
  | [] => ret tt
  | x :: rest => body x ;; for_each rest body
  end.

(** [os.environ[key] = value]: the value must be a [str] without a null
    character. *)
Definition setenv (key : string) (value : json) : M unit :=
  fun w =>
    match value with
    | JStr s =>
        if Str.mem Ascii.zero s then Raises (ValueError "embedded null byte") w
        else Returns tt {| environ := <[key := s]> (environ w); log := log w |}
    | _ => Raises (TypeError ("str expected, not " +:+ py_type value)) w
    end.

(** [v[key]] for a string key. *)
Definition getitem (key : string) (v : json) : M json :=
  match v with
  | JDict fields =>
      match dict_get key fields with
      | Some x => ret x
      | None => raise (KeyError key)
      end
  | JList _ => raise (TypeError "list indices must be integers or slices, not str")
  | JStr _ => raise (TypeError "string indices must be integers, not 'str'")
  | _ => raise (TypeError ("'" +:+ py_type v +:+ "' object is not subscriptable"))
  end.

(** [v.get(key, dflt)] *)
Definition get (key : string) (dflt : json) (v : json) : M json :=
  match v with
  | JDict fields => ret (dict_get_d key dflt fields)
  | _ => raise (no_attribute v "get")
  end.

(** The items a [for] loop over [v] visits. *)
Definition iterate (v : json) : M (list json) :=
  match v with
  | JList items => ret items
  | JStr s => ret (JStr <$> Str.chars s)
  | JDict fields => ret ((fun kv => JStr kv.1) <$> fields)
  | _ => raise (TypeError ("'" +:+ py_type v +:+ "' object is not iterable"))
  end.

(** The items of a sequence that [str.join] accepts. *)
Fixpoint expect_strs (i : nat) (items : list json) : M (list string) :=
  match items with
  | [] => ret []
  | JStr s :: rest => ss <- expect_strs (S i) rest ;; ret (s :: ss)
  | v :: _ =>
      raise (TypeError ("sequence item " +:+ pretty i +:+ ": expected str instance, "
                        +:+ py_type v +:+ " found"))
  end.

(** [sep.join(v)] *)
Definition join_value (sep : string) (v : json) : M string :=
  match v with
  | JList _ | JStr _ | JDict _ =>
      items <- iterate v ;; ss <- expect_strs 0 items ;; ret (Str.join sep ss)
  | _ => raise (TypeError "can only join an iterable")
  end.

(** ** What the process takes from outside this file *)

(** What [open] and [json.load] make of a path: [open] raises
    [FileNotFoundError], [json.load] raises [JSONDecodeError], the reading
    raises another exception, or a document is read.  [Unreadable] stands for
    every exception that neither handler of the loader names:
    [UnicodeDecodeError] for a file that is not UTF-8, [IsADirectoryError],
    [NotADirectoryError] or [PermissionError] from [open], the [ValueError] of
    an integer of more than 4300 digits, and what the interpreter raises
    while the document is resolved (see [Interpreter]). *)
Inductive file_state : Type :=
| NoSuchFile
| NotJson (diagnostic : string)
| Unreadable (e : exn)
| JsonDocument (doc : json).

(** What the connectivity probe meets: the four paths of its [try] block.
    [ProbeInaccessible] is an answer with status 200 and no [data.demarche];
    it lists the messages of the remote errors, and [failure] is set when
    reading them raises. *)
Inductive probe_outcome : Type :=
| ProbeConfirmed
| ProbeInaccessible (api_errors : list string) (failure : option string)
| ProbeHttpError (status : Z)
| ProbeException (text : string).

Record Platform : Type := {
  (** [repr(v)], which [str] shows for a list or a dict *)
  py_repr : json -> string;
  (** [s.lower()] for a string with a character outside ASCII *)
  str_lower : string -> string;
  (** the bindings of the [.env] file that [load_dotenv] finds, in the order
      of the file.  The library expands the references [${NAME}] of a value
      at each call, against [os.environ] and the bindings before it, with a
      precedence that [override] sets: a value is a function of [override]
      and of [os.environ] at the call *)
  dotenv_file : list (string * (bool -> gmap string string -> string));
  (** the file system as [_load_config] reads it *)
  read_json : string -> file_state;
  (** whether [import queries_config] succeeds *)
  has_queries_config : bool;
  (** [requests.post] and the reading of its answer *)
  http_post : World -> json -> string -> json -> probe_outcome;
  (** [from grist_processor_working_all import ...]: the error, if any *)
  import_grist_processor : World -> option string;
  (** [GristClient(base_url, api_key, doc_id)]: the error, if any *)
  GristClient : World -> json -> json -> json -> option string;
  (** [process_demarche_for_grist_optimized(client, number, parallel=...,
      batch_size=..., max_workers=...)]: the error, or the value returned,
      a boolean as the interface of the collaborator has it *)
  process_demarche_for_grist_optimized :
    World -> json -> json -> json -> json -> string + bool;
  (** [time.time()], in whole units *)
  clock : World -> Z
}.

Record Manager : Type := {
  config_file : string;
  config : json;
  demarches : list DemarcheConfig
}.

Definition DEFAULT_API_URL : string :=
  "https://www.demarches-simplifiees.fr/api/v2/graphql".

Definition missing_file_error (path : string) : exn :=
  FileNotFoundError ("Fichier de configuration non trouvé : " +:+ path).

Definition format_error (path diagnostic : string) : exn :=
  ValueError ("Erreur de format JSON dans " +:+ path +:+ " : " +:+ diagnostic).

Definition schema_error (section : string) : exn :=
  ValueError ("Section manquante dans la configuration : " +:+ section).

(** [key in v] *)
Definition contains_key (key : string) (v : json) : M bool :=
  match v with
  | JDict fields => ret (existsb (fun kv => String.eqb kv.1 key) fields)
  | JList items => ret (existsb (fun x => py_eq x (JStr key)) items)
  | JStr s => ret (Str.contains key s)
  | _ => raise (TypeError ("argument of type '" +:+ py_type v +:+ "' is not iterable"))
  end.

(** The current state, read without changing it. *)
Definition ask {A} (f : World -> A) : M A := fun w => Returns (f w) w.

Section Process.

Variable os : Platform.

(** [str(v)] *)
Definition py_str (v : json) : string :=
  match v with
  | JNull => "None"
  | JBool true => "True"
  | JBool false => "False"
  | JInt n => pretty n
  | JStr s => s
  | _ => py_repr os v
  end.

(** [s.lower()] *)
Definition py_lower (s : string) : string :=
  if Str.isascii s then Str.lower s else str_lower os s.

(** The bindings of the [.env] file as a call of [load_dotenv] reads them,
    with [os.environ] as it is at the call. *)
Definition dotenv_values (override : bool) (environ : gmap string string)
    : list (string * string) :=
  (fun kv => (kv.1, kv.2 override environ)) <$> dotenv_file os.

(** [load_dotenv(override=...)]: each binding of the [.env] file is written
    to [os.environ], the last one of a name that the file binds twice; a
    variable that is set at the call ([before]) is kept unless [override] is
    set. *)
Definition load_binding (override : bool) (before e : gmap string string)
    (kv : string * string) : gmap string string :=
  match before !! kv.1 with
  | Some _ => if override then <[kv.1 := kv.2]> e else e
  | None => <[kv.1 := kv.2]> e
  end.

(** [os.environ] after the call. *)
Definition dotenv_environ (override : bool) (environ : gmap string string)
    : gmap string string :=
  foldl (load_binding override environ) environ (dotenv_values override environ).

Definition load_dotenv (override : bool) : M unit :=
  fun w =>
    Returns tt {| environ := dotenv_environ override (environ w);
                  log := LoadDotenv override :: log w |}.

(** *** Configuration loader *)

Definition _load_config (path : string) : M json :=
  match read_json os path with
  | NoSuchFile => raise (missing_file_error path)
  | NotJson diagnostic => raise (format_error path diagnostic)
  | Unreadable (FileNotFoundError _) => raise (missing_file_error path)
  | Unreadable e => raise e
  | JsonDocument doc =>
      env <- ask environ ;;
      let config := _resolve_dict_env_vars env doc in
      for_each ["grist"; "demarches"] (fun section =>
        present <- contains_key section config ;;
        if present then ret tt else raise (schema_error section)) ;;
      ret config
  end.

(** *** Job registry *)

(** One turn of the loop of [_load_demarches]: [None] when the entry is
    skipped. *)
Definition load_entry (demarche_data : json) : M (option DemarcheConfig) :=
  token <- get "api_token" (JStr "") demarche_data ;;
  match token with
  | JStr api_token =>
      if Str.startswith "${" api_token then
        number <- getitem "number" demarche_data ;;
        print (WarnTokenUnresolved number) ;;
        print (WarnMissingVariable api_token) ;;
        ret None
      else
        number <- getitem "number" demarche_data ;;
        name <- getitem "name" demarche_data ;;
        api_url <- get "api_url" (JStr DEFAULT_API_URL) demarche_data ;;
        enabled <- get "enabled" (JBool true) demarche_data ;;
        sync_config <- get "sync_config" (JDict []) demarche_data ;;
        filters <- get "filters" (JDict []) demarche_data ;;
        ret (Some {| number := number; name := name; api_token := api_token;
                     api_url := api_url; enabled := enabled;
                     sync_config := sync_config; filters := filters |})
  | _ => raise (no_attribute token "startswith")
  end.

Fixpoint load_entries (entries : list json) (demarches : list DemarcheConfig)
    : M (list DemarcheConfig) :=
  match entries with
  | [] => ret demarches
  | demarche_data :: rest =>
      loaded <- load_entry demarche_data ;;
      load_entries rest (match loaded with
                         | Some d => demarches ++ [d]
                         | None => demarches
                         end)
  end.

Definition _load_demarches (config : json) : M (list DemarcheConfig) :=
  section <- getitem "demarches" config ;;
  entries <- iterate section ;;
  load_entries entries [].

Definition init (path : string) : M Manager :=
  load_dotenv false ;;
  config <- _load_config path ;;
  demarches <- _load_demarches config ;;
  ret {| config_file := path; config := config; demarches := demarches |}.

Variable self : Manager.

Definition get_enabled_demarches : list DemarcheConfig :=
  List.filter (fun d => py_truthy (enabled d)) (demarches self).

Definition get_demarche_config (demarche_number : json) : option DemarcheConfig :=
  List.find (fun d => py_eq (number d) demarche_number) (demarches self).

Definition get_grist_config : M dict :=
  grist <- getitem "grist" (config self) ;;
  match grist with
  | JDict grist_config =>
      for_each grist_config (fun kv =>
        match kv.2 with
        | JStr value =>
            if Str.startswith "${" value then print (WarnGristUnresolved kv.1 value)
            else ret tt
        | _ => ret tt
        end) ;;
      ret grist_config
  | JList _ => raise (no_attribute grist "items")
  | _ => raise (no_attribute grist "copy")
  end.

(** *** Environment stager *)

(** [not token or token.startswith('${')] *)
Definition token_invalid (api_token : string) : bool :=
  String.eqb api_token "" || Str.startswith "${" api_token.

(** The block that refreshes [queries_config] and reloads the modules that
    cached the previous token.  Those modules are not part of this file:
    the block is one event, taken to raise nothing and to leave
    [os.environ] alone.  Without [queries_config] the [ImportError] is
    passed over. *)
Definition refresh_modules (d : DemarcheConfig) : M unit :=
  if has_queries_config os then
    emit (RefreshModules (api_token d) (api_url d)) ;;
    print InfoModulesReloaded
  else ret tt.

(** The probe of the end of [set_environment_for_demarche]. *)
Definition probe_access (d : DemarcheConfig) (demarche_number : json) : M bool :=
  try_except
    (outcome <- ask (fun w => http_post os w (api_url d) (api_token d) demarche_number) ;;
     emit (HttpPost (api_url d) (api_token d) demarche_number) ;;
     match outcome with
     | ProbeException text => raise (Exception text)
     | ProbeHttpError status => print (WarnHttpStatus status) ;; ret true
     | ProbeConfirmed => print InfoTokenValidated ;; ret true
     | ProbeInaccessible api_errors failure =>
         print WarnDemarcheInaccessible ;;
         for_each api_errors (fun text => print (WarnApiError text)) ;;
         match failure with
         | Some text => raise (Exception text)
         | None => ret true
         end
     end)
    (fun e => print (WarnProbeFailed (exn_str e)) ;; ret true).

(** The body of [set_environment_for_demarche] between the check of the
    token and the probe: the writes to [os.environ]. *)
Definition stage_context (demarche_config : DemarcheConfig)
    (demarche_number : json) : M unit :=
  print (InfoReconfiguring demarche_number) ;;
  print (InfoToken (api_token demarche_config)) ;;
  setenv "DEMARCHES_API_TOKEN" (JStr (api_token demarche_config)) ;;
  setenv "DEMARCHES_API_URL" (api_url demarche_config) ;;
  setenv "DEMARCHE_NUMBER" (JStr (py_str demarche_number)) ;;
  refresh_modules demarche_config ;;
  load_dotenv true ;;
  grist_config <- get_grist_config ;;
  base_url <- getitem "base_url" (JDict grist_config) ;;
  setenv "GRIST_BASE_URL" base_url ;;
  api_key <- getitem "api_key" (JDict grist_config) ;;
  setenv "GRIST_API_KEY" api_key ;;
  doc_id <- getitem "doc_id" (JDict grist_config) ;;
  setenv "GRIST_DOC_ID" doc_id ;;
  let filters := filters demarche_config in
  debut <- get "date_depot_debut" (JStr "") filters ;;
  setenv "DATE_DEPOT_DEBUT" debut ;;
  fin <- get "date_depot_fin" (JStr "") filters ;;
  setenv "DATE_DEPOT_FIN" fin ;;
  statuts <- get "statuts_dossiers" (JList []) filters ;;
  joined <- join_value "," statuts ;;
  setenv "STATUTS_DOSSIERS" (JStr joined) ;;
  groupes <- get "groupes_instructeurs" (JList []) filters ;;
  items <- iterate groupes ;;
  setenv "GROUPES_INSTRUCTEURS" (JStr (Str.join "," (py_str <$> items))) ;;
  let sync_config := sync_config demarche_config in
  batch_size <- get "batch_size" (JInt 50) sync_config ;;
  setenv "BATCH_SIZE" (JStr (py_str batch_size)) ;;
  max_workers <- get "max_workers" (JInt 3) sync_config ;;
  setenv "MAX_WORKERS" (JStr (py_str max_workers)) ;;
  parallel <- get "parallel" (JBool true) sync_config ;;
  setenv "PARALLEL" (JStr (py_lower (py_str parallel))) ;;
  print (InfoEnvironmentReady demarche_number (name demarche_config)).

Definition set_environment_for_demarche (demarche_number : json) : M bool :=
  match get_demarche_config demarche_number with
  | None => print (ErrDemarcheNotFound demarche_number) ;; ret false
  | Some demarche_config =>
      if token_invalid (api_token demarche_config) then
        print (ErrInvalidToken demarche_number) ;; ret false
      else
        stage_context demarche_config demarche_number ;;
        probe_access demarche_config demarche_number
  end.

(** *** Orchestrator *)

Definition environment_failure (number name : json) : SyncResult :=
  {| demarche_number := number; demarche_name := name; success := false;
     dossiers_processed := 0; errors := [ErrEnvironmentSetup];
     duration_seconds := 0 |}.

Definition not_found_failure (demarche_number : json) : SyncResult :=
  {| demarche_number := demarche_number;
     demarche_name := JStr ("Démarche " +:+ py_str demarche_number);
     success := false; dossiers_processed := 0;
     errors := [ErrNotInConfiguration]; duration_seconds := 0 |}.

Definition raise_if_failed (failed : option string) : M unit :=
  match failed with
  | Some text => raise (Exception text)
  | None => ret tt
  end.

(** The collaborator is taken to leave [os.environ] alone; its call is one
    event. *)
Definition _sync_single_demarche (demarche : DemarcheConfig) : M SyncResult :=
  start_time <- ask (clock os) ;;
  try_except
    (failed <- ask (import_grist_processor os) ;;
     raise_if_failed failed ;;
     grist_config <- get_grist_config ;;
     base_url <- getitem "base_url" (JDict grist_config) ;;
     api_key <- getitem "api_key" (JDict grist_config) ;;
     doc_id <- getitem "doc_id" (JDict grist_config) ;;
     failed <- ask (fun w => GristClient os w base_url api_key doc_id) ;;
     raise_if_failed failed ;;
     let sync_config := sync_config demarche in
     parallel <- get "parallel" (JBool true) sync_config ;;
     batch_size <- get "batch_size" (JInt 50) sync_config ;;
     max_workers <- get "max_workers" (JInt 3) sync_config ;;
     outcome <- ask (fun w => process_demarche_for_grist_optimized os w
                                (number demarche) parallel batch_size max_workers) ;;
     emit (SyncJob base_url api_key doc_id (number demarche)
             parallel batch_size max_workers outcome) ;;
     match outcome with
     | inl text => raise (Exception text)
     | inr ok =>
         end_time <- ask (clock os) ;;
         ret {| demarche_number := number demarche; demarche_name := name demarche;
                success := ok; dossiers_processed := 0; errors := [];
                duration_seconds := end_time - start_time |}
     end)
    (fun e =>
       end_time <- ask (clock os) ;;
       print (ErrSync (sync_error_text (ErrSynchronisation e))) ;;
       ret {| demarche_number := number demarche; demarche_name := name demarche;
              success := false; dossiers_processed := 0;
              errors := [ErrSynchronisation e];
              duration_seconds := end_time - start_time |}).

Definition pause : M unit := print InfoPause ;; emit (Sleep 2).

(** The loop of [sync_all_demarches], at index [i] of [total]. *)
Fixpoint sync_all_loop (total i : nat) (todo : list DemarcheConfig)
    (results : list SyncResult) : M (list SyncResult) :=
  match todo with
  | [] => ret results
  | demarche :: rest =>
      print (InfoSyncIndexed i total (name demarche) (number demarche)) ;;
      staged <- set_environment_for_demarche (number demarche) ;;
      if negb staged then
        sync_all_loop total (S i) rest
          (results ++ [environment_failure (number demarche) (name demarche)])
      else
        r <- _sync_single_demarche demarche ;;
        (if (i <? total)%nat then pause else ret tt) ;;
        sync_all_loop total (S i) rest (results ++ [r])
  end.

Definition sync_all_demarches : M (list SyncResult) :=
  let enabled_demarches := get_enabled_demarches in
  print (InfoStartAll (length enabled_demarches)) ;;
  results <- sync_all_loop (length enabled_demarches) 1 enabled_demarches [] ;;
  print (Summary results) ;;
  ret results.

(** The loop of [sync_specific_demarches]; [final] is
    [demarche_numbers[-1]]. *)
Fixpoint sync_specific_loop (force_disabled : bool) (final : json)
    (todo : list json) (results : list SyncResult) : M (list SyncResult) :=
  match todo with
  | [] => ret results
  | demarche_number :: rest =>
      match get_demarche_config demarche_number with
      | None =>
          print (ErrDemarcheNotFound demarche_number) ;;
          print (InfoAvailable (number <$> demarches self)) ;;
          sync_specific_loop force_disabled final rest
            (results ++ [not_found_failure demarche_number])
      | Some demarche_config =>
          if negb (py_truthy (enabled demarche_config)) && negb force_disabled then
            print (WarnDisabled demarche_number (name demarche_config)) ;;
            print InfoUseForce ;;
            sync_specific_loop force_disabled final rest results
          else
            print (InfoSync (name demarche_config) demarche_number) ;;
            staged <- set_environment_for_demarche demarche_number ;;
            if negb staged then
              sync_specific_loop force_disabled final rest
                (results ++ [environment_failure demarche_number (name demarche_config)])
            else
              r <- _sync_single_demarche demarche_config ;;
              (if negb (py_eq demarche_number final) then pause else ret tt) ;;
              sync_specific_loop force_disabled final rest (results ++ [r])
      end
  end.

Definition sync_specific_demarches (demarche_numbers : list json)
    (force_disabled : bool) : M (list SyncResult) :=
  print (InfoSearching demarche_numbers) ;;
  results <- sync_specific_loop force_disabled
               (List.last demarche_numbers JNull) demarche_numbers [] ;;
  match results with
  | [] => print WarnNothingSynced
  | _ => print (Summary results)
  end ;;
  ret results.

(** *** Validation *)

(** [not grist_config.get(key) or grist_config[key].startswith('${')] *)
Definition grist_field_incomplete (grist_config : dict) (key : string) : M bool :=
  match dict_get key grist_config with
  | None => ret true
  | Some v =>
      if negb (py_truthy v) then ret true
      else match v with
           | JStr s => ret (Str.startswith "${" s)
           | _ => raise (no_attribute v "startswith")
           end
  end.

Fixpoint validate_grist (grist_config : dict) (keys : list string) (valid : bool)
    : M bool :=
  match keys with
  | [] => ret valid
  | key :: rest =>
      incomplete <- grist_field_incomplete grist_config key ;;
      if incomplete then
        print (ErrGristIncomplete key) ;; validate_grist grist_config rest false
      else validate_grist grist_config rest valid
  end.

Fixpoint validate_demarches (todo : list DemarcheConfig) (valid : bool) : M bool :=
  match todo with
  | [] => ret valid
  | demarche :: rest =>
      if token_invalid (api_token demarche) then
        print (ErrTokenMissing (number demarche) (name demarche)) ;;
        validate_demarches rest false
      else
        print (InfoDemarcheStatus (py_truthy (enabled demarche))
                 (name demarche) (number demarche)) ;;
        validate_demarches rest valid
  end.

Definition validate_configuration : M bool :=
  print InfoValidating ;;
  grist_config <- get_grist_config ;;
  valid <- validate_grist grist_config ["base_url"; "api_key"; "doc_id"] true ;;
  (if valid then print InfoGristValid else ret tt) ;;
  print (InfoCounts (length get_enabled_demarches) (length (demarches self))) ;;
  valid <- validate_demarches (demarches self) valid ;;
  (if valid then print InfoConfigurationValid else print ErrConfigurationInvalid) ;;
  ret valid.

End Process.

(** ** Command line

    [main] prints lines of its own and calls the manager.  Its state is the
    state of the process and the lines it has printed itself, latest first,
    each with the number of events that the process had done before it: the
    order of all that happens is kept. *)

Module Args.
(** The namespace that [parser.parse_args()] returns. *)
Record t : Type := {
  demarches : option string;
  force : bool;
  validate_only : bool;
  dry_run : bool;
  config : string;
  debug : bool
}.
End Args.

(** One constructor for each [print] of [main]. *)
Inductive main_message : Type :=
| MainDebugOn
| MainStart
| MainConfigFile (path : string)
| MainConfigMissing (path : string)
| MainConfigHint (path : string)
| MainLoaded (count : nat)
| MainAvailable
| MainJob (number name : json) (enabled token_ok : bool)
| MainValid
| MainInvalid
| MainInvalidStop
| MainSelected (numbers : list json)
| MainSelectionError (selection : string)
| MainExpectedFormat
| MainYourInput (selection : string)
| MainDone (success_count : nat)
| MainNoSuccess
| MainFatal (text : string)
| MainTraceback
| MainUseDebug.

Record Console : Type := {
  process : World;
  lines : list (nat * main_message)
}.

Inductive outcome (A : Type) : Type :=
| Done (a : A) (c : Console)
| Failed (e : exn) (c : Console).
Arguments Done {A} a c.
Arguments Failed {A} e c.

Definition Main (A : Type) : Type := Console -> outcome A.

Definition main_ret {A} (a : A) : Main A := fun c => Done a c.

Definition main_raise {A} (e : exn) : Main A := fun c => Failed e c.

Definition main_bind {A B} (m : Main A) (k : A -> Main B) : Main B :=
  fun c =>
    match m c with
    | Done a c' => k a c'
    | Failed e c' => Failed e c'
    end.

(** [try: m except Exception as e: handler(e)] *)
Definition main_try {A} (m : Main A) (handler : exn -> Main A) : Main A :=
  fun c =>
    match m c with
    | Done a c' => Done a c'
    | Failed e c' => handler e c'
    end.

(** [try: m except ValueError as e: handler(e)] *)
Definition main_try_value_error {A} (m : Main A) (handler : exn -> Main A) : Main A :=
  fun c =>
    match m c with
    | Failed (ValueError msg) c' => handler (ValueError msg) c'
    | r => r
    end.

(** A call of the manager, which acts on the state of the process. *)
Definition call {A} (m : M A) : Main A :=
  fun c =>
    match m (process c) with
    | Returns a w => Done a {| process := w; lines := lines c |}
    | Raises e w => Failed e {| process := w; lines := lines c |}
    end.

Definition say (m : main_message) : Main unit :=
  fun c => Done tt {| process := process c;
                      lines := (length (log (process c)), m) :: lines c |}.

Declare Scope main_scope.
Delimit Scope main_scope with main.
Notation "x <- m ;; k" := (main_bind m (fun x => k))
  (at level 100, m at next level, right associativity) : main_scope.
Notation "m ;; k" := (main_bind m (fun _ => k))
  (at level 100, right associativity) : main_scope.

Fixpoint main_for_each {A} (xs : list A) (body : A -> Main unit) : Main unit :=
  match xs with
  | [] => main_ret tt
  | x :: rest => main_bind (body x) (fun _ => main_for_each rest body)
  end.

(** [s.split(sep)] for a separator of one ASCII character. *)
Fixpoint str_split (sep : ascii) (s : string) : list string :=
  match s with
  | EmptyString => [EmptyString]
  | String c t =>
      if Ascii.eqb c sep then EmptyString :: str_split sep t
      else match str_split sep t with
           | x :: rest => String c x :: rest
           | [] => [String c EmptyString]
           end
  end.

(** What [main] takes from the standard library. *)
Record Builtins : Type := {
  (** [os.path.exists(path)] *)
  os_path_exists : string -> bool;
  (** [s.strip()] *)
  str_strip : string -> string;
  (** [int(s)] for a string: the number, or the message of its [ValueError] *)
  int_of_str : string -> string + Z
}.

Section Main.

Variable builtins : Builtins.
Variable os : Platform.

Local Open Scope main_scope.

(** The loop that reads [--demarches]. *)
Fixpoint parse_numbers (parts : list string) (demarche_numbers : list json)
    : Main (list json) :=
  match parts with
  | [] => main_ret demarche_numbers
  | x :: rest =>
      let cleaned := str_strip builtins x in
      if String.eqb cleaned "" then parse_numbers rest demarche_numbers
      else match int_of_str builtins cleaned with
           | inr k => parse_numbers rest (demarche_numbers ++ [JInt k])
           | inl text => main_raise (ValueError text)
           end
  end.

(** [if args.demarches:] *)
Definition selection (args : Args.t) : option string :=
  match Args.demarches args with
  | Some s => if String.eqb s "" then None else Some s
  | None => None
  end.

(** The results of the synchronisation that [main] runs, [None] when the
    handler of [ValueError] has made [main] return 1. *)
Definition run_sync (args : Args.t) (manager : Manager)
    : Main (option (list SyncResult)) :=
  match selection args with
  | Some s =>
      main_try_value_error
        (demarche_numbers <- parse_numbers (str_split "," s) [] ;;
         say (MainSelected demarche_numbers) ;;
         results <- call (sync_specific_demarches os manager demarche_numbers
                            (Args.force args)) ;;
         main_ret (Some results))
        (fun _ =>
           say (MainSelectionError s) ;;
           say MainExpectedFormat ;;
           say (MainYourInput s) ;;
           main_ret None)
  | None =>
      results <- call (sync_all_demarches os manager) ;;
      main_ret (Some results)
  end.

(** The body of the [try] of [main]. *)
Definition main_body (args : Args.t) : Main Z :=
  say MainStart ;;
  say (MainConfigFile (Args.config args)) ;;
  if negb (os_path_exists builtins (Args.config args)) then
    say (MainConfigMissing (Args.config args)) ;;
    say (MainConfigHint (Args.config args)) ;;
    main_ret 1
  else
    manager <- call (init os (Args.config args)) ;;
    say (MainLoaded (length (demarches manager))) ;;
    (if Args.debug args then
       say MainAvailable ;;
       main_for_each (demarches manager) (fun d =>
         say (MainJob (number d) (name d) (py_truthy (enabled d))
                (negb (token_invalid (api_token d)))))
     else main_ret tt) ;;
    if Args.validate_only args || Args.dry_run args then
      valid <- call (validate_configuration manager) ;;
      if valid then say MainValid ;; main_ret 0
      else say MainInvalid ;; main_ret 1
    else
      valid <- call (validate_configuration manager) ;;
      if negb valid then say MainInvalidStop ;; main_ret 1
      else
        ran <- run_sync args manager ;;
        match ran with
        | None => main_ret 1
        | Some results =>
            let success_count := length (List.filter success results) in
            if (0 <? success_count)%nat then
              say (MainDone success_count) ;; main_ret 0
            else say MainNoSuccess ;; main_ret 1
        end.

(** [main()], for the arguments that [argparse] has read: the exit code. *)
Definition main (args : Args.t) : Main Z :=
  (if Args.debug args then
     call (setenv "LOG_LEVEL" (JStr "DEBUG")) ;; say MainDebugOn
   else main_ret tt) ;;
  main_try (main_body args)
    (fun e =>
       say (MainFatal (exn_str e)) ;;
       (if Args.debug args then say MainTraceback else say MainUseDebug) ;;
       main_ret 1).

End Main.

(** ** The resolver at the interpreter

    The methods above are followed as an ordinary run has them: [os.getenv]
    finds or does not find a name, and a call is made.  The interpreter can
    refuse both.  [os.getenv] encodes the name in the encoding of the file
    system and raises [UnicodeEncodeError] for a name that the encoding
    lacks; and a call that the stack has no frame for raises
    [RecursionError].  Here the resolver is followed call by call, with the
    frames that are left and with what [os.getenv] can encode. *)

Module Interpreter.

Record Limits : Type := {
  (** the message of the [UnicodeEncodeError] that [os.getenv] raises for a
      name, when the encoding of the file system lacks a character of it: a
      lone surrogate in every encoding, a character beyond U+00FF in
      Latin-1 *)
  getenv_error : string -> option string;
  (** the frames that the comprehension of a [dict] or a [list] takes: one
      before CPython 3.12, none since *)
  comprehension_frames : nat;
  (** the frames that the resolution of a string takes under the method:
      those of [_resolve_env_vars] and [re.sub], of the compilation of the
      pattern when [re] has not compiled it yet, and for a match those of
      [replace_var] and [os.getenv] *)
  string_frames : bool -> string -> nat
}.

(** [RecursionError] is a [RuntimeError], [UnicodeEncodeError] a
    [ValueError]. *)
Definition RecursionError : exn := Exception "maximum recursion depth exceeded".

Definition UnicodeEncodeError (msg : string) : exn := ValueError msg.

(** [[f(x) for x in xs]] where a call can raise: the items are taken in
    order, and the first call that raises ends the comprehension. *)
Section Comprehension.

Context {A B : Type}.

Variable f : A -> bool -> exn + (B * bool).

Fixpoint comprehension (xs : list A) (compiled : bool) : exn + (list B * bool) :=
  match xs with
  | [] => inr ([], compiled)
  | x :: rest =>
      match f x compiled with
      | inl e => inl e
      | inr (y, compiled') =>
          match comprehension rest compiled' with
          | inl e => inl e
          | inr (ys, compiled'') => inr (y :: ys, compiled'')
          end
      end
  end.

End Comprehension.

Section Calls.

Variable limits : Limits.

(** The process environment that [os.getenv] reads. *)
Variable env : gmap string string.

(** [os.getenv(var_name, default)] *)
Definition getenv (var_name default_ : string) : exn + string :=
  match getenv_error limits var_name with
  | Some msg => inl (UnicodeEncodeError msg)
  | None => inr (default default_ (env !! var_name))
  end.

Definition replace_var (var_name : string) : exn + string :=
  getenv var_name ("${" +:+ var_name +:+ "}").

(** [re.sub] with a callback that can raise: the first match whose callback
    raises ends the substitution. *)
Fixpoint sub_from (repl : string -> exn + string) (skip : nat) (s : string)
    : exn + string :=
  match s with
  | EmptyString => inr EmptyString
  | String c t =>
      match skip with
      | S k => sub_from repl k t
      | O =>
          match Re.match_at s with
          | Some name =>
              match repl name with
              | inl e => inl e
              | inr value =>
                  match sub_from repl (2 + String.length name) t with
                  | inl e => inl e
                  | inr rest => inr (value +:+ rest)
                  end
              end
          | None =>
              match sub_from repl O t with
              | inl e => inl e
              | inr rest => inr (String c rest)
              end
          end
      end
  end.

Definition _resolve_env_vars (text : json) : exn + json :=
  match text with
  | JStr s =>
      match sub_from replace_var O s with
      | inl e => inl e
      | inr resolved => inr (JStr resolved)
      end
  | _ => inr text
  end.

(** [_resolve_dict_env_vars(data)] with [frames] frames left on the stack.
    [compiled] tells whether [re] has compiled the pattern; it has after the
    first string. *)
Fixpoint _resolve_dict_env_vars (data : json) (frames : nat) (compiled : bool)
    {struct data} : exn + (json * bool) :=
  match frames with
  | O => inl RecursionError
  | S under =>
      match data with
      | JDict fields =>
          if (under <? comprehension_frames limits)%nat then inl RecursionError
          else
            match
              comprehension
                (fun kv compiled =>
                   match _resolve_dict_env_vars kv.2
                           (under - comprehension_frames limits) compiled with
                   | inl e => inl e
                   | inr (value, compiled') => inr ((kv.1, value), compiled')
                   end) fields compiled
            with
            | inl e => inl e
            | inr (fields', compiled') => inr (JDict fields', compiled')
            end
      | JList items =>
          if (under <? comprehension_frames limits)%nat then inl RecursionError
          else
            match
              comprehension
                (fun item => _resolve_dict_env_vars item
                               (under - comprehension_frames limits)) items compiled
            with
            | inl e => inl e
            | inr (items', compiled') => inr (JList items', compiled')
            end
      | JStr s =>
          if (under <? string_frames limits compiled s)%nat then inl RecursionError
          else
            match _resolve_env_vars (JStr s) with
            | inl e => inl e
            | inr resolved => inr (resolved, true)
            end
      | _ => inr (data, compiled)
      end
  end.

End Calls.

End Interpreter.

(** * Vocabulary of the statements *)

(** ** Placeholders *)

(** What the pattern can capture: a non-empty name without [}]. *)
Definition valid_name (N : string) : Prop := N ≠ "" ∧ Str.mem "}" N = false.

Definition placeholder (N : string) : string := "${" +:+ N +:+ "}".

(** [S] has an occurrence of the pattern. *)
Definition occurs_placeholder (S : string) : Prop :=
  ∃ pre N post, valid_name N ∧ S = pre +:+ placeholder N +:+ post.

(** The resolver in the words of its contract: strings are resolved, lists
    item by item, mappings value by value with their keys kept, and the other
    values are kept. *)
#[warnings="-register-all"]
Inductive resolved (env : gmap string string) : json → json → Prop :=
| resolved_null : resolved env JNull JNull
| resolved_bool b : resolved env (JBool b) (JBool b)
| resolved_int n : resolved env (JInt n) (JInt n)
| resolved_str s : resolved env (JStr s) (JStr (resolve_str env s))
| resolved_list xs ys :
    Forall2 (resolved env) xs ys → resolved env (JList xs) (JList ys)
| resolved_dict xs ys :
    Forall2 (λ x y, x.1 = y.1 ∧ resolved env x.2 y.2) xs ys →
    resolved env (JDict xs) (JDict ys).

Definition resolve_field (env : gmap string string) (kv : string * json) : string * json :=
  (kv.1, _resolve_dict_env_vars env kv.2).

(** Induction on a value, with the hypothesis for the items of a list and
    for the values of a mapping. *)
Section json_nested_ind.
Variable P : json → Prop.
Hypothesis HNull : P JNull.
Hypothesis HBool : ∀ b, P (JBool b).
Hypothesis HInt : ∀ n, P (JInt n).
Hypothesis HStr : ∀ s, P (JStr s).
Hypothesis HList : ∀ items, Forall P items → P (JList items).
Hypothesis HDict : ∀ fields, Forall (λ kv, P kv.2) fields → P (JDict fields).

Fixpoint json_nested_ind (v : json) : P v :=
  match v with
  | JNull => HNull
  | JBool b => HBool b
  | JInt n => HInt n
  | JStr s => HStr s
  | JList items =>
      HList items
        ((fix go (l : list json) : Forall P l :=
            match l with
            | [] => Forall_nil_2 P
            | x :: l' => Forall_cons_2 P x l' (json_nested_ind x) (go l')
            end) items)
  | JDict fields =>
      HDict fields
        ((fix go (l : list (string * json)) : Forall (λ kv, P kv.2) l :=
            match l with
            | [] => Forall_nil_2 _
            | kv :: l' => Forall_cons_2 _ kv l' (json_nested_ind kv.2) (go l')
            end) fields)
  end.
End json_nested_ind.

(** ** The resolver at the interpreter *)

(** The names that the resolver looks up in a string, in the order of the
    look-ups: group 1 of each match. *)
Fixpoint names_from (skip : nat) (s : string) : list string :=
  match s with
  | EmptyString => []
  | String c t =>
      match skip with
      | S k => names_from k t
      | O =>
          match Re.match_at s with
          | Some name => name :: names_from (2 + String.length name) t
          | None => names_from O t
          end
      end
  end.

(** The names that the resolver looks up in a value, in the order of the
    look-ups. *)
Fixpoint lookups (data : json) : list string :=
  match data with
  | JStr s => names_from O s
  | JList items => concat (map lookups items)
  | JDict fields => concat (map (λ kv, lookups kv.2) fields)
  | _ => []
  end.

(** [os.getenv] can encode the name. *)
Definition encodable (limits : Interpreter.Limits) (name : string) : Prop :=
  Interpreter.getenv_error limits name = None.

(** The failures of a call: the stack, or a name that cannot be encoded. *)
Definition interpreter_failure (limits : Interpreter.Limits) (data : json) (e : exn) : Prop :=
  e = Interpreter.RecursionError
  ∨ ∃ name msg, name ∈ lookups data ∧
                Interpreter.getenv_error limits name = Some msg ∧
                e = Interpreter.UnicodeEncodeError msg.

(** A list nested [depth] times in lists. *)
Fixpoint nest (depth : nat) : json :=
  match depth with
  | O => JList []
  | S n => JList [nest n]
  end.

(** Every character is one of Latin-1: no byte of the encoding is above the
    lead bytes of U+0080 to U+00FF. *)
Fixpoint latin1 (s : string) : bool :=
  match s with
  | EmptyString => true
  | String c t => (nat_of_ascii c <? 196)%nat && latin1 t
  end.

(** An interpreter whose comprehensions take a frame, as CPython 3.11, in a
    locale whose encoding is Latin-1.  The frames of a string are a sample:
    more for the first string, when the pattern is compiled. *)
Definition latin1_limits : Interpreter.Limits :=
  {| Interpreter.getenv_error := λ name,
       if latin1 name then None
       else Some "'latin-1' codec can't encode character: ordinal not in range(256)";
     Interpreter.comprehension_frames := 1;
     Interpreter.string_frames := λ compiled _, if compiled then 7%nat else 30%nat |}.

(** ** Outcomes of a computation *)

(** A process that has set no variable and done nothing yet. *)
Definition World0 : World := {| environ := ∅; log := [] |}.

Definition returns {A} (r : result A) : bool :=
  match r with Returns _ _ => true | Raises _ _ => false end.

Definition state_after {A} (r : result A) : World :=
  match r with Returns _ w | Raises _ w => w end.

(** [w] with [events] after what it has done, given in the order they
    happen. *)
Definition logged (events : list event) (w : World) : World :=
  {| environ := environ w; log := rev events ++ log w |}.

(** [m] writes nothing to [os.environ]. *)
Definition keeps_environ {A} (m : M A) : Prop :=
  ∀ w, environ (state_after (m w)) = environ w.

(** The outcome of [m], its final state apart, does not depend on the state
    it starts from. *)
Definition same_outcome {A} (r1 r2 : result A) : Prop :=
  match r1, r2 with
  | Returns a _, Returns b _ => a = b
  | Raises e _, Raises e' _ => e = e'
  | _, _ => False
  end.

Definition uniform {A} (m : M A) : Prop := ∀ w1 w2, same_outcome (m w1) (m w2).

(** [w'] has done what [w] has done, and then events that satisfy [P]. *)
Definition extends (P : event → Prop) (w w' : World) : Prop :=
  ∃ evs, log w' = evs ++ log w ∧ Forall P evs.

Definition emits {A} (P : event → Prop) (m : M A) : Prop :=
  ∀ w, extends P w (state_after (m w)).

(** [w] is reached from [w0] without a write to the environment, by events
    that satisfy [P]. *)
Definition reached (P : event → Prop) (w0 w : World) : Prop :=
  environ w = environ w0 ∧ extends P w0 w.

(** [Φ] holds of what [m] returns from [w], [Ψ] of what it raises. *)
Definition wp {A} (m : M A) (Φ : A → World → Prop) (Ψ : exn → World → Prop)
    (w : World) : Prop :=
  match m w with
  | Returns a w' => Φ a w'
  | Raises e w' => Ψ e w'
  end.

(** ** Reading a configuration *)

(** The string that [v] is, when it is one. *)
Definition str_of (v : json) : string :=
  match v with JStr s => s | _ => "" end.

(** The items that a loop over [v] visits, when it can be iterated. *)
Definition items_of (v : json) : list json :=
  match v with
  | JList items => items
  | JStr s => JStr <$> Str.chars s
  | JDict fields => (λ kv, JStr kv.1) <$> fields
  | _ => []
  end.

(** The value of [key] in the object [v], [dflt] without one. *)
Definition field (key : string) (dflt : json) (v : json) : json :=
  match v with JDict fields => dict_get_d key dflt fields | _ => dflt end.

Definition has_key (key : string) (fields : dict) : bool :=
  existsb (λ kv, String.eqb kv.1 key) fields.

(** The target-store block of the configuration. *)
Definition grist_block (self : Manager) : dict :=
  match field "grist" JNull (config self) with JDict g => g | _ => [] end.

(** ** Configuration loader *)

(** The file, when it holds a document, holds an object. *)
Definition document_is_object (file : file_state) : bool :=
  match file with
  | JsonDocument (JDict _) => true
  | JsonDocument _ => false
  | _ => true
  end.

(** [open] raises [FileNotFoundError]. *)
Definition file_not_found (file : file_state) : Prop :=
  file = NoSuchFile ∨ ∃ msg, file = Unreadable (FileNotFoundError msg).

(** The reading raises [e], which neither handler of the loader catches. *)
Definition escapes (file : file_state) (e : exn) : Prop :=
  file = Unreadable e ∧ ∀ msg, e ≠ FileNotFoundError msg.

(** The first required section that the document lacks. *)
Definition missing_section (fields : dict) : option string :=
  List.find (λ section, negb (has_key section fields)) ["grist"; "demarches"].

(** ** Job registry *)

Definition entry_token (entry : json) : json := field "api_token" (JStr "") entry.

(** The entry is skipped: its token starts with the placeholder marker. *)
Definition entry_skipped (entry : json) : bool :=
  Str.startswith "${" (str_of (entry_token entry)).

(** The job record of an entry, with the defaults of the registry. *)
Definition job_of_entry (entry : json) : DemarcheConfig :=
  {| number := field "number" JNull entry;
     name := field "name" JNull entry;
     api_token := str_of (entry_token entry);
     api_url := field "api_url" (JStr DEFAULT_API_URL) entry;
     enabled := field "enabled" (JBool true) entry;
     sync_config := field "sync_config" (JDict []) entry;
     filters := field "filters" (JDict []) entry |}.

(** What the loop prints for an entry, in the order of printing. *)
Definition entry_warnings (entry : json) : list event :=
  if entry_skipped entry then
    [Output (WarnTokenUnresolved (field "number" JNull entry));
     Output (WarnMissingVariable (str_of (entry_token entry)))]
  else [].

(** An object with a number, a token that is a string when present, and a
    name unless the entry is skipped. *)
Definition entry_well_formed (entry : json) : bool :=
  match entry with
  | JDict fields =>
      match entry_token entry with
      | JStr _ => has_key "number" fields && (entry_skipped entry || has_key "name" fields)
      | _ => false
      end
  | _ => false
  end.

(** ** Environment stager *)

Definition credential_slots : list string :=
  ["DEMARCHES_API_TOKEN"; "DEMARCHES_API_URL"; "DEMARCHE_NUMBER"].

Definition setting_slots : list string :=
  ["GRIST_BASE_URL"; "GRIST_API_KEY"; "GRIST_DOC_ID"; "DATE_DEPOT_DEBUT";
   "DATE_DEPOT_FIN"; "STATUTS_DOSSIERS"; "GROUPES_INSTRUCTEURS"; "BATCH_SIZE";
   "MAX_WORKERS"; "PARALLEL"].

(** The slots written before the reload of the [.env] file, with the values
    of the job [d] staged under the number [n]. *)
Definition job_credentials (os : Platform) (d : DemarcheConfig) (n : json)
    : list (string * string) :=
  [("DEMARCHES_API_TOKEN", api_token d);
   ("DEMARCHES_API_URL", str_of (api_url d));
   ("DEMARCHE_NUMBER", py_str os n)].

(** The slots written after it, with the values of the target store and of
    the job [d], or the default of the field. *)
Definition job_settings (os : Platform) (self : Manager) (d : DemarcheConfig)
    : list (string * string) :=
  [("GRIST_BASE_URL", str_of (field "base_url" JNull (JDict (grist_block self))));
   ("GRIST_API_KEY", str_of (field "api_key" JNull (JDict (grist_block self))));
   ("GRIST_DOC_ID", str_of (field "doc_id" JNull (JDict (grist_block self))));
   ("DATE_DEPOT_DEBUT", str_of (field "date_depot_debut" (JStr "") (filters d)));
   ("DATE_DEPOT_FIN", str_of (field "date_depot_fin" (JStr "") (filters d)));
   ("STATUTS_DOSSIERS",
    Str.join "," (str_of <$> items_of (field "statuts_dossiers" (JList []) (filters d))));
   ("GROUPES_INSTRUCTEURS",
    Str.join "," (py_str os <$> items_of (field "groupes_instructeurs" (JList []) (filters d))));
   ("BATCH_SIZE", py_str os (field "batch_size" (JInt 50) (sync_config d)));
   ("MAX_WORKERS", py_str os (field "max_workers" (JInt 3) (sync_config d)));
   ("PARALLEL", py_lower os (py_str os (field "parallel" (JBool true) (sync_config d))))].

Definition write (e : gmap string string) (kvs : list (string * string))
    : gmap string string :=
  foldl (λ e kv, <[kv.1 := kv.2]> e) e kvs.

(** The environment that a staging which completes leaves. *)
Definition staged_environ (os : Platform) (self : Manager) (d : DemarcheConfig)
    (n : json) (e : gmap string string) : gmap string string :=
  write (dotenv_environ os true (write e (job_credentials os d n)))
        (job_settings os self d).

(** The writes of the stager complete for the job [d] under the number [n].
    They do not read the state ([uniform_stage_context]), so the check runs
    them from [World0]. *)
Definition stageable (os : Platform) (self : Manager) (d : DemarcheConfig) (n : json) : bool :=
  returns (stage_context os self d n World0).

(** The first step of the stager fails: no job has the number, or the token
    of the job is empty or starts with the marker. *)
Definition rejected (self : Manager) (n : json) : bool :=
  match get_demarche_config self n with
  | None => true
  | Some d => token_invalid (api_token d)
  end.

(** The platform with another answer to the probe. *)
Definition with_http_post (os : Platform)
    (post : World → json → string → json → probe_outcome) : Platform :=
  {| py_repr := py_repr os; str_lower := str_lower os; dotenv_file := dotenv_file os;
     read_json := read_json os;
     has_queries_config := has_queries_config os; http_post := post;
     import_grist_processor := import_grist_processor os; GristClient := GristClient os;
     process_demarche_for_grist_optimized := process_demarche_for_grist_optimized os;
     clock := clock os |}.

(** ** Validation *)

Definition GRIST_KEYS : list string := ["base_url"; "api_key"; "doc_id"].

(** A target-store field is missing, empty or starts with the marker. *)
Definition grist_incomplete (g : dict) (key : string) : bool :=
  match dict_get key g with
  | None => true
  | Some v => negb (py_truthy v) || Str.startswith "${" (str_of v)
  end.

(** The field can be checked: it is missing, empty or a string. *)
Definition grist_checkable (g : dict) (key : string) : bool :=
  match dict_get key g with
  | None | Some (JStr _) => true
  | Some v => negb (py_truthy v)
  end.

(** The configuration has a target-store block whose fields can be checked. *)
Definition grist_well_formed (self : Manager) : bool :=
  match config self with
  | JDict c =>
      match dict_get "grist" c with
      | Some (JDict g) => forallb (grist_checkable g) GRIST_KEYS
      | _ => false
      end
  | _ => false
  end.

Definition grist_warning (kv : string * json) : list event :=
  match kv.2 with
  | JStr value =>
      if Str.startswith "${" value then [Output (WarnGristUnresolved kv.1 value)] else []
  | _ => []
  end.

Definition grist_error (g : dict) (key : string) : list event :=
  if grist_incomplete g key then [Output (ErrGristIncomplete key)] else [].

(** The line of a registered job: its violation, or its status. *)
Definition job_line (d : DemarcheConfig) : event :=
  if token_invalid (api_token d) then Output (ErrTokenMissing (number d) (name d))
  else Output (InfoDemarcheStatus (py_truthy (enabled d)) (name d) (number d)).

Definition grist_valid (g : dict) : bool :=
  forallb (λ key, negb (grist_incomplete g key)) GRIST_KEYS.

Definition tokens_valid (self : Manager) : bool :=
  forallb (λ d, negb (token_invalid (api_token d))) (demarches self).

Definition configuration_valid (self : Manager) : bool :=
  grist_valid (grist_block self) && tokens_valid self.

(** All that [validate_configuration] prints, in the order of printing. *)
Definition validation_report (self : Manager) : list event :=
  let g := grist_block self in
  [Output InfoValidating] ++ flat_map grist_warning g ++ flat_map (grist_error g) GRIST_KEYS
  ++ (if grist_valid g then [Output InfoGristValid] else [])
  ++ [Output (InfoCounts (length (get_enabled_demarches self)) (length (demarches self)))]
  ++ (job_line <$> demarches self)
  ++ [Output (if configuration_valid self then InfoConfigurationValid
             else ErrConfigurationInvalid)].

(** ** Orchestrator *)

Definition only_print (ev : event) : Prop :=
  match ev with Output _ => True | _ => False end.

Definition not_sync_job (ev : event) : Prop :=
  match ev with SyncJob _ _ _ _ _ _ _ _ => False | _ => True end.

Definition no_failed_call (ev : event) : Prop :=
  match ev with
  | SyncJob _ _ _ _ _ _ _ (inl _) => False
  | _ => True
  end.

(** A call of the collaborator that raised is matched by a failed result
    that carries its message. *)
Definition accounted (rs : list SyncResult) (ev : event) : Prop :=
  match ev with
  | SyncJob _ _ _ number _ _ _ (inl text) =>
      ∃ r, r ∈ rs ∧ demarche_number r = number ∧ success r = false ∧
           errors r = [ErrSynchronisation (Exception text)]
  | _ => True
  end.

(** [r] is the failed result of the job [d] for the exception [e]. *)
Definition failure_of (d : DemarcheConfig) (e : exn) (r : SyncResult) : Prop :=
  demarche_number r = number d ∧ demarche_name r = name d ∧
  success r = false ∧ errors r = [ErrSynchronisation e].

(** An event of a run of the collaborator for [d] that ends with [e]. *)
Definition blames (d : DemarcheConfig) (e : exn) (ev : event) : Prop :=
  match ev with
  | SyncJob _ _ _ k _ _ _ (inl text) => k = number d ∧ e = Exception text
  | _ => True
  end.

(** No job has the identifier [n]. *)
Definition unknown (self : Manager) (n : json) : bool :=
  match get_demarche_config self n with None => true | Some _ => false end.

(** The job that has the identifier [n] is disabled. *)
Definition disabled (self : Manager) (n : json) : bool :=
  match get_demarche_config self n with
  | Some d => negb (py_truthy (enabled d))
  | None => false
  end.

(** [r] is the result recorded for the identifier [n]. *)
Definition answers (os : Platform) (self : Manager) (n : json) (r : SyncResult) : Prop :=
  match get_demarche_config self n with
  | None => r = not_found_failure os n
  | Some d => demarche_name r = name d
  end.

(** ** Sample configurations *)

(** A [.env] file whose values refer to no variable. *)
Definition plain_dotenv (dotenv : list (string * string))
    : list (string * (bool → gmap string string → string)) :=
  (λ kv, (kv.1, λ _ _, kv.2)) <$> dotenv.

Definition sample_platform (dotenv : list (string * string)) (file : file_state)
    (post : probe_outcome) (run : json → string + bool) : Platform :=
  {| py_repr := λ _, "";
     str_lower := λ s, s;
     dotenv_file := plain_dotenv dotenv;
     read_json := λ _, file;
     has_queries_config := true;
     http_post := λ _ _ _ _, post;
     import_grist_processor := λ _, None;
     GristClient := λ _ _ _ _, None;
     process_demarche_for_grist_optimized := λ _ number _ _ _, run number;
     clock := λ w, Z.of_nat (length (log w)) |}.

Definition sample_job (n : Z) (label token : string) (on : bool) (flt : dict) : DemarcheConfig :=
  {| number := JInt n; name := JStr label; api_token := token;
     api_url := JStr DEFAULT_API_URL; enabled := JBool on;
     sync_config := JDict []; filters := JDict flt |}.

Definition sample_entry (n : Z) (label token : string) : json :=
  JDict [("number", JInt n); ("name", JStr label); ("api_token", JStr token)].

Definition sample_grist : json :=
  JDict [("base_url", JStr "https://grist.example"); ("api_key", JStr "key");
         ("doc_id", JStr "doc")].

Definition sample_manager (jobs : list DemarcheConfig) : Manager :=
  {| config_file := "config.json";
     config := JDict [("grist", sample_grist); ("demarches", JList [])];
     demarches := jobs |}.

(** No [.env] file, no configuration file, a probe that confirms and a
    collaborator that succeeds. *)
Definition calm : Platform := sample_platform [] NoSuchFile ProbeConfirmed (λ _, inr true).

(** A platform whose [.env] file binds the slot of the token. *)
Definition with_stale_dotenv : Platform :=
  sample_platform [("DEMARCHES_API_TOKEN", "token-of-dotenv")] NoSuchFile
    ProbeConfirmed (λ _, inr true).

(** A platform whose [.env] file holds the line [DOC_COPY=${GRIST_DOC_ID}]. *)
Definition with_dotenv_reference : Platform :=
  {| py_repr := py_repr calm; str_lower := str_lower calm;
     dotenv_file := [("DOC_COPY", λ _ e, default "" (e !! "GRIST_DOC_ID"))];
     read_json := read_json calm;
     has_queries_config := has_queries_config calm; http_post := http_post calm;
     import_grist_processor := import_grist_processor calm; GristClient := GristClient calm;
     process_demarche_for_grist_optimized := process_demarche_for_grist_optimized calm;
     clock := clock calm |}.

(** A platform whose collaborator raises for the job 2. *)
Definition flaky : Platform :=
  sample_platform [] NoSuchFile ProbeConfirmed
    (λ number, if py_eq number (JInt 2) then inl "boom" else inr true).

Definition job_A : DemarcheConfig := sample_job 1 "A" "token-A" true [].

Definition job_B : DemarcheConfig :=
  sample_job 2 "B" "token-B" true
    [("statuts_dossiers", JList [JStr "accepte"; JStr "refuse"])].

Definition job_C : DemarcheConfig := sample_job 3 "C" "token-C" true [].

Definition job_off : DemarcheConfig := sample_job 4 "D" "token-D" false [].

Definition two_jobs : Manager := sample_manager [job_A; job_B].

Definition four_jobs : Manager := sample_manager [job_A; job_B; job_C; job_off].

Definition after_A : World :=
  state_after (set_environment_for_demarche calm two_jobs (JInt 1) World0).

Definition after_B : World :=
  state_after (set_environment_for_demarche calm two_jobs (JInt 2) after_A).

(** ** Resolver and registry, continued *)

(** The strings that the recursive resolver visits in [data]: the string
    values, not the keys. *)
Fixpoint strings_of (data : json) : list string :=
  match data with
  | JStr s => [s]
  | JList items => flat_map strings_of items
  | JDict fields => flat_map (λ kv, strings_of kv.2) fields
  | _ => []
  end.

(** The environment binds no name that [s] holds between the braces of a
    placeholder. *)
Definition unbound_in (env : gmap string string) (s : string) : Prop :=
  ∀ N, valid_name N → Str.contains (placeholder N) s = true → env !! N = None.

(** No job of the list has a token that starts with the marker. *)
Definition tokens_unmarked (jobs : list DemarcheConfig) : Prop :=
  Forall (λ d, Str.startswith "${" (api_token d) = false) jobs.

Definition is_int (v : json) : bool :=
  match v with JInt _ => true | _ => false end.

(** The number of an entry of the configuration. *)
Definition entry_number (entry : json) : json := field "number" JNull entry.

(** ** Outcomes of a computation, continued *)

(** [m] leaves the state as it is: it prints nothing and writes nothing. *)
Definition reads_only {A} (m : M A) : Prop := ∀ w, state_after (m w) = w.

(** [m] writes no variable of [os.environ] outside [slots], whatever its
    outcome. *)
Definition writes_only {A} (slots : list string) (m : M A) : Prop :=
  ∀ w k, k ∉ slots → environ (state_after (m w)) !! k = environ w !! k.

(** Whatever [m] returns satisfies [Φ]. *)
Definition yields {A} (Φ : A → Prop) (m : M A) : Prop :=
  ∀ w a w', m w = Returns a w' → Φ a.

Definition any_event (ev : event) : Prop := True.

(** ** Stager and orchestrator, continued *)

(** The variables that a staging can write: its thirteen slots and the
    variables of the [.env] file. *)
Definition staging_slots (os : Platform) : list string :=
  credential_slots ++ setting_slots ++ (dotenv_file os).*1.

(** The shape of a result: no count of dossiers, at most one error, and an
    error only with a failure; a failure that the orchestrator records itself
    has no duration. *)
Definition well_shaped (r : SyncResult) : Prop :=
  dossiers_processed r = 0 ∧
  match errors r with
  | [] => True
  | [ErrSynchronisation _] => success r = false
  | [_] => success r = false ∧ duration_seconds r = 0
  | _ => False
  end.

(** The staging of the job did not fail. *)
Definition staged_ok (r : SyncResult) : Prop := ErrEnvironmentSetup ∉ errors r.

(** A call of the collaborator that returned [True]. *)
Definition synced (ev : event) : Prop :=
  match ev with
  | SyncJob _ _ _ _ _ _ _ (inr true) => True
  | _ => False
  end.

(** Between [w] and [w'] the collaborator has returned [True] for a job. *)
Definition did_sync (w w' : World) : Prop :=
  ∃ evs, log w' = evs ++ log w ∧ Exists synced evs.

(** A call of the collaborator for the job [d] has the number of the job,
    the three fields of the target store and the three settings of the job,
    or their defaults. *)
Definition called_for (self : Manager) (d : DemarcheConfig) (ev : event) : Prop :=
  match ev with
  | SyncJob base_url api_key doc_id number_ parallel batch_size max_workers _ =>
      number_ = number d ∧
      base_url = field "base_url" JNull (JDict (grist_block self)) ∧
      api_key = field "api_key" JNull (JDict (grist_block self)) ∧
      doc_id = field "doc_id" JNull (JDict (grist_block self)) ∧
      parallel = field "parallel" (JBool true) (sync_config d) ∧
      batch_size = field "batch_size" (JInt 50) (sync_config d) ∧
      max_workers = field "max_workers" (JInt 3) (sync_config d)
  | _ => True
  end.

(** A call of the collaborator has the values that the environment [env]
    holds as strings. *)
Definition call_matches (os : Platform) (env : gmap string string) (ev : event) : Prop :=
  match ev with
  | SyncJob base_url api_key doc_id _ parallel batch_size max_workers _ =>
      env !! "GRIST_BASE_URL" = Some (str_of base_url) ∧
      env !! "GRIST_API_KEY" = Some (str_of api_key) ∧
      env !! "GRIST_DOC_ID" = Some (str_of doc_id) ∧
      env !! "PARALLEL" = Some (py_lower os (py_str os parallel)) ∧
      env !! "BATCH_SIZE" = Some (py_str os batch_size) ∧
      env !! "MAX_WORKERS" = Some (py_str os max_workers)
  | _ => True
  end.

(** [ev] is a pause of the process. *)
Definition is_sleep (ev : event) : bool :=
  match ev with Sleep _ => true | _ => false end.

(** The number of pauses among the events. *)
Definition count_sleeps (evs : list event) : nat := length (List.filter is_sleep evs).

(** [ev] is not a pause. *)
Definition no_sleep (ev : event) : Prop :=
  match ev with Sleep _ => False | _ => True end.

(** [n != final] *)
Definition differs_from (final n : json) : bool := negb (py_eq n final).

(** A pause lasts two seconds. *)
Definition sleeps_two (ev : event) : Prop :=
  match ev with Sleep seconds => seconds = 2 | _ => True end.

(** No value of the [.env] file refers to a variable: the file binds the same
    values at every call of [load_dotenv]. *)
Definition dotenv_plain (os : Platform) : Prop :=
  ∀ kv, kv ∈ dotenv_file os → ∀ b e b' e', kv.2 b e = kv.2 b' e'.

(** ** Command line *)

Definition console_after {A} (r : outcome A) : Console :=
  match r with Done _ c | Failed _ c => c end.

(** An event that is neither a staging nor a synchronisation: a line printed
    or a reading of the [.env] file. *)
Definition quiet (ev : event) : Prop :=
  match ev with Output _ | LoadDotenv _ => True | _ => False end.

(** The process of [m] does events that satisfy [P], whatever the outcome. *)
Definition main_emits {A} (P : event → Prop) (m : Main A) : Prop :=
  ∀ c, extends P (process c) (process (console_after (m c))).

(** The process of [m] writes no variable outside [slots]. *)
Definition main_writes_only {A} (slots : list string) (m : Main A) : Prop :=
  ∀ c k, k ∉ slots →
    environ (process (console_after (m c))) !! k = environ (process c) !! k.

(** Whatever [m] returns satisfies [Φ]. *)
Definition main_yields {A} (Φ : A → Prop) (m : Main A) : Prop :=
  ∀ c a c', m c = Done a c' → Φ a.

(** [m] does not raise. *)
Definition main_total {A} (m : Main A) : Prop :=
  ∀ c, ∃ a c', m c = Done a c'.

(** [main] only checks the configuration: [--validate-only] or [--dry-run]. *)
Definition check_only (args : Args.t) : bool :=
  Args.validate_only args || Args.dry_run args.

(** The state in which the [try] of [main] starts: [--debug] has set
    [LOG_LEVEL]. *)
Definition debug_environ (args : Args.t) (w : World) : World :=
  if Args.debug args then
    {| environ := <["LOG_LEVEL" := "DEBUG"]> (environ w); log := log w |}
  else w.

(** ** Sample command lines *)

(** A platform with the given [.env] file and configuration file. *)
Definition sample_files (dotenv : list (string * string)) (file : file_state) : Platform :=
  sample_platform dotenv file ProbeConfirmed (λ _, inr true).

(** The configuration file of the samples: jobs 1 and 2. *)
Definition sample_document : json :=
  JDict [("grist", sample_grist);
         ("demarches", JList [sample_entry 1 "A" "token-A"; sample_entry 2 "B" "token-B"])].

(** A configuration file whose job has a null character in a date bound. *)
Definition sample_document_with_null : json :=
  JDict [("grist", sample_grist);
         ("demarches",
          JList [JDict [("number", JInt 1); ("name", JStr "A"); ("api_token", JStr "token-A");
                        ("filters",
                         JDict [("date_depot_debut", JStr (String Ascii.zero EmptyString))])]])].

(** A console whose process has done nothing and which shows nothing. *)
Definition Console0 : Console := {| process := World0; lines := [] |}.

(** Builtins for the samples: [present] tells whether a path exists,
    [strip] removes the spaces at both ends, [int] reads decimal digits. *)
Fixpoint lstrip (s : string) : string :=
  match s with
  | String " " t => lstrip t
  | _ => s
  end.

Fixpoint digits (s : string) (acc : Z) : option Z :=
  match s with
  | EmptyString => Some acc
  | String c t =>
      let n := Z.of_nat (nat_of_ascii c) in
      if (48 <=? n) && (n <=? 57) then digits t (10 * acc + (n - 48)) else None
  end.

Definition sample_builtins (present : bool) : Builtins :=
  {| os_path_exists := λ _, present;
     str_strip := λ s, String.rev (lstrip (String.rev (lstrip s)));
     int_of_str := λ s,
       match s with
       | EmptyString => inl "invalid literal"
       | _ => match digits s 0 with Some k => inr k | None => inl "invalid literal" end
       end |}.

Definition sample_args (selection : option string) (check : bool) : Args.t :=
  {| Args.demarches := selection; Args.force := false; Args.validate_only := check;
     Args.dry_run := false; Args.config := "config.json"; Args.debug := false |}.

(** * Proofs *)

Local Open Scope py_scope.

(** ** The resolver *)

Lemma mem_cons c d t : Str.mem c (String d t) = Ascii.eqb c d || Str.mem c t.
Proof. reflexivity. Qed.

Lemma run_to_brace_cons c t :
  Re.run_to_brace (String c t) =
  if Ascii.eqb c "}" then Some EmptyString else String c <$> Re.run_to_brace t.
Proof. reflexivity. Qed.

Lemma app_cons c s t : String c s +:+ t = String c (s +:+ t).
Proof. reflexivity. Qed.

Lemma app_assoc' (a b c : string) : (a +:+ b) +:+ c = a +:+ b +:+ c.
Proof. induction a as [|x a IH]; [done|]. rewrite !app_cons. by rewrite IH. Qed.

Lemma placeholder_app name post :
  placeholder name +:+ post = String "$" (String "{" (name +:+ "}" +:+ post)).
Proof. unfold placeholder. by rewrite !app_assoc'. Qed.

Lemma run_to_brace_spec s name :
  Re.run_to_brace s = Some name →
  Str.mem "}" name = false ∧ ∃ post, s = name +:+ "}" +:+ post.
Proof.
  revert name. induction s as [|c t IH]; intros name; [done|].
  rewrite run_to_brace_cons.
  destruct (Ascii.eqb c "}") eqn:E.
  - intros [= <-]. split; [done|]. apply Ascii.eqb_eq in E as ->. by exists t.
  - destruct (Re.run_to_brace t) as [n|]; [|done].
    intros [= <-]. destruct (IH n eq_refl) as [Hm [post ->]].
    split; [|by exists post]. rewrite mem_cons, Ascii.eqb_sym, E. done.
Qed.

Lemma run_to_brace_app name post :
  Str.mem "}" name = false → Re.run_to_brace (name +:+ "}" +:+ post) = Some name.
Proof.
  induction name as [|c n IH]; [done|].
  rewrite mem_cons. intros H. apply orb_false_elim in H as [Hc Hn].
  rewrite app_cons, run_to_brace_cons, Ascii.eqb_sym, Hc. by rewrite IH.
Qed.

Lemma match_at_spec s name :
  Re.match_at s = Some name →
  valid_name name ∧ ∃ post, s = placeholder name +:+ post.
Proof.
  destruct s as [|c1 [|c2 t]]; [done..|]. unfold Re.match_at.
  destruct (Ascii.eqb c1 "$") eqn:E1; [|done].
  destruct (Ascii.eqb c2 "{") eqn:E2; [|done].
  apply Ascii.eqb_eq in E1 as ->. apply Ascii.eqb_eq in E2 as ->.
  cbn [andb]. destruct (Re.run_to_brace t) as [[|c n]|] eqn:R; [done| |done].
  intros [= <-]. apply run_to_brace_spec in R as [Hm [post ->]].
  split; [split; [discriminate | exact Hm]|]. exists post.
  by rewrite placeholder_app.
Qed.

Lemma match_at_placeholder name post :
  valid_name name → Re.match_at (placeholder name +:+ post) = Some name.
Proof.
  intros [Hne Hm]. rewrite placeholder_app.
  unfold Re.match_at. cbn [Ascii.eqb Bool.eqb andb].
  rewrite run_to_brace_app by done.
  by destruct name.
Qed.

Lemma sub_from_skip_all repl s : Re.sub_from repl (String.length s) s = "".
Proof. induction s; [done|]. by cbn. Qed.

Lemma sub_from_no_match repl s :
  (∀ pre rest, s = pre +:+ rest → Re.match_at rest = None) →
  Re.sub_from repl 0 s = s.
Proof.
  induction s as [|c t IH]; [done|]. intros H.
  cbn [Re.sub_from]. rewrite (H "" (String c t) eq_refl).
  f_equal. apply IH. intros pre rest ->. by apply (H (String c pre)).
Qed.

Lemma app_empty_r (s : string) : s +:+ "" = s.
Proof. induction s as [|c s IH]; [done|]. by rewrite app_cons, IH. Qed.

Lemma length_app' (a b : string) :
  String.length (a +:+ b) = (String.length a + String.length b)%nat.
Proof. induction a as [|c a IH]; [done|]. rewrite app_cons. cbn. by rewrite IH. Qed.

Lemma sub_from_match repl c t name :
  Re.match_at (String c t) = Some name →
  Re.sub_from repl 0 (String c t) =
  repl name +:+ Re.sub_from repl (2 + String.length name) t.
Proof.
  intros H.
  change (Re.sub_from repl 0 (String c t)) with
    (match Re.match_at (String c t) with
     | Some name => repl name +:+ Re.sub_from repl (2 + String.length name) t
     | None => String c (Re.sub_from repl 0 t)
     end).
  by rewrite H.
Qed.

Lemma resolve_placeholder env N :
  valid_name N → resolve_str env (placeholder N) = replace_var env N.
Proof.
  intros HN. unfold resolve_str, Re.sub.
  pose proof (match_at_placeholder N "" HN) as Hm.
  rewrite placeholder_app in Hm.
  change (placeholder N) with (String "$" (String "{" (N +:+ "}"))).
  change ("}" +:+ "") with "}" in Hm.
  rewrite (sub_from_match _ _ _ _ Hm).
  replace (2 + String.length N)%nat with (String.length (String "{" (N +:+ "}"))).
  - by rewrite sub_from_skip_all, app_empty_r.
  - cbn [String.length]. rewrite length_app'. cbn. lia.
Qed.

Lemma contains_cons sub c t :
  Str.contains sub (String c t) = Str.startswith sub (String c t) || Str.contains sub t.
Proof. reflexivity. Qed.

Lemma contains_app sub pre post :
  Str.contains sub post = true → Str.contains sub (pre +:+ post) = true.
Proof.
  intros H. induction pre as [|c pre IH]; [done|].
  rewrite app_cons, contains_cons, IH. apply orb_true_r.
Qed.

Lemma occurs_has_marker S : occurs_placeholder S → Str.contains "${" S = true.
Proof.
  intros (pre & N & post & _ & ->). apply contains_app.
  rewrite placeholder_app. reflexivity.
Qed.

Lemma resolve_str_unmatched env S :
  ¬ occurs_placeholder S → resolve_str env S = S.
Proof.
  intros Hno. apply sub_from_no_match. intros pre rest ->.
  destruct (Re.match_at rest) as [name|] eqn:E; [|done].
  destruct Hno. apply match_at_spec in E as [Hv [post ->]].
  by exists pre, name, post.
Qed.

(** Claim C8.  The resolver leaves a string with no occurrence of the
    pattern as it is.  For a name [N] (non-empty, without a closing brace)
    that the environment does not bind, it leaves the placeholder of [N] as it
    is, and resolving the result again changes nothing.  For a name bound to
    [V] it turns the placeholder of [N] into [V]. *)
Theorem resolve_str_placeholders (env : gmap string string) :
  (∀ S, ¬ occurs_placeholder S → resolve_str env S = S) ∧
  (∀ N, valid_name N → env !! N = None →
     resolve_str env (placeholder N) = placeholder N ∧
     resolve_str env (resolve_str env (placeholder N)) = resolve_str env (placeholder N)) ∧
  (∀ N V, valid_name N → env !! N = Some V → resolve_str env (placeholder N) = V).
Proof.
  split; [apply resolve_str_unmatched|]. split.
  - intros N HN Habs.
    assert (resolve_str env (placeholder N) = placeholder N) as E.
    { rewrite resolve_placeholder by done. unfold replace_var. by rewrite Habs. }
    by rewrite !E.
  - intros N V HN Hin. rewrite resolve_placeholder by done.
    unfold replace_var. by rewrite Hin.
Qed.

Lemma resolve_str_without_marker env S :
  Str.contains "${" S = false → resolve_str env S = S.
Proof.
  intros H. apply resolve_str_unmatched. intros Ho.
  apply occurs_has_marker in Ho. congruence.
Qed.

Lemma resolve_str_placeholders_witness :
  resolve_str (<["HOME" := "/root"]> ∅) "no placeholder $ { } here" = "no placeholder $ { } here" ∧
  resolve_str (<["HOME" := "/root"]> ∅) (placeholder "TOKEN") = placeholder "TOKEN" ∧
  resolve_str (<["HOME" := "/root"]> ∅) (placeholder "HOME") = "/root".
Proof.
  destruct (resolve_str_placeholders (<["HOME" := "/root"]> ∅)) as (H1 & H2 & H3).
  split; [|split].
  - apply H1. intros Hoccurs%occurs_has_marker. vm_compute in Hoccurs. discriminate Hoccurs.
  - apply H2; [split; [discriminate | reflexivity] | reflexivity].
  - apply H3; [split; [discriminate | reflexivity] | reflexivity].
Defined.

Example resolve_demo :
  resolve_str (<["A" := "v"]> ∅) "x${A}y${B}z${}${A" = "xvy${B}z${}${A".
Proof. vm_compute. reflexivity. Qed.

Lemma resolve_list_unfold env items :
  _resolve_dict_env_vars env (JList items) = JList (_resolve_dict_env_vars env <$> items).
Proof. reflexivity. Qed.

Lemma resolve_dict_unfold env fields :
  _resolve_dict_env_vars env (JDict fields) = JDict (resolve_field env <$> fields).
Proof.
  cbn [_resolve_dict_env_vars]. f_equal. apply map_ext. by intros [k v].
Qed.

Lemma resolve_dict_keys env fields : (resolve_field env <$> fields).*1 = fields.*1.
Proof. induction fields as [|[k v] l IH]; [done|]. cbn. by rewrite IH. Qed.

Lemma resolve_dict_resolved env data : resolved env data (_resolve_dict_env_vars env data).
Proof.
  induction data as [| | | |items IH|fields IH] using json_nested_ind;
    [constructor..| |].
  - rewrite resolve_list_unfold. constructor.
    apply Forall2_fmap_r, Forall_Forall2_diag, IH.
  - rewrite resolve_dict_unfold. constructor.
    apply Forall2_fmap_r, Forall_Forall2_diag.
    eapply Forall_impl; [exact IH|]. by intros [k v].
Qed.

(** ** The resolver at the interpreter *)

Section Interpreted.

Variable limits : Interpreter.Limits.
Variable env : gmap string string.

Lemma interpreted_replace_var name :
  encodable limits name →
  Interpreter.replace_var limits env name = inr (replace_var env name).
Proof.
  unfold encodable, Interpreter.replace_var, Interpreter.getenv. by intros ->.
Qed.

Lemma interpreted_replace_var_raises name msg :
  Interpreter.getenv_error limits name = Some msg →
  Interpreter.replace_var limits env name = inl (Interpreter.UnicodeEncodeError msg).
Proof. unfold Interpreter.replace_var, Interpreter.getenv. by intros ->. Qed.

(** Each look-up either returns what the resolver puts in, or raises. *)
Lemma interpreted_replace_var_cases name :
  (encodable limits name ∧
   Interpreter.replace_var limits env name = inr (replace_var env name))
  ∨ (∃ msg, Interpreter.getenv_error limits name = Some msg ∧
            Interpreter.replace_var limits env name
            = inl (Interpreter.UnicodeEncodeError msg)).
Proof.
  destruct (Interpreter.getenv_error limits name) as [msg|] eqn:E.
  - right. exists msg. split; [done|]. by apply interpreted_replace_var_raises.
  - left. split; [done|]. by apply interpreted_replace_var.
Qed.

Lemma sub_from_encodable skip s :
  Forall (encodable limits) (names_from skip s) →
  Interpreter.sub_from (Interpreter.replace_var limits env) skip s
  = inr (Re.sub_from (replace_var env) skip s).
Proof.
  revert skip. induction s as [|c t IH]; intros skip H; [done|].
  cbn [Interpreter.sub_from Re.sub_from names_from] in *.
  destruct skip as [|k]; [|by apply IH].
  destruct (Re.match_at (String c t)) as [name|].
  - apply Forall_cons in H as [Hn H].
    rewrite (interpreted_replace_var name Hn), (IH _ H). done.
  - by rewrite (IH _ H).
Qed.

Lemma sub_from_outcome skip s :
  match Interpreter.sub_from (Interpreter.replace_var limits env) skip s with
  | inr r => r = Re.sub_from (replace_var env) skip s ∧
             Forall (encodable limits) (names_from skip s)
  | inl e => ∃ name msg, name ∈ names_from skip s ∧
                         Interpreter.getenv_error limits name = Some msg ∧
                         e = Interpreter.UnicodeEncodeError msg
  end.
Proof.
  revert skip. induction s as [|c t IH]; intros skip; [done|].
  cbn [Interpreter.sub_from Re.sub_from names_from].
  destruct skip as [|k]; [|apply IH].
  destruct (Re.match_at (String c t)) as [name|].
  - destruct (interpreted_replace_var_cases name) as [[Hn ->]|(msg & Hm & ->)].
    + specialize (IH (2 + String.length name)%nat).
      destruct (Interpreter.sub_from _ _ t) as [e|r].
      * destruct IH as (n & m & Hin & Hm & ->). exists n, m.
        split; [by apply list_elem_of_further|done].
      * destruct IH as [-> HF]. split; [done|]. by constructor.
    + exists name, msg. split; [apply list_elem_of_here|done].
  - specialize (IH O). destruct (Interpreter.sub_from _ _ t) as [e|r]; [done|].
    by destruct IH as [-> HF].
Qed.

(** What a call of the method on a string makes of it. *)
Lemma interpreted_string_outcome s :
  match Interpreter._resolve_env_vars limits env (JStr s) with
  | inr r => r = JStr (resolve_str env s) ∧ Forall (encodable limits) (names_from O s)
  | inl e => ∃ name msg, name ∈ names_from O s ∧
                         Interpreter.getenv_error limits name = Some msg ∧
                         e = Interpreter.UnicodeEncodeError msg
  end.
Proof.
  unfold Interpreter._resolve_env_vars. pose proof (sub_from_outcome O s) as H.
  destruct (Interpreter.sub_from _ _ s) as [e|r]; [done|]. by destruct H as [-> ?].
Qed.

(** The method, one call unfolded. *)
Lemma interpreted_unfold data under compiled :
  Interpreter._resolve_dict_env_vars limits env data (S under) compiled =
  match data with
  | JDict fields =>
      if (under <? Interpreter.comprehension_frames limits)%nat
      then inl Interpreter.RecursionError
      else
        match
          Interpreter.comprehension
            (λ kv compiled,
               match Interpreter._resolve_dict_env_vars limits env kv.2
                       (under - Interpreter.comprehension_frames limits) compiled with
               | inl e => inl e
               | inr (value, compiled') => inr ((kv.1, value), compiled')
               end) fields compiled
        with
        | inl e => inl e
        | inr (fields', compiled') => inr (JDict fields', compiled')
        end
  | JList items =>
      if (under <? Interpreter.comprehension_frames limits)%nat
      then inl Interpreter.RecursionError
      else
        match
          Interpreter.comprehension
            (λ item, Interpreter._resolve_dict_env_vars limits env item
                       (under - Interpreter.comprehension_frames limits)) items compiled
        with
        | inl e => inl e
        | inr (items', compiled') => inr (JList items', compiled')
        end
  | JStr s =>
      if (under <? Interpreter.string_frames limits compiled s)%nat
      then inl Interpreter.RecursionError
      else
        match Interpreter._resolve_env_vars limits env (JStr s) with
        | inl e => inl e
        | inr resolved => inr (resolved, true)
        end
  | _ => inr (data, compiled)
  end.
Proof. by destruct data. Qed.

(** A call that returns yields the value of the resolver, and has looked up
    names that can be encoded only; a call that raises has met one of the two
    failures. *)
Lemma interpreted_outcome data frames compiled :
  match Interpreter._resolve_dict_env_vars limits env data frames compiled with
  | inr (r, _) => r = _resolve_dict_env_vars env data ∧
                  Forall (encodable limits) (lookups data)
  | inl e => interpreter_failure limits data e
  end.
Proof.
  revert frames compiled.
  induction data as [| | |s|items IH|fields IH] using json_nested_ind;
    intros [|under] compiled; try (by left); rewrite interpreted_unfold; try done.
  - destruct (under <? _)%nat; [by left|].
    pose proof (interpreted_string_outcome s) as H.
    destruct (Interpreter._resolve_env_vars limits env (JStr s)) as [e|r]; [by right|done].
  - destruct (under <? _)%nat; [by left|].
    set (f := λ item, Interpreter._resolve_dict_env_vars limits env item _).
    assert (match Interpreter.comprehension f items compiled with
            | inr (rs, _) => rs = _resolve_dict_env_vars env <$> items ∧
                             Forall (encodable limits) (concat (map lookups items))
            | inl e => interpreter_failure limits (JList items) e
            end) as H.
    { clear -IH. revert compiled. induction IH as [|x xs Hx _ IHxs]; intros compiled; [done|].
      cbn [Interpreter.comprehension]. specialize (Hx (under - Interpreter.comprehension_frames limits)%nat compiled).
      fold (f x compiled) in Hx. destruct (f x compiled) as [e|[y c1]].
      - destruct Hx as [->|(n & m & Hin & Hm & ->)]; [by left|].
        right. exists n, m. split; [|done]. cbn [lookups map concat].
        apply elem_of_app. by left.
      - destruct Hx as [-> Hx]. specialize (IHxs c1).
        destruct (Interpreter.comprehension f xs c1) as [e|[ys c2]].
        + destruct IHxs as [->|(n & m & Hin & Hm & ->)]; [by left|].
          right. exists n, m. split; [|done]. cbn [lookups map concat] in *.
          apply elem_of_app. by right.
        + destruct IHxs as [-> HF]. split; [done|]. cbn [map concat].
          apply Forall_app. done. }
    destruct (Interpreter.comprehension f items compiled) as [e|[rs c]]; [done|].
    destruct H as [-> HF]. done.
  - destruct (under <? _)%nat; [by left|].
    set (f := λ (kv : string * json) (compiled : bool), match _ with inl e => _ | inr _ => _ end).
    assert (match Interpreter.comprehension f fields compiled with
            | inr (rs, _) => rs = resolve_field env <$> fields ∧
                             Forall (encodable limits)
                               (concat (map (λ kv, lookups kv.2) fields))
            | inl e => interpreter_failure limits (JDict fields) e
            end) as H.
    { clear -IH. revert compiled. induction IH as [|x xs Hx _ IHxs]; intros compiled; [done|].
      cbn [Interpreter.comprehension]. unfold f at 1.
      specialize (Hx (under - Interpreter.comprehension_frames limits)%nat compiled).
      destruct (Interpreter._resolve_dict_env_vars limits env x.2 _ compiled) as [e|[y c1]].
      - destruct Hx as [->|(n & m & Hin & Hm & ->)]; [by left|].
        right. exists n, m. split; [|done]. cbn [lookups map concat].
        apply elem_of_app. by left.
      - destruct Hx as [-> Hx]. specialize (IHxs c1).
        destruct (Interpreter.comprehension f xs c1) as [e|[ys c2]].
        + destruct IHxs as [->|(n & m & Hin & Hm & ->)]; [by left|].
          right. exists n, m. split; [|done]. cbn [lookups map concat] in *.
          apply elem_of_app. by right.
        + destruct IHxs as [-> HF]. split; [done|]. cbn [map concat].
          apply Forall_app. done. }
    destruct (Interpreter.comprehension f fields compiled) as [e|[rs c]]; [done|].
    destruct H as [-> HF]. by rewrite resolve_dict_unfold.
Qed.

Lemma enough_for_all {A} (Q : A → nat → Prop) (xs : list A) :
  (∀ x n m, Q x n → (n ≤ m)%nat → Q x m) →
  Forall (λ x, ∃ n, Q x n) xs → ∃ n, Forall (λ x, Q x n) xs.
Proof.
  intros Hmono. induction 1 as [|x xs [n Hn] _ [m Hm]]; [by exists O|].
  exists (n `max` m)%nat. constructor.
  - apply (Hmono x n); [done|lia].
  - eapply Forall_impl; [exact Hm|]. intros y Hy. apply (Hmono y m); [done|lia].
Qed.

Lemma comprehension_no_recursion_error {A B} (f : A → bool → exn + (B * bool)) xs compiled :
  Forall (λ x, ∀ compiled, f x compiled ≠ inl Interpreter.RecursionError) xs →
  Interpreter.comprehension f xs compiled ≠ inl Interpreter.RecursionError.
Proof.
  intros H. revert compiled. induction H as [|x xs Hx _ IH]; intros compiled; [done|].
  cbn [Interpreter.comprehension]. specialize (Hx compiled).
  destruct (f x compiled) as [e|[y c1]]; [congruence|].
  specialize (IH c1). destruct (Interpreter.comprehension f xs c1) as [e|[ys c2]]; congruence.
Qed.

(** With frames enough, the stack is not what fails. *)
Lemma interpreted_enough data :
  ∃ enough, ∀ frames compiled, (enough ≤ frames)%nat →
    Interpreter._resolve_dict_env_vars limits env data frames compiled
    ≠ inl Interpreter.RecursionError.
Proof.
  induction data as [| | |s|items IH|fields IH] using json_nested_ind;
    try (exists 1%nat; intros [|under] compiled Hf; [lia|done]).
  - exists (S (Interpreter.string_frames limits true s
               `max` Interpreter.string_frames limits false s))%nat.
    intros [|under] compiled Hf; [lia|]. rewrite interpreted_unfold.
    destruct (Nat.ltb_spec under (Interpreter.string_frames limits compiled s)) as [Hlt|_].
    { destruct compiled; lia. }
    pose proof (interpreted_string_outcome s) as H.
    destruct (Interpreter._resolve_env_vars limits env (JStr s)) as [e|r]; [|done].
    by destruct H as (n & m & _ & _ & ->).
  - apply enough_for_all in IH as [n Hn].
    2:{ intros x a b H Hab frames compiled Hf. apply H. lia. }
    exists (S (Interpreter.comprehension_frames limits + n))%nat.
    intros [|under] compiled Hf; [lia|]. rewrite interpreted_unfold.
    destruct (Nat.ltb_spec under (Interpreter.comprehension_frames limits)) as [Hlt|_]; [lia|].
    match goal with
    | |- match Interpreter.comprehension ?f _ _ with _ => _ end ≠ _ =>
        pose proof (comprehension_no_recursion_error f items compiled) as H
    end.
    destruct (Interpreter.comprehension _ items compiled) as [e|[rs c]]; [|done].
    intros [= ->]. apply H; [|done].
    eapply Forall_impl; [exact Hn|]. intros x Hx c. apply Hx. lia.
  - apply enough_for_all in IH as [n Hn].
    2:{ intros x a b H Hab frames compiled Hf. apply H. lia. }
    exists (S (Interpreter.comprehension_frames limits + n))%nat.
    intros [|under] compiled Hf; [lia|]. rewrite interpreted_unfold.
    destruct (Nat.ltb_spec under (Interpreter.comprehension_frames limits)) as [Hlt|_]; [lia|].
    match goal with
    | |- match Interpreter.comprehension ?f _ _ with _ => _ end ≠ _ =>
        pose proof (comprehension_no_recursion_error f fields compiled) as H
    end.
    destruct (Interpreter.comprehension _ fields compiled) as [e|[rs c]]; [|done].
    intros [= ->]. apply H; [|done].
    eapply Forall_impl; [exact Hn|]. intros x Hx c. cbn beta.
    specialize (Hx (under - Interpreter.comprehension_frames limits)%nat c).
    destruct (Interpreter._resolve_dict_env_vars limits env x.2 _ c) as [e|[v c1]]; [|done].
    intros [= ->]. apply Hx; [lia|done].
Qed.

Lemma interpreted_nest depth frames compiled :
  (frames ≤ depth)%nat →
  Interpreter._resolve_dict_env_vars limits env (nest depth) frames compiled
  = inl Interpreter.RecursionError.
Proof.
  revert frames compiled. induction depth as [|n IH]; intros [|under] compiled Hf;
    try done; try lia.
  cbn [nest]. rewrite interpreted_unfold.
  destruct (under <? _)%nat; [done|]. cbn [Interpreter.comprehension].
  rewrite IH by lia. done.
Qed.

End Interpreted.

(** Claim C9, amended.  The recursive resolver resolves a list item by item
    and a mapping value by value, keeps the keys of a mapping, resolves a
    string, and returns null, booleans and integers as they are: the value
    that the contract describes ([resolved]), for every environment.  It
    raises nothing of its own, and a call of it can fail in two ways only.
    [os.getenv] raises [UnicodeEncodeError] for a name that it cannot encode,
    and the interpreter raises [RecursionError] when the stack has no frame
    left.  A call that returns yields that value.  When every name that is
    looked up can be encoded, the call returns from some number of frames on;
    when one cannot, it raises the error of [os.getenv] from some number of
    frames on; and whatever the frames, a list nested as deep as there are
    frames raises [RecursionError]. *)
Theorem resolve_dict_outcomes (env : gmap string string) :
  (∀ items, _resolve_dict_env_vars env (JList items)
            = JList (_resolve_dict_env_vars env <$> items)) ∧
  (∀ fields, ∃ fields',
     _resolve_dict_env_vars env (JDict fields) = JDict fields' ∧
     fields'.*1 = fields.*1 ∧
     fields'.*2 = _resolve_dict_env_vars env <$> fields.*2) ∧
  (∀ s, _resolve_dict_env_vars env (JStr s) = JStr (resolve_str env s)) ∧
  _resolve_dict_env_vars env JNull = JNull ∧
  (∀ b, _resolve_dict_env_vars env (JBool b) = JBool b) ∧
  (∀ n, _resolve_dict_env_vars env (JInt n) = JInt n) ∧
  (∀ data, resolved env data (_resolve_dict_env_vars env data)) ∧
  (∀ limits data frames compiled r compiled',
     Interpreter._resolve_dict_env_vars limits env data frames compiled
     = inr (r, compiled') →
     r = _resolve_dict_env_vars env data) ∧
  (∀ limits data frames compiled e,
     Interpreter._resolve_dict_env_vars limits env data frames compiled = inl e →
     interpreter_failure limits data e) ∧
  (∀ limits data,
     Forall (encodable limits) (lookups data) →
     ∃ enough, ∀ frames compiled, (enough ≤ frames)%nat →
       ∃ compiled',
         Interpreter._resolve_dict_env_vars limits env data frames compiled
         = inr (_resolve_dict_env_vars env data, compiled')) ∧
  (∀ limits data,
     ¬ Forall (encodable limits) (lookups data) →
     ∃ enough, ∀ frames compiled, (enough ≤ frames)%nat →
       ∃ name msg,
         name ∈ lookups data ∧
         Interpreter.getenv_error limits name = Some msg ∧
         Interpreter._resolve_dict_env_vars limits env data frames compiled
         = inl (Interpreter.UnicodeEncodeError msg)) ∧
  (∀ limits depth frames compiled,
     (frames ≤ depth)%nat →
     Interpreter._resolve_dict_env_vars limits env (nest depth) frames compiled
     = inl Interpreter.RecursionError).
Proof.
  split; [done|]. split.
  { intros fields. exists (resolve_field env <$> fields).
    split; [apply resolve_dict_unfold|]. split; [apply resolve_dict_keys|].
    induction fields as [|[k v] l IH]; [done|]. cbn. by rewrite IH. }
  do 4 (split; [done|]). split; [apply resolve_dict_resolved|].
  split; [|split; [|split; [|split]]].
  - intros limits data frames compiled r c' H.
    pose proof (interpreted_outcome limits env data frames compiled) as Ho.
    rewrite H in Ho. by destruct Ho.
  - intros limits data frames compiled e H.
    pose proof (interpreted_outcome limits env data frames compiled) as Ho.
    by rewrite H in Ho.
  - intros limits data Hall.
    destruct (interpreted_enough limits env data) as [enough He].
    exists enough. intros frames compiled Hf. specialize (He frames compiled Hf).
    pose proof (interpreted_outcome limits env data frames compiled) as Ho.
    destruct (Interpreter._resolve_dict_env_vars limits env data frames compiled)
      as [e|[r c']].
    + destruct Ho as [->|(name & msg & Hin & Hm & _)]; [done|].
      apply (proj1 (Forall_forall _ _) Hall) in Hin. unfold encodable in Hin. congruence.
    + destruct Ho as [-> _]. by exists c'.
  - intros limits data Hsome.
    destruct (interpreted_enough limits env data) as [enough He].
    exists enough. intros frames compiled Hf. specialize (He frames compiled Hf).
    pose proof (interpreted_outcome limits env data frames compiled) as Ho.
    destruct (Interpreter._resolve_dict_env_vars limits env data frames compiled)
      as [e|[r c']].
    + destruct Ho as [->|(name & msg & Hin & Hm & ->)]; [done|]. by exists name, msg.
    + by destruct Ho as [_ Hall].
  - intros limits. apply interpreted_nest.
Qed.


(** ** Reasoning about computations *)

Section Lemmas.
Context {A B : Type}.

Lemma bind_returns (m : M A) (k : A → M B) w b w2 :
  bind m k w = Returns b w2 ↔ ∃ a w1, m w = Returns a w1 ∧ k a w1 = Returns b w2.
Proof.
  unfold bind. destruct (m w) as [a w1|e w1]; split.
  - intros H. by exists a, w1.
  - by intros (? & ? & [= <- <-] & H).
  - done.
  - by intros (? & ? & [=] & _).
Qed.

Lemma bind_raises (m : M A) (k : A → M B) w e w2 :
  bind m k w = Raises e w2 ↔
  m w = Raises e w2 ∨ ∃ a w1, m w = Returns a w1 ∧ k a w1 = Raises e w2.
Proof.
  unfold bind. destruct (m w) as [a w1|e1 w1]; split.
  - intros H. right. by exists a, w1.
  - by intros [[=]|(? & ? & [= <- <-] & H)].
  - intros [= <- <-]. by left.
  - by intros [[= <- <-]|(? & ? & [=] & _)].
Qed.

Lemma bind_step (m : M A) (k : A → M B) w a w1 :
  m w = Returns a w1 → bind m k w = k a w1.
Proof. unfold bind. by intros ->. Qed.

Lemma keeps_environ_bind (m : M A) (k : A → M B) :
  keeps_environ m → (∀ a, keeps_environ (k a)) → keeps_environ (bind m k).
Proof.
  intros Hm Hk w. unfold bind. specialize (Hm w).
  destruct (m w) as [a w1|e w1]; [|done]. cbn in Hm. by rewrite Hk.
Qed.

Lemma uniform_bind (m : M A) (k : A → M B) :
  uniform m → (∀ a, uniform (k a)) → uniform (bind m k).
Proof.
  intros Hm Hk w1 w2. unfold bind. specialize (Hm w1 w2).
  destruct (m w1), (m w2); cbn in Hm; try done. subst. apply Hk.
Qed.

Lemma keeps_environ_try (m : M A) (h : exn → M A) :
  keeps_environ m → (∀ e, keeps_environ (h e)) → keeps_environ (try_except m h).
Proof.
  intros Hm Hh w. unfold try_except. specialize (Hm w).
  destruct (m w) as [a w1|e w1]; [done|]. cbn in Hm. by rewrite Hh.
Qed.

End Lemmas.

Lemma keeps_environ_ret {A} (a : A) : keeps_environ (ret a).
Proof. done. Qed.
Lemma keeps_environ_raise {A} e : keeps_environ (@raise A e).
Proof. done. Qed.
Lemma keeps_environ_emit ev : keeps_environ (emit ev).
Proof. done. Qed.
Lemma keeps_environ_print m : keeps_environ (print m).
Proof. done. Qed.
Lemma keeps_environ_ask {A} (f : World → A) : keeps_environ (ask f).
Proof. done. Qed.
Lemma keeps_environ_getitem key v : keeps_environ (getitem key v).
Proof. intros w. destruct v; try done. cbn. by destruct (dict_get key fields). Qed.
Lemma keeps_environ_get key dflt v : keeps_environ (get key dflt v).
Proof. intros w. by destruct v. Qed.
Lemma keeps_environ_for_each {A} (xs : list A) body :
  (∀ x, keeps_environ (body x)) → keeps_environ (for_each xs body).
Proof.
  intros H. induction xs as [|x xs IH]; [done|].
  cbn [for_each]. apply keeps_environ_bind; auto.
Qed.

Create HintDb keeps.
#[local] Hint Resolve keeps_environ_ret keeps_environ_raise keeps_environ_emit
  keeps_environ_print keeps_environ_ask keeps_environ_getitem keeps_environ_get
  keeps_environ_for_each : keeps.
#[local] Hint Extern 2 (keeps_environ (bind _ _)) =>
  apply keeps_environ_bind; [|intros] : keeps.
#[local] Hint Extern 2 (keeps_environ (try_except _ _)) =>
  apply keeps_environ_try; [|intros] : keeps.
#[local] Hint Extern 3 (keeps_environ (match ?x with _ => _ end)) =>
  destruct x : keeps.

Lemma uniform_ret {A} (a : A) : uniform (ret a).
Proof. done. Qed.
Lemma uniform_raise {A} e : uniform (@raise A e).
Proof. done. Qed.
Lemma uniform_emit ev : uniform (emit ev).
Proof. done. Qed.
Lemma uniform_print m : uniform (print m).
Proof. done. Qed.
Lemma uniform_setenv key v : uniform (setenv key v).
Proof. intros w1 w2. unfold setenv. destruct v; try done. by destruct (Str.mem _ _). Qed.
Lemma uniform_getitem key v : uniform (getitem key v).
Proof. intros w1 w2. destruct v; try done. cbn. by destruct (dict_get key fields). Qed.
Lemma uniform_get key dflt v : uniform (get key dflt v).
Proof. intros w1 w2. by destruct v. Qed.
Lemma uniform_iterate v : uniform (iterate v).
Proof. intros w1 w2. by destruct v. Qed.
Lemma uniform_for_each {A} (xs : list A) body :
  (∀ x, uniform (body x)) → uniform (for_each xs body).
Proof.
  intros H. induction xs as [|x xs IH]; [done|].
  cbn [for_each]. apply uniform_bind; auto.
Qed.
Lemma uniform_expect_strs i items : uniform (expect_strs i items).
Proof.
  revert i. induction items as [|v items IH]; intros i; [done|].
  destruct v; try done. cbn [expect_strs]. apply uniform_bind; [apply IH|done].
Qed.

Create HintDb uniform.
#[local] Hint Resolve uniform_ret uniform_raise uniform_emit uniform_print
  uniform_setenv uniform_getitem uniform_get uniform_iterate uniform_for_each
  uniform_expect_strs : uniform.
#[local] Hint Extern 2 (uniform (bind _ _)) =>
  apply uniform_bind; [|intros] : uniform.
#[local] Hint Extern 3 (uniform (match ?x with _ => _ end)) =>
  destruct x : uniform.
#[local] Hint Extern 3 (uniform (if ?x then _ else _)) =>
  destruct x : uniform.

Lemma uniform_join_value sep v : uniform (join_value sep v).
Proof. unfold join_value. destruct v; eauto 10 with uniform. Qed.
#[local] Hint Resolve uniform_join_value : uniform.

Lemma uniform_load_dotenv os b : uniform (load_dotenv os b).
Proof. done. Qed.
#[local] Hint Resolve uniform_load_dotenv : uniform.

Lemma uniform_get_grist_config self : uniform (get_grist_config self).
Proof. unfold get_grist_config. eauto 10 with uniform. Qed.

Lemma uniform_refresh_modules os d : uniform (refresh_modules os d).
Proof. unfold refresh_modules. eauto 10 with uniform. Qed.
#[local] Hint Resolve uniform_get_grist_config uniform_refresh_modules : uniform.

Lemma uniform_stage_context os self d n : uniform (stage_context os self d n).
Proof. unfold stage_context. eauto 50 with uniform. Qed.

(** ** The stager *)

Lemma keeps_returns {A} (m : M A) w a w' :
  keeps_environ m → m w = Returns a w' → environ w' = environ w.
Proof. intros H E. specialize (H w). by rewrite E in H. Qed.

Lemma setenv_returns key v w u w' :
  setenv key v w = Returns u w' →
  v = JStr (str_of v) ∧ environ w' = <[key := str_of v]> (environ w).
Proof.
  unfold setenv. destruct v; try done. cbn. destruct (Str.mem _ _); [done|].
  by intros [= <- <-].
Qed.

Lemma get_returns key dflt v w x w' :
  get key dflt v w = Returns x w' → x = field key dflt v ∧ w' = w.
Proof. destruct v; try done. by intros [= <- <-]. Qed.

Lemma getitem_returns key v w x w' :
  getitem key v w = Returns x w' → ∃ fields, v = JDict fields ∧ dict_get key fields = Some x ∧ w' = w.
Proof.
  destruct v; try done. cbn. destruct (dict_get key fields) eqn:E; [|done].
  intros [= <- <-]. eauto.
Qed.

Lemma getitem_field key v w x w' dflt :
  getitem key v w = Returns x w' → x = field key dflt v ∧ w' = w.
Proof.
  intros (f & -> & E & ->)%getitem_returns. split; [|done].
  cbn. unfold dict_get_d. by rewrite E.
Qed.

Lemma iterate_returns v w items w' :
  iterate v w = Returns items w' → items = items_of v ∧ w' = w.
Proof. destruct v; try done; by intros [= <- <-]. Qed.

Lemma expect_strs_returns i items w ss w' :
  expect_strs i items w = Returns ss w' → ss = str_of <$> items ∧ w' = w.
Proof.
  revert i ss. induction items as [|v items IH]; intros i ss.
  - by intros [= <- <-].
  - destruct v; try done. cbn [expect_strs].
    intros (ss' & w1 & H1 & [= <- <-])%bind_returns.
    apply IH in H1 as [-> ->]. done.
Qed.

Lemma join_value_returns sep v w joined w' :
  join_value sep v w = Returns joined w' →
  joined = Str.join sep (str_of <$> items_of v) ∧ w' = w.
Proof.
  unfold join_value. intros H.
  assert ((items <- iterate v ;; ss <- expect_strs 0 items ;; ret (Str.join sep ss)) w
          = Returns joined w') as H' by (by destruct v).
  clear H. apply bind_returns in H' as (items & w1 & H1 & H2).
  apply iterate_returns in H1 as [-> ->].
  apply bind_returns in H2 as (ss & w2 & H2 & [= <- <-]).
  apply expect_strs_returns in H2 as [-> ->]. done.
Qed.

Lemma keeps_environ_get_grist_config self : keeps_environ (get_grist_config self).
Proof.
  unfold get_grist_config. apply keeps_environ_bind; [auto with keeps|].
  intros g. destruct g; auto with keeps.
Qed.

Lemma get_grist_config_returns self w g w' :
  get_grist_config self w = Returns g w' →
  g = grist_block self ∧ environ w' = environ w.
Proof.
  intros H. split; [|by eapply keeps_returns, H; apply keeps_environ_get_grist_config].
  unfold get_grist_config in H.
  apply bind_returns in H as (x & w1 & H1 & H2).
  apply (getitem_field _ _ _ _ _ JNull) in H1 as [-> ->].
  unfold grist_block. destruct (field "grist" JNull (config self)); try done.
  by apply bind_returns in H2 as (? & ? & _ & [= <- <-]).
Qed.

Lemma keeps_environ_refresh_modules os d : keeps_environ (refresh_modules os d).
Proof. unfold refresh_modules. destruct (has_queries_config os); auto with keeps. Qed.

Lemma load_dotenv_returns os b w u w' :
  load_dotenv os b w = Returns u w' →
  environ w' = dotenv_environ os b (environ w).
Proof. by intros [= <- <-]. Qed.

Lemma stage_context_environ os self d n w u w' :
  stage_context os self d n w = Returns u w' →
  environ w' = staged_environ os self d n (environ w).
Proof.
  unfold stage_context, staged_environ, job_credentials, job_settings, write.
  intros H. cbn [foldl fst snd].
  repeat match type of H with
  | bind (print _) _ _ = _ => apply bind_returns in H as (? & ? & [= <- <-] & H); cbn [environ] in *
  | bind (setenv _ _) _ _ = _ =>
      let E := fresh "E" in let W := fresh "W" in
      apply bind_returns in H as (? & ? & (E & W)%setenv_returns & H)
  | bind (get _ _ _) _ _ = _ => apply bind_returns in H as (? & ? & [-> ->]%get_returns & H)
  | bind (getitem ?k _) _ _ = _ =>
      apply bind_returns in H as (? & ? & [-> ->]%(getitem_field k _ _ _ _ JNull) & H)
  | bind (refresh_modules _ _) _ _ = _ =>
      let W := fresh "W" in
      apply bind_returns in H as (? & ? & W & H);
      apply (keeps_returns _ _ _ _ (keeps_environ_refresh_modules _ _)) in W
  | bind (load_dotenv _ _) _ _ = _ =>
      let W := fresh "W" in
      apply bind_returns in H as (? & ? & W%load_dotenv_returns & H)
  | bind (get_grist_config _) _ _ = _ =>
      let W := fresh "W" in
      apply bind_returns in H as (? & ? & [-> W]%get_grist_config_returns & H)
  | bind (join_value _ _) _ _ = _ => apply bind_returns in H as (? & ? & [-> ->]%join_value_returns & H)
  | bind (iterate _) _ _ = _ => apply bind_returns in H as (? & ? & [-> ->]%iterate_returns & H)
  end.
  injection H as <- <-. cbn [environ str_of] in *. congruence.
Qed.

Lemma write_cons e kv kvs : write e (kv :: kvs) = write (<[kv.1 := kv.2]> e) kvs.
Proof. reflexivity. Qed.

Lemma write_lookup_notin e kvs k : k ∉ kvs.*1 → write e kvs !! k = e !! k.
Proof.
  revert e. induction kvs as [|[k' v'] kvs IH]; intros e Hk; [done|].
  rewrite write_cons. cbn in Hk. apply not_elem_of_cons in Hk as [Hne Hk].
  rewrite IH by done. by apply lookup_insert_ne.
Qed.

Lemma write_lookup_in e kvs k v :
  NoDup kvs.*1 → (k, v) ∈ kvs → write e kvs !! k = Some v.
Proof.
  revert e. induction kvs as [|[k' v'] kvs IH]; intros e Hnd Hin.
  - by apply elem_of_nil in Hin.
  - rewrite write_cons. cbn in Hnd. apply NoDup_cons in Hnd as [Hk' Hnd].
    apply elem_of_cons in Hin as [[= -> ->]|Hin].
    + rewrite write_lookup_notin by done. apply lookup_insert_eq.
    + by apply IH.
Qed.

Lemma load_binding_lookup_ne b e0 e kv k :
  k ≠ kv.1 → load_binding b e0 e kv !! k = e !! k.
Proof.
  intros Hne. unfold load_binding.
  destruct (e0 !! kv.1); [destruct b|]; try done; by apply lookup_insert_ne.
Qed.

Lemma dotenv_lookup_notin b e0 e kvs k :
  k ∉ kvs.*1 → foldl (load_binding b e0) e kvs !! k = e !! k.
Proof.
  revert e. induction kvs as [|kv kvs IH]; intros e Hk; [done|].
  cbn in Hk. apply not_elem_of_cons in Hk as [Hne Hk].
  cbn [foldl]. rewrite IH by done. by apply load_binding_lookup_ne.
Qed.

Lemma dotenv_values_names os b e : (dotenv_values os b e).*1 = (dotenv_file os).*1.
Proof.
  unfold dotenv_values. rewrite <- list_fmap_compose. by apply list_fmap_ext.
Qed.

Lemma dotenv_environ_notin os b e k :
  k ∉ (dotenv_file os).*1 → dotenv_environ os b e !! k = e !! k.
Proof.
  intros Hk. unfold dotenv_environ. apply dotenv_lookup_notin.
  by rewrite dotenv_values_names.
Qed.

Lemma for_each_print_returns {A} (f : A → message) xs w :
  ∃ w', for_each xs (λ x, print (f x)) w = Returns tt w' ∧ environ w' = environ w.
Proof.
  revert w. induction xs as [|x xs IH]; intros w; [by eexists|].
  cbn [for_each]. unfold bind at 1. cbn.
  destruct (IH {| environ := environ w; log := Output (f x) :: log w |}) as (w' & E & Hw').
  by exists w'.
Qed.

(** The probe reports success whatever it meets, and writes nothing. *)
Lemma probe_access_returns os d n w :
  ∃ w', probe_access os d n w = Returns true w' ∧ environ w' = environ w.
Proof.
  unfold probe_access, try_except, bind at 1, ask. cbn.
  destruct (http_post os w (api_url d) (api_token d) n) as [|errs failure|status|text];
    try (by eexists).
  unfold bind at 1. cbn. unfold bind at 1.
  edestruct (for_each_print_returns WarnApiError errs) as (w1 & -> & E1).
  destruct failure; cbn; eexists; (split; [done|]); by rewrite E1.
Qed.

Lemma stageable_returns os self d n w :
  stageable os self d n = true → ∃ w', stage_context os self d n w = Returns tt w'.
Proof.
  unfold stageable. intros H.
  pose proof (uniform_stage_context os self d n w World0) as U.
  destruct (stage_context os self d n World0); [|done].
  destruct (stage_context os self d n w) as [[] w'|]; [|done]. by exists w'.
Qed.

Lemma unstageable_raises os self d n w :
  stageable os self d n = false → ∃ e w', stage_context os self d n w = Raises e w'.
Proof.
  unfold stageable. intros H.
  pose proof (uniform_stage_context os self d n w World0) as U.
  destruct (stage_context os self d n World0) as [|e0 w0]; [done|].
  destruct (stage_context os self d n w) as [|e w']; [done|]. by exists e, w'.
Qed.

Lemma returns_stageable os self d n w u w' :
  stage_context os self d n w = Returns u w' → stageable os self d n = true.
Proof.
  unfold stageable. intros H.
  pose proof (uniform_stage_context os self d n w World0) as U.
  rewrite H in U. by destruct (stage_context os self d n World0).
Qed.

Lemma set_environment_rejected os self n w :
  rejected self n = true →
  ∃ m, set_environment_for_demarche os self n w
       = Returns false {| environ := environ w; log := Output m :: log w |}.
Proof.
  unfold rejected, set_environment_for_demarche.
  destruct (get_demarche_config self n) as [d|]; [|by eexists].
  intros ->. by eexists.
Qed.

Lemma set_environment_accepted os self n d :
  get_demarche_config self n = Some d → token_invalid (api_token d) = false →
  set_environment_for_demarche os self n
  = (stage_context os self d n ;; probe_access os d n).
Proof. unfold set_environment_for_demarche. by intros -> ->. Qed.

Lemma set_environment_false os self n w w' :
  set_environment_for_demarche os self n w = Returns false w' → rejected self n = true.
Proof.
  unfold rejected. destruct (get_demarche_config self n) as [d|] eqn:E; [|done].
  destruct (token_invalid (api_token d)) eqn:T; [done|].
  rewrite (set_environment_accepted _ _ _ _ E T).
  intros (u & w1 & _ & H)%bind_returns.
  destruct (probe_access_returns os d n w1) as (w2 & H2 & _). congruence.
Qed.

Lemma set_environment_true os self n w w' :
  set_environment_for_demarche os self n w = Returns true w' →
  ∃ d, get_demarche_config self n = Some d ∧ token_invalid (api_token d) = false ∧
       stageable os self d n = true ∧
       environ w' = staged_environ os self d n (environ w).
Proof.
  intros H. destruct (rejected self n) eqn:R.
  { destruct (set_environment_rejected os self n w R) as [m E]. congruence. }
  unfold rejected in R. destruct (get_demarche_config self n) as [d|] eqn:E; [|done].
  exists d. rewrite (set_environment_accepted _ _ _ _ E R) in H.
  apply bind_returns in H as (u & w1 & H1 & H2).
  destruct (probe_access_returns os d n w1) as (w2 & H3 & E3).
  rewrite H3 in H2. injection H2 as <-.
  repeat split; try done.
  - by eapply returns_stageable.
  - rewrite E3. by eapply stage_context_environ.
Qed.

(** Claim C3, amended.  For a job found under the number [n] whose token is
    usable: when the writes of the stager complete ([stageable]) the call
    returns [True] whatever the probe meets, and when they do not the call
    raises, whatever the probe.  It returns [False] only when its first step
    fails ([rejected]). *)
Theorem staging_succeeds_whatever_probe (os : Platform) (self : Manager) (n : json)
    (post : World → json → string → json → probe_outcome) (w : World) :
  (∀ d, get_demarche_config self n = Some d →
        token_invalid (api_token d) = false →
        stageable os self d n = true →
        ∃ w', set_environment_for_demarche (with_http_post os post) self n w = Returns true w') ∧
  (∀ d, get_demarche_config self n = Some d →
        token_invalid (api_token d) = false →
        stageable os self d n = false →
        ∃ e w', set_environment_for_demarche (with_http_post os post) self n w = Raises e w') ∧
  (∀ w', set_environment_for_demarche (with_http_post os post) self n w = Returns false w' →
         rejected self n = true).
Proof.
  split; [|split; [|intros w'; apply set_environment_false]].
  - intros d E T S. rewrite (set_environment_accepted _ _ _ _ E T).
    destruct (stageable_returns (with_http_post os post) self d n w S) as [w1 H1].
    destruct (probe_access_returns (with_http_post os post) d n w1) as (w2 & H2 & _).
    exists w2. by rewrite (bind_step _ _ _ _ _ H1).
  - intros d E T S. rewrite (set_environment_accepted _ _ _ _ E T).
    destruct (unstageable_raises (with_http_post os post) self d n w S) as (e & w1 & H1).
    exists e, w1. unfold bind. by rewrite H1.
Qed.

(** Claim C10.  The call returns [False] exactly when its first step fails:
    no job has the number, or the token of the job is empty or starts with
    the marker.  It then leaves the environment as it was, and all it has
    done is print one message. *)
Theorem staging_failure_writes_nothing (os : Platform) (self : Manager) (n : json) (w : World) :
  (rejected self n = true →
     ∃ w', set_environment_for_demarche os self n w = Returns false w') ∧
  (∀ w', set_environment_for_demarche os self n w = Returns false w' →
     rejected self n = true ∧ environ w' = environ w ∧
     ∃ m, log w' = Output m :: log w).
Proof.
  split.
  - intros R. destruct (set_environment_rejected os self n w R) as [m E]. eauto.
  - intros w' H. pose proof (set_environment_false _ _ _ _ _ H) as R.
    destruct (set_environment_rejected os self n w R) as [m E].
    rewrite E in H. injection H as <-. eauto.
Qed.

Lemma job_credentials_slots os d n : (job_credentials os d n).*1 = credential_slots.
Proof. reflexivity. Qed.

Lemma job_settings_slots os self d : (job_settings os self d).*1 = setting_slots.
Proof. reflexivity. Qed.

Lemma slots_distinct :
  NoDup credential_slots ∧ NoDup setting_slots ∧
  Forall (λ slot, slot ∉ setting_slots) credential_slots.
Proof. repeat split; apply (bool_decide_unpack _); vm_compute; reflexivity. Qed.

Lemma staged_setting os self d n e slot value :
  (slot, value) ∈ job_settings os self d →
  staged_environ os self d n e !! slot = Some value.
Proof.
  intros Hin. unfold staged_environ. apply write_lookup_in; [|done].
  rewrite job_settings_slots. apply slots_distinct.
Qed.

Lemma staged_credential os self d n e slot value :
  (slot, value) ∈ job_credentials os d n →
  slot ∉ (dotenv_file os).*1 →
  staged_environ os self d n e !! slot = Some value.
Proof.
  intros Hin Hdot. unfold staged_environ.
  assert (slot ∈ credential_slots) as Hslot.
  { rewrite <- (job_credentials_slots os d n). by apply (list_elem_of_fmap_2 fst) in Hin. }
  destruct slots_distinct as (Hc & _ & Hd).
  rewrite write_lookup_notin.
  - rewrite dotenv_environ_notin by done. apply write_lookup_in; [|done].
    by rewrite job_credentials_slots.
  - rewrite job_settings_slots. by eapply Forall_forall in Hd.
Qed.

(** Where the reload of the [.env] file does not reach.  Let [B] be the job
    that its number finds.  After staging [A] and then [B], both calls
    returning [True], the ten slots written after the reload hold the values
    of [B] and of the target store, and so does each of the three slots
    written before it that the [.env] file does not bind.  No value depends
    on [A] or on the state before. *)
Lemma staging_reflects_latest_job (os : Platform) (self : Manager)
    (A B : DemarcheConfig) (w0 w1 w2 : World) :
  get_demarche_config self (number B) = Some B →
  set_environment_for_demarche os self (number A) w0 = Returns true w1 →
  set_environment_for_demarche os self (number B) w1 = Returns true w2 →
  (∀ slot value, (slot, value) ∈ job_settings os self B →
     environ w2 !! slot = Some value) ∧
  (∀ slot value, (slot, value) ∈ job_credentials os B (number B) →
     slot ∉ (dotenv_file os).*1 → environ w2 !! slot = Some value).
Proof.
  intros HB _ H2.
  apply set_environment_true in H2 as (d & Hd & _ & _ & ->).
  rewrite HB in Hd. injection Hd as <-.
  split; intros slot value Hin.
  - by apply staged_setting.
  - intros Hdot. by apply staged_credential.
Qed.

(** ** The loader *)

Lemma has_key_resolved env key fields :
  has_key key (resolve_field env <$> fields) = has_key key fields.
Proof.
  unfold has_key. induction fields as [|[k v] l IH]; [done|].
  cbn. by rewrite <- IH.
Qed.

Lemma load_config_object os path w fields :
  read_json os path = JsonDocument (JDict fields) →
  _load_config os path w =
  match missing_section fields with
  | Some section => Raises (schema_error section) w
  | None => Returns (_resolve_dict_env_vars (environ w) (JDict fields)) w
  end.
Proof.
  intros E. unfold _load_config. rewrite E.
  unfold bind at 1, ask. rewrite resolve_dict_unfold.
  unfold missing_section. cbn [for_each List.find].
  unfold bind at 1, bind at 1. cbn [contains_key ret].
  fold (has_key "grist" (resolve_field (environ w) <$> fields)).
  rewrite has_key_resolved.
  destruct (has_key "grist" fields); [|done]. cbn.
  unfold bind at 1, bind at 1. cbn [contains_key ret].
  fold (has_key "demarches" (resolve_field (environ w) <$> fields)).
  rewrite has_key_resolved.
  by destruct (has_key "demarches" fields).
Qed.

Lemma str_app_inv_head (a x y : string) : a +:+ x = a +:+ y → x = y.
Proof. induction a as [|c a IH]; [done|]. rewrite !app_cons. intros [= H]. auto. Qed.

Lemma format_error_inj path d1 d2 : format_error path d1 = format_error path d2 → d1 = d2.
Proof.
  unfold format_error. intros [= H].
  apply str_app_inv_head in H. rewrite <- !app_assoc' in H.
  apply str_app_inv_head in H. done.
Qed.

Lemma schema_error_inj s1 s2 : schema_error s1 = schema_error s2 → s1 = s2.
Proof. unfold schema_error. intros [= H]. by apply str_app_inv_head in H. Qed.

Lemma errors_distinct path diag section :
  format_error path diag ≠ schema_error section.
Proof. unfold format_error, schema_error. intros [= H]. Qed.

Lemma load_config_unreadable os path w e :
  read_json os path = Unreadable e →
  _load_config os path w =
  Raises (match e with FileNotFoundError _ => missing_file_error path | _ => e end) w.
Proof. intros E. unfold _load_config. rewrite E. by destruct e. Qed.

Lemma load_config_escapes os path w e :
  escapes (read_json os path) e → _load_config os path w = Raises e w.
Proof.
  intros [E Hne]. rewrite (load_config_unreadable os path w e E).
  destruct e; try done. by destruct (Hne msg).
Qed.

(** Claim C6, amended.  For a file that, when it holds a document, holds an
    object: the loader raises the missing-file error exactly when [open]
    raises [FileNotFoundError], and the format error with the diagnostic of
    the parser when [json.load] raises [JSONDecodeError]; every other
    exception of the reading escapes as it is; the loader raises the schema
    error for a section when that section is the first of [grist] and
    [demarches] that the document lacks; otherwise it returns the document
    with the resolver applied, whatever placeholders are left in it.  A
    format error or a schema error comes from nowhere else, unless the
    reading itself raises that very exception, and the loader fails in no
    other way.  The state is left as it was. *)
Theorem load_config_outcomes (os : Platform) (path : string) (w : World) :
  document_is_object (read_json os path) = true →
  (_load_config os path w = Raises (missing_file_error path) w
     ↔ file_not_found (read_json os path)) ∧
  (∀ diagnostic, _load_config os path w = Raises (format_error path diagnostic) w
     ↔ read_json os path = NotJson diagnostic
       ∨ escapes (read_json os path) (format_error path diagnostic)) ∧
  (∀ section, _load_config os path w = Raises (schema_error section) w
     ↔ (∃ fields, read_json os path = JsonDocument (JDict fields) ∧
                  missing_section fields = Some section)
       ∨ escapes (read_json os path) (schema_error section)) ∧
  (∀ config w', _load_config os path w = Returns config w'
     ↔ ∃ fields, read_json os path = JsonDocument (JDict fields) ∧
                 missing_section fields = None ∧
                 config = _resolve_dict_env_vars (environ w) (JDict fields) ∧ w' = w) ∧
  (∀ e, escapes (read_json os path) e → _load_config os path w = Raises e w) ∧
  (∀ e w', _load_config os path w = Raises e w' →
     w' = w ∧
     (e = missing_file_error path
      ∨ (∃ diagnostic, e = format_error path diagnostic)
      ∨ (∃ section, e = schema_error section)
      ∨ escapes (read_json os path) e)).
Proof.
  intros Hobj.
  assert (∀ e1 e2 : exn, Raises (A := json) e1 w = Raises e2 w → e1 = e2) as Hexn
    by (by intros e1 e2 [= ->]).
  split; [|split; [|split; [|split; [|split]]]].
  - unfold file_not_found. split.
    + intros H. destruct (read_json os path) as [|diag|e|doc] eqn:E.
      * by left.
      * unfold _load_config in H. rewrite E in H. by apply Hexn in H.
      * rewrite (load_config_unreadable os path w e E) in H. apply Hexn in H.
        right. destruct e; try done. by eexists.
      * destruct doc as [| | | | |fields]; try discriminate Hobj.
        rewrite (load_config_object os path w fields E) in H.
        by destruct (missing_section fields).
    + intros [E|[msg E]].
      * unfold _load_config. by rewrite E.
      * by rewrite (load_config_unreadable os path w _ E).
  - intros diagnostic. split.
    + intros H. destruct (read_json os path) as [|diag|e|doc] eqn:E.
      * unfold _load_config in H. rewrite E in H. by apply Hexn in H.
      * left. unfold _load_config in H. rewrite E in H.
        apply Hexn, format_error_inj in H. by subst.
      * right. rewrite (load_config_unreadable os path w e E) in H. apply Hexn in H.
        destruct e; try done. injection H as ->. by split.
      * destruct doc as [| | | | |fields]; try discriminate Hobj.
        rewrite (load_config_object os path w fields E) in H.
        destruct (missing_section fields); [|done].
        apply Hexn in H. symmetry in H. by apply errors_distinct in H.
    + intros [E|He].
      * unfold _load_config. by rewrite E.
      * by apply load_config_escapes.
  - intros section. split.
    + intros H. destruct (read_json os path) as [|diag|e|doc] eqn:E.
      * unfold _load_config in H. rewrite E in H. by apply Hexn in H.
      * unfold _load_config in H. rewrite E in H.
        apply Hexn in H. by apply errors_distinct in H.
      * right. rewrite (load_config_unreadable os path w e E) in H. apply Hexn in H.
        destruct e; try done. injection H as ->. by split.
      * destruct doc as [| | | | |fields]; try discriminate Hobj.
        rewrite (load_config_object os path w fields E) in H. left. exists fields.
        destruct (missing_section fields); [|done].
        apply Hexn, schema_error_inj in H. by subst.
    + intros [(fields & E & Hm)|He].
      * by rewrite (load_config_object os path w fields E), Hm.
      * by apply load_config_escapes.
  - intros config w'. split.
    + intros H. destruct (read_json os path) as [|diag|e|doc] eqn:E.
      * unfold _load_config in H. by rewrite E in H.
      * unfold _load_config in H. by rewrite E in H.
      * by rewrite (load_config_unreadable os path w e E) in H.
      * destruct doc as [| | | | |fields]; try discriminate Hobj.
        rewrite (load_config_object os path w fields E) in H. exists fields.
        destruct (missing_section fields); [done|]. by injection H as <- <-.
    + intros (fields & E & Hm & -> & ->).
      by rewrite (load_config_object os path w fields E), Hm.
  - intros e. apply load_config_escapes.
  - intros e w' H. destruct (read_json os path) as [|diag|e0|doc] eqn:E.
    + unfold _load_config in H. rewrite E in H. injection H as <- <-. auto.
    + unfold _load_config in H. rewrite E in H. injection H as <- <-. eauto.
    + rewrite (load_config_unreadable os path w e0 E) in H. injection H as <- <-.
      split; [done|]. destruct e0; auto; do 3 right; by split.
    + destruct doc as [| | | | |fields]; try discriminate Hobj.
      rewrite (load_config_object os path w fields E) in H.
      destruct (missing_section fields); [|done]. injection H as <- <-. eauto 6.
Qed.

(** ** The registry *)

Lemma has_key_get key fields :
  has_key key fields = true → ∃ v, dict_get key fields = Some v.
Proof.
  unfold has_key. induction fields as [|[k v] l IH]; [done|].
  cbn. destruct (String.eqb k key); [eauto|]. exact IH.
Qed.

Lemma getitem_present key fields w :
  has_key key fields = true →
  getitem key (JDict fields) w = Returns (field key JNull (JDict fields)) w.
Proof.
  intros [v E]%has_key_get. cbn. unfold dict_get_d. by rewrite E.
Qed.

Lemma load_entry_well_formed entry w :
  entry_well_formed entry = true →
  load_entry entry w =
  Returns (if entry_skipped entry then None else Some (job_of_entry entry))
          (logged (entry_warnings entry) w).
Proof.
  unfold entry_well_formed, load_entry, entry_warnings, job_of_entry.
  destruct entry as [| | | | |fields]; try done.
  unfold entry_skipped. unfold bind at 1. cbn [get ret].
  change (dict_get_d "api_token" (JStr "") fields) with (entry_token (JDict fields)).
  destruct (entry_token (JDict fields)) as [| | |tok| |]; try done.
  cbn [str_of]. intros [Hn Hname]%andb_prop.
  destruct (Str.startswith "${" tok).
  - unfold bind at 1. rewrite (getitem_present _ _ _ Hn). done.
  - cbn in Hname. unfold bind at 1. rewrite (getitem_present _ _ _ Hn).
    unfold bind at 1. rewrite (getitem_present _ _ _ Hname). destruct w. done.
Qed.

Lemma logged_app evs1 evs2 w : logged evs2 (logged evs1 w) = logged (evs1 ++ evs2) w.
Proof. unfold logged. cbn. by rewrite rev_app_distr, app_assoc. Qed.

Lemma load_entries_well_formed entries acc w :
  forallb entry_well_formed entries = true →
  load_entries entries acc w =
  Returns (acc ++ (job_of_entry <$> List.filter (λ e, negb (entry_skipped e)) entries))
          (logged (flat_map entry_warnings entries) w).
Proof.
  revert acc w. induction entries as [|entry entries IH]; intros acc w.
  - intros _. cbn. rewrite app_nil_r. by destruct w.
  - cbn [forallb]. intros [He Hes]%andb_prop.
    cbn [load_entries]. rewrite (bind_step _ _ _ _ _ (load_entry_well_formed entry w He)).
    rewrite IH by done. cbn [flat_map List.filter]. rewrite logged_app.
    destruct (entry_skipped entry); cbn [negb]; [done|].
    by rewrite <- app_assoc.
Qed.

(** Claim C2, amended.  For entries that are objects with a number, a name
    and a token that is a string: the registry holds, in document order, one
    job for each entry whose token does not start with the marker -- an entry
    with an empty token, or with a marker further in its token, is kept --
    and for each entry whose token starts with the marker it prints the
    number of the job and the token, and leaves the entry out. *)
Theorem load_demarches_keeps_unmarked (config : dict) (entries : list json) (w : World) :
  dict_get "demarches" config = Some (JList entries) →
  forallb entry_well_formed entries = true →
  _load_demarches (JDict config) w =
  Returns (job_of_entry <$> List.filter (λ e, negb (entry_skipped e)) entries)
          (logged (flat_map entry_warnings entries) w).
Proof.
  intros E Hwf. unfold _load_demarches.
  unfold bind at 1. cbn [getitem]. rewrite E. cbn [ret].
  unfold bind at 1. cbn [iterate ret].
  by rewrite load_entries_well_formed.
Qed.

Lemma load_demarches_keeps_unmarked_witness :
  _load_demarches
    (JDict [("demarches", JList [sample_entry 1 "A" "${TOKEN_A}"; sample_entry 2 "B" "token-B"])])
    World0
  = Returns [job_of_entry (sample_entry 2 "B" "token-B")]
      {| environ := ∅;
         log := [Output (WarnMissingVariable "${TOKEN_A}"); Output (WarnTokenUnresolved (JInt 1))] |}.
Proof.
  exact (load_demarches_keeps_unmarked
           [("demarches", JList [sample_entry 1 "A" "${TOKEN_A}"; sample_entry 2 "B" "token-B"])]
           [sample_entry 1 "A" "${TOKEN_A}"; sample_entry 2 "B" "token-B"]
           World0 eq_refl eq_refl).
Defined.

(** An empty token, and a marker that is not at the head of the token: both
    entries are kept, and nothing is printed. *)
Lemma load_demarches_keeps_empty_token :
  ∃ jobs,
    _load_demarches
      (JDict [("demarches", JList [sample_entry 1 "A" ""; sample_entry 2 "B" "Bearer ${TOKEN_B}"])])
      World0
    = Returns jobs World0 ∧
    api_token <$> jobs = [""; "Bearer ${TOKEN_B}"].
Proof. eexists. split; vm_compute; reflexivity. Qed.


(** ** The validation *)

Lemma logged_nil w : logged [] w = w.
Proof. by destruct w. Qed.

Lemma print_logged m w : print m w = Returns tt (logged [Output m] w).
Proof. reflexivity. Qed.

Lemma grist_warnings_logged (g : dict) w :
  for_each g (λ kv,
    match kv.2 with
    | JStr value =>
        if Str.startswith "${" value then print (WarnGristUnresolved kv.1 value)
        else ret tt
    | _ => ret tt
    end) w
  = Returns tt (logged (flat_map grist_warning g) w).
Proof.
  revert w. induction g as [|[k v] g IH]; intros w; [by rewrite logged_nil|].
  cbn [for_each flat_map]. rewrite <- logged_app. unfold bind at 1.
  unfold grist_warning at 2. cbn [fst snd].
  destruct v; cbn [print emit ret app]; rewrite ?logged_nil; try apply IH.
  destruct (Str.startswith "${" s); cbn [print emit ret app]; rewrite ?logged_nil; apply IH.
Qed.

Lemma get_grist_config_logged self c g w :
  config self = JDict c → dict_get "grist" c = Some (JDict g) →
  grist_block self = g ∧
  get_grist_config self w = Returns g (logged (flat_map grist_warning g) w).
Proof.
  intros Ec Eg. unfold grist_block, get_grist_config. rewrite Ec.
  cbn [field getitem]. unfold dict_get_d. rewrite Eg. split; [done|].
  unfold bind at 1. cbn [ret].
  unfold bind at 1. by rewrite grist_warnings_logged.
Qed.

Lemma grist_field_incomplete_checkable g key w :
  grist_checkable g key = true →
  grist_field_incomplete g key w = Returns (grist_incomplete g key) w.
Proof.
  unfold grist_checkable, grist_field_incomplete, grist_incomplete.
  destruct (dict_get key g) as [v|]; [|done].
  destruct v as [| | |s| |]; intros H; try (by rewrite H).
  by destruct (negb (py_truthy (JStr s))).
Qed.

Lemma validate_grist_logged g keys valid w :
  forallb (grist_checkable g) keys = true →
  validate_grist g keys valid w =
  Returns (valid && forallb (λ key, negb (grist_incomplete g key)) keys)
          (logged (flat_map (grist_error g) keys) w).
Proof.
  revert valid w. induction keys as [|key keys IH]; intros valid w.
  - intros _. cbn. by rewrite andb_true_r, logged_nil.
  - cbn [forallb]. intros [Hk Hks]%andb_prop. cbn [validate_grist flat_map].
    rewrite (bind_step _ _ _ _ _ (grist_field_incomplete_checkable g key w Hk)).
    rewrite <- logged_app. unfold grist_error at 2.
    destruct (grist_incomplete g key); cbn [negb andb].
    + unfold bind at 1. rewrite print_logged, IH by done. by rewrite andb_false_r.
    + rewrite logged_nil. by apply IH.
Qed.

Lemma validate_demarches_logged todo valid w :
  validate_demarches todo valid w =
  Returns (valid && forallb (λ d, negb (token_invalid (api_token d))) todo)
          (logged (job_line <$> todo) w).
Proof.
  revert valid w. induction todo as [|d todo IH]; intros valid w.
  - cbn. by rewrite andb_true_r, logged_nil.
  - cbn [validate_demarches forallb fmap list_fmap].
    change (job_line d :: (job_line <$> todo)) with ([job_line d] ++ (job_line <$> todo)).
    rewrite <- logged_app. unfold job_line at 2.
    destruct (token_invalid (api_token d)); cbn [negb andb];
      unfold bind at 1; rewrite print_logged, IH; [by rewrite andb_false_r|done].
Qed.

(** Claim C5, amended.  For a configuration whose target-store fields can be
    checked, validation returns whether the three target-store fields and the
    tokens of the registered jobs are all usable, prints a line for each
    violation ([validation_report]), raises nothing and leaves the environment
    as it was.  A job that the registry left out is not seen. *)
Theorem validate_configuration_report (self : Manager) (w : World) :
  grist_well_formed self = true →
  validate_configuration self w =
  Returns (configuration_valid self) (logged (validation_report self) w).
Proof.
  unfold grist_well_formed. destruct (config self) as [| | | | |c] eqn:Ec; try done.
  destruct (dict_get "grist" c) as [[| | | | |g]|] eqn:Eg; try done.
  intros Hg. destruct (get_grist_config_logged self c g) with (w := logged [Output InfoValidating] w)
    as [Eb Hget]; [done..|].
  unfold validate_configuration, validation_report, configuration_valid.
  rewrite Eb. unfold bind at 1. rewrite print_logged.
  rewrite (bind_step _ _ _ _ _ Hget).
  rewrite (bind_step _ _ _ _ _ (validate_grist_logged g GRIST_KEYS true _ Hg)).
  cbn [andb]. fold (grist_valid g). rewrite !logged_app.
  destruct (grist_valid g); unfold bind at 1; cbn [ret]; rewrite ?print_logged, ?logged_app;
    unfold bind at 1; rewrite print_logged, logged_app;
    rewrite (bind_step _ _ _ _ _ (validate_demarches_logged _ _ _));
    fold (tokens_valid self); rewrite logged_app; cbn [andb];
    [destruct (tokens_valid self)|];
    unfold bind at 1; rewrite print_logged, logged_app; cbn [ret];
    by rewrite <- ?app_assoc.
Qed.


(** ** The orchestrator *)

Lemma extends_refl P w : extends P w w.
Proof. by exists []. Qed.

Lemma extends_trans P w1 w2 w3 : extends P w1 w2 → extends P w2 w3 → extends P w1 w3.
Proof.
  intros (e1 & E1 & F1) (e2 & E2 & F2). exists (e2 ++ e1).
  rewrite E2, E1, app_assoc. split; [done|]. by apply Forall_app.
Qed.

Lemma extends_cons (P : event → Prop) ev w :
  P ev → extends P w {| environ := environ w; log := ev :: log w |}.
Proof. intros H. exists [ev]. split; [done|]. by constructor. Qed.

Lemma extends_impl (P Q : event → Prop) w w' :
  (∀ ev, P ev → Q ev) → extends P w w' → extends Q w w'.
Proof. intros H (evs & E & F). exists evs. split; [done|]. eapply Forall_impl; eauto. Qed.

Section Emits.
Context {A B : Type} (P : event → Prop).

Lemma emits_bind (m : M A) (k : A → M B) :
  emits P m → (∀ a, emits P (k a)) → emits P (bind m k).
Proof.
  intros Hm Hk w. unfold bind. specialize (Hm w).
  destruct (m w) as [a w1|e w1]; [|done].
  eapply extends_trans; [exact Hm|apply Hk].
Qed.

Lemma emits_try (m : M A) (h : exn → M A) :
  emits P m → (∀ e, emits P (h e)) → emits P (try_except m h).
Proof.
  intros Hm Hh w. unfold try_except. specialize (Hm w).
  destruct (m w) as [a w1|e w1]; [done|].
  eapply extends_trans; [exact Hm|apply Hh].
Qed.

Lemma emits_ret (a : A) : emits P (ret a).
Proof. intros w. apply extends_refl. Qed.
Lemma emits_raise e : emits P (@raise A e).
Proof. intros w. apply extends_refl. Qed.
Lemma emits_ask (f : World → A) : emits P (ask f).
Proof. intros w. apply extends_refl. Qed.
Lemma emits_emit ev : P ev → emits P (emit ev).
Proof. intros H w. by apply extends_cons. Qed.
Lemma emits_print m : P (Output m) → emits P (print m).
Proof. apply emits_emit. Qed.
Lemma emits_setenv key v : emits P (setenv key v).
Proof.
  intros w. unfold setenv. destruct v; try apply extends_refl.
  destruct (Str.mem _ _); by exists [].
Qed.
Lemma emits_getitem key v : emits P (getitem key v).
Proof.
  intros w. destruct v; try apply extends_refl. cbn.
  destruct (dict_get key fields); apply extends_refl.
Qed.
Lemma emits_get key dflt v : emits P (get key dflt v).
Proof. intros w. destruct v; apply extends_refl. Qed.
Lemma emits_iterate v : emits P (iterate v).
Proof. intros w. destruct v; apply extends_refl. Qed.
Lemma emits_load_dotenv os b : P (LoadDotenv b) → emits P (load_dotenv os b).
Proof. intros H w. by exists [LoadDotenv b]; split; [|constructor]. Qed.
End Emits.

Lemma emits_for_each {A} P (xs : list A) body :
  (∀ x, emits P (body x)) → emits P (for_each xs body).
Proof.
  intros H. induction xs as [|x xs IH]; [intros w; apply extends_refl|].
  cbn [for_each]. apply emits_bind; auto.
Qed.

Lemma emits_expect_strs P i items : emits P (expect_strs i items).
Proof.
  revert i. induction items as [|v items IH]; intros i; [apply emits_ret|].
  destruct v; try apply emits_raise. cbn [expect_strs].
  apply emits_bind; [apply IH|intros; apply emits_ret].
Qed.

Create HintDb emits.
#[local] Hint Resolve emits_ret emits_raise emits_ask emits_setenv emits_getitem
  emits_get emits_iterate emits_for_each emits_expect_strs : emits.
#[local] Hint Extern 1 (emits _ (emit _)) => apply emits_emit; exact I : emits.
#[local] Hint Extern 1 (emits _ (print _)) => apply emits_print; exact I : emits.
#[local] Hint Extern 1 (emits _ (load_dotenv _ _)) => apply emits_load_dotenv; exact I : emits.
#[local] Hint Extern 2 (emits _ (bind _ _)) => apply emits_bind; [|intros] : emits.
#[local] Hint Extern 2 (emits _ (try_except _ _)) => apply emits_try; [|intros] : emits.
#[local] Hint Extern 3 (emits _ (match ?x with _ => _ end)) => destruct x : emits.
#[local] Hint Extern 3 (emits _ (if ?x then _ else _)) => destruct x : emits.

Lemma emits_join_value P sep v : emits P (join_value sep v).
Proof. unfold join_value. destruct v; eauto 10 with emits. Qed.
#[local] Hint Resolve emits_join_value : emits.

Lemma emits_get_grist_config self : emits not_sync_job (get_grist_config self).
Proof. unfold get_grist_config. eauto 10 with emits. Qed.
#[local] Hint Resolve emits_get_grist_config : emits.

Lemma emits_stage_context os self d n : emits not_sync_job (stage_context os self d n).
Proof. unfold stage_context, refresh_modules. eauto 60 with emits. Qed.

Lemma emits_probe_access os d n : emits not_sync_job (probe_access os d n).
Proof. unfold probe_access. eauto 20 with emits. Qed.

Lemma emits_set_environment os self n :
  emits not_sync_job (set_environment_for_demarche os self n).
Proof.
  unfold set_environment_for_demarche.
  destruct (get_demarche_config self n); [destruct (token_invalid _)|];
    eauto using emits_stage_context, emits_probe_access with emits.
Qed.

Lemma reached_refl P w : reached P w w.
Proof. split; [done|apply extends_refl]. Qed.

Lemma reached_cons (P : event → Prop) w0 w ev :
  P ev → reached P w0 w → reached P w0 {| environ := environ w; log := ev :: log w |}.
Proof.
  intros H [E X]. split; [done|].
  eapply extends_trans; [exact X|by apply extends_cons].
Qed.

Lemma reached_impl (P Q : event → Prop) w0 w :
  (∀ ev, P ev → Q ev) → reached P w0 w → reached Q w0 w.
Proof. intros H [E X]. split; [done|by eapply extends_impl]. Qed.

Lemma wp_bind {A B} (m : M A) (k : A → M B) Φ Ψ w :
  wp m (λ a w', wp (k a) Φ Ψ w') Ψ w → wp (bind m k) Φ Ψ w.
Proof. unfold wp, bind. by destruct (m w). Qed.

Lemma wp_try {A} (m : M A) h Φ Ψ w :
  wp m Φ (λ e w', wp (h e) Φ Ψ w') w → wp (try_except m h) Φ Ψ w.
Proof. unfold wp, try_except. by destruct (m w). Qed.

Lemma wp_ask {A B} (f : World → A) (k : A → M B) Φ Ψ w :
  wp (k (f w)) Φ Ψ w → wp (bind (ask f) k) Φ Ψ w.
Proof. done. Qed.

Lemma wp_emit {B} ev (k : unit → M B) Φ Ψ w :
  wp (k tt) Φ Ψ {| environ := environ w; log := ev :: log w |} →
  wp (bind (emit ev) k) Φ Ψ w.
Proof. done. Qed.

Lemma wp_step {A B} P (m : M A) (k : A → M B) Φ Ψ w0 w :
  keeps_environ m → emits P m → reached P w0 w →
  (∀ a w', reached P w0 w' → wp (k a) Φ Ψ w') →
  (∀ e w', reached P w0 w' → Ψ e w') →
  wp (bind m k) Φ Ψ w.
Proof.
  intros Hk He [E X] HΦ HΨ. apply wp_bind. unfold wp.
  specialize (Hk w). specialize (He w).
  assert (reached P w0 (state_after (m w))) as R.
  { split; [congruence|]. eapply extends_trans; eauto. }
  destruct (m w) as [a w'|e w']; cbn in R |- *; [by apply HΦ|by apply HΨ].
Qed.

Lemma keeps_environ_raise_if_failed failed : keeps_environ (raise_if_failed failed).
Proof. by destruct failed. Qed.

Lemma emits_raise_if_failed P failed : emits P (raise_if_failed failed).
Proof. destruct failed; [apply emits_raise|apply emits_ret]. Qed.

Lemma blames_accounted d e r ev : failure_of d e r → blames d e ev → accounted [r] ev.
Proof.
  intros (Hn & _ & Hs & He) Hb. destruct ev as [| | | | |? ? ? k ? ? ? [text|ok]]; try done.
  destruct Hb as [-> ->]. exists r. by rewrite list_elem_of_singleton.
Qed.

Lemma not_sync_blames d e ev : not_sync_job ev → blames d e ev.
Proof. by destruct ev. Qed.

Lemma sync_single_demarche_returns os self d w :
  wp (_sync_single_demarche os self d)
     (λ r w', environ w' = environ w ∧
              demarche_number r = number d ∧ demarche_name r = name d ∧
              extends (accounted [r]) w w')
     (λ _ _, False) w.
Proof.
  unfold _sync_single_demarche. apply wp_ask.
  set (Φ := λ r w', environ w' = environ w ∧ _).
  assert (∀ e w', reached (blames d e) w w' →
            wp (end_time <- ask (clock os) ;;
                print (ErrSync (sync_error_text (ErrSynchronisation e))) ;;
                ret {| demarche_number := number d; demarche_name := name d;
                       success := false; dossiers_processed := 0;
                       errors := [ErrSynchronisation e];
                       duration_seconds := end_time - clock os w |})
               Φ (λ _ _, False) w') as Hfail.
  { intros e w' R. apply wp_ask, wp_emit. unfold wp, Φ. cbn.
    destruct (reached_cons _ _ _ (Output (ErrSync (sync_error_text (ErrSynchronisation e)))) I R)
      as [E X].
    repeat split; [done|]. eapply extends_impl; [|exact X].
    intros ev. by apply blames_accounted. }
  assert (∀ e w', reached not_sync_job w w' → reached (blames d e) w w') as Hweak.
  { intros e w' R. eapply reached_impl; [|exact R]. apply not_sync_blames. }
  apply wp_try. apply wp_ask.
  eapply (wp_step not_sync_job);
    [apply keeps_environ_raise_if_failed|apply emits_raise_if_failed|apply reached_refl| |by auto].
  intros _ w1 R1.
  eapply (wp_step not_sync_job);
    [apply keeps_environ_get_grist_config|apply emits_get_grist_config|exact R1| |by auto].
  intros g w2 R2.
  eapply (wp_step not_sync_job);
    [apply keeps_environ_getitem|apply emits_getitem|exact R2| |by auto].
  intros base_url w3 R3.
  eapply (wp_step not_sync_job);
    [apply keeps_environ_getitem|apply emits_getitem|exact R3| |by auto].
  intros api_key w4 R4.
  eapply (wp_step not_sync_job);
    [apply keeps_environ_getitem|apply emits_getitem|exact R4| |by auto].
  intros doc_id w5 R5. apply wp_ask.
  eapply (wp_step not_sync_job);
    [apply keeps_environ_raise_if_failed|apply emits_raise_if_failed|exact R5| |by auto].
  intros _ w6 R6.
  eapply (wp_step not_sync_job);
    [apply keeps_environ_get|apply emits_get|exact R6| |by auto].
  intros parallel w7 R7.
  eapply (wp_step not_sync_job);
    [apply keeps_environ_get|apply emits_get|exact R7| |by auto].
  intros batch_size w8 R8.
  eapply (wp_step not_sync_job);
    [apply keeps_environ_get|apply emits_get|exact R8| |by auto].
  intros max_workers w9 R9. apply wp_ask, wp_emit.
  destruct (process_demarche_for_grist_optimized os w9 (number d) parallel batch_size
              max_workers) as [text|ok] eqn:Eo.
  - apply Hfail. apply reached_cons; [done|]. by apply Hweak.
  - apply wp_ask. unfold wp, Φ. cbn.
    assert (reached no_failed_call w w9) as R9'.
    { eapply reached_impl; [|exact R9]. by intros []. }
    destruct (reached_cons no_failed_call _ _
                (SyncJob base_url api_key doc_id (number d) parallel batch_size
                   max_workers (inr ok)) I R9') as [E X].
    repeat split; [done|]. eapply extends_impl; [|exact X].
    intros ev Hev. by destruct ev as [| | | | |? ? ? ? ? ? ? [?|?]].
Qed.






Lemma extends_pause P (b : bool) w :
  P (Output InfoPause) → P (Sleep 2) →
  ∃ w', (if b then pause else ret tt) w = Returns tt w' ∧
        environ w' = environ w ∧ extends P w w'.
Proof.
  intros H1 H2. destruct b; eexists; (split; [reflexivity|]); (split; [done|]).
  - exists [Sleep 2; Output InfoPause]. split; [done|]. by repeat constructor.
  - apply extends_refl.
Qed.



Lemma sync_specific_loop_unknown os self final n rest acc w :
  get_demarche_config self n = None →
  sync_specific_loop os self false final (n :: rest) acc w =
  sync_specific_loop os self false final rest (acc ++ [not_found_failure os n])
    (logged [Output (ErrDemarcheNotFound n); Output (InfoAvailable (number <$> demarches self))] w).
Proof. intros E. cbn [sync_specific_loop]. by rewrite E. Qed.

Lemma sync_specific_loop_disabled os self final n d rest acc w :
  get_demarche_config self n = Some d → py_truthy (enabled d) = false →
  sync_specific_loop os self false final (n :: rest) acc w =
  sync_specific_loop os self false final rest acc
    (logged [Output (WarnDisabled n (name d)); Output InfoUseForce] w).
Proof. intros E D. cbn [sync_specific_loop]. by rewrite E, D. Qed.

Lemma extends_logged (P : event → Prop) evs w : Forall P evs → extends P w (logged evs w).
Proof. intros H. exists (rev evs). split; [done|]. by apply Forall_rev. Qed.

Lemma sync_specific_loop_passes_over os self final todo acc w :
  Forall (λ n, unknown self n || disabled self n = true) todo →
  ∃ w', sync_specific_loop os self false final todo acc w
        = Returns (acc ++ (not_found_failure os <$> List.filter (unknown self) todo)) w' ∧
        environ w' = environ w ∧ extends only_print w w'.
Proof.
  intros H. revert acc w. induction H as [|n rest Hn _ IH]; intros acc w.
  - exists w. cbn. rewrite app_nil_r. repeat split. apply extends_refl.
  - unfold unknown, disabled in Hn. cbn [List.filter]. unfold unknown at 1.
    destruct (get_demarche_config self n) as [d|] eqn:E.
    + cbn in Hn. apply negb_true_iff in Hn.
      rewrite (sync_specific_loop_disabled _ _ _ _ _ _ _ _ E Hn).
      edestruct IH as (w' & -> & Ew & X). exists w'. repeat split; [done|].
      eapply extends_trans; [|exact X]. apply extends_logged. by repeat constructor.
    + rewrite (sync_specific_loop_unknown _ _ _ _ _ _ _ E).
      edestruct IH as (w' & -> & Ew & X). exists w'. rewrite <- app_assoc.
      repeat split; [done|].
      eapply extends_trans; [|exact X]. apply extends_logged. by repeat constructor.
Qed.

Lemma sync_specific_loop_outcome os self final todo acc w :
  wp (sync_specific_loop os self false final todo acc)
     (λ results w', ∃ rs, results = acc ++ rs ∧
        Forall2 (answers os self) (List.filter (λ n, negb (disabled self n)) todo) rs)
     (λ _ _, True) w.
Proof.
  revert acc w. induction todo as [|n rest IH]; intros acc w.
  - unfold wp. cbn. exists []. by rewrite app_nil_r.
  - cbn [List.filter]. unfold disabled at 1, wp.
    destruct (get_demarche_config self n) as [d|] eqn:E.
    + destruct (py_truthy (enabled d)) eqn:D; cbn [negb].
      * cbn [sync_specific_loop]. rewrite E, D. cbn [negb andb].
        unfold bind at 1. cbn [print emit].
        unfold bind at 1.
        destruct (set_environment_for_demarche os self n _) as [staged w2|]; [|done].
        destruct staged; cbn [negb].
        -- unfold bind at 1.
           pose proof (sync_single_demarche_returns os self d w2) as Hs. unfold wp in Hs.
           destruct (_sync_single_demarche os self d w2) as [r w3|]; [|done].
           destruct Hs as (_ & _ & Hname & _).
           unfold bind at 1.
           destruct (extends_pause (λ _, True) (negb (py_eq n final)) w3 I I) as (w4 & -> & _).
           specialize (IH (acc ++ [r]) w4). unfold wp in IH.
           destruct (sync_specific_loop _ _ _ _ rest _ w4); [|done].
           destruct IH as (rs & -> & F). exists (r :: rs). rewrite <- app_assoc.
           split; [done|]. constructor; [|done]. unfold answers. by rewrite E.
        -- specialize (IH (acc ++ [environment_failure n (name d)]) w2). unfold wp in IH.
           destruct (sync_specific_loop _ _ _ _ rest _ w2); [|done].
           destruct IH as (rs & -> & F). exists (environment_failure n (name d) :: rs).
           rewrite <- app_assoc. split; [done|]. constructor; [|done].
           unfold answers. by rewrite E.
      * rewrite (sync_specific_loop_disabled _ _ _ _ _ _ _ _ E D). apply IH.
    + rewrite (sync_specific_loop_unknown _ _ _ _ _ _ _ E). cbn [negb].
      specialize (IH (acc ++ [not_found_failure os n])
                    (logged [Output (ErrDemarcheNotFound n);
                             Output (InfoAvailable (number <$> demarches self))] w)).
      unfold wp in IH.
      destruct (sync_specific_loop _ _ _ _ rest _ _); [|done].
      destruct IH as (rs & -> & F). exists (not_found_failure os n :: rs).
      rewrite <- app_assoc. split; [done|]. constructor; [|done].
      unfold answers. by rewrite E.
Qed.

(** Claim C7.  With [force_disabled] off: an identifier that no job has adds
    the failed result [not_found_failure] and two printed lines, and nothing
    else; an identifier of a disabled job adds two printed lines and no
    result.  A list of such identifiers yields the failures of the unknown
    ones, in order, does nothing but print, and leaves the environment as it
    was.  In every run that returns, each identifier that is not of a disabled
    job has one result, in order. *)
Theorem sync_specific_passes_over (os : Platform) (self : Manager) :
  (∀ final n rest acc w,
     get_demarche_config self n = None →
     sync_specific_loop os self false final (n :: rest) acc w =
     sync_specific_loop os self false final rest (acc ++ [not_found_failure os n])
       (logged [Output (ErrDemarcheNotFound n);
                Output (InfoAvailable (number <$> demarches self))] w)) ∧
  (∀ final n d rest acc w,
     get_demarche_config self n = Some d → py_truthy (enabled d) = false →
     sync_specific_loop os self false final (n :: rest) acc w =
     sync_specific_loop os self false final rest acc
       (logged [Output (WarnDisabled n (name d)); Output InfoUseForce] w)) ∧
  (∀ ids w, Forall (λ n, unknown self n || disabled self n = true) ids →
     ∃ w', sync_specific_demarches os self ids false w
           = Returns (not_found_failure os <$> List.filter (unknown self) ids) w' ∧
           environ w' = environ w ∧ extends only_print w w') ∧
  (∀ ids w results w',
     sync_specific_demarches os self ids false w = Returns results w' →
     Forall2 (answers os self) (List.filter (λ n, negb (disabled self n)) ids) results) ∧
  (∀ n, success (not_found_failure os n) = false ∧
        errors (not_found_failure os n) = [ErrNotInConfiguration] ∧
        Str.contains "non trouvée" (sync_error_text ErrNotInConfiguration) = true).
Proof.
  split; [intros; by apply sync_specific_loop_unknown|].
  split; [intros; by eapply sync_specific_loop_disabled|].
  split; [|split; [|done]].
  - intros ids w H. unfold sync_specific_demarches.
    unfold bind at 1. cbn [print emit].
    edestruct (sync_specific_loop_passes_over os self (List.last ids JNull) ids [])
      as (w1 & E1 & Ew & X); [exact H|].
    rewrite (bind_step _ _ _ _ _ E1). cbn [app].
    assert (extends only_print w w1) as X'.
    { eapply extends_trans; [|exact X]. by apply extends_cons. }
    destruct (not_found_failure os <$> List.filter (unknown self) ids);
      eexists; (split; [reflexivity|]); (split; [exact Ew|]);
      (eapply extends_trans; [exact X'|by apply extends_cons]).
  - intros ids w results w'. unfold sync_specific_demarches.
    intros (u & w1 & [= <- <-] & H)%bind_returns.
    apply bind_returns in H as (rs & w2 & H & H').
    assert (rs = results) as <-.
    { apply bind_returns in H' as (? & ? & _ & [= <- <-]). done. }
    pose proof (sync_specific_loop_outcome os self (List.last ids JNull) ids []
                  {| environ := environ w; log := Output (InfoSearching ids) :: log w |}) as L.
    unfold wp in L. rewrite H in L. by destruct L as (rs' & -> & F).
Qed.


(** * Further properties *)

(** ** More on the resolver *)

Lemma sub_from_skip_app repl a b k :
  Re.sub_from repl (String.length a + k) (a +:+ b) = Re.sub_from repl k b.
Proof.
  induction a as [|c a IH]; [done|].
  rewrite app_cons. cbn [String.length Nat.add]. exact IH.
Qed.

Lemma sub_from_placeholder repl N post :
  valid_name N →
  Re.sub_from repl 0 (placeholder N +:+ post) = repl N +:+ Re.sub_from repl 0 post.
Proof.
  intros HN. pose proof (match_at_placeholder N post HN) as Hm.
  rewrite placeholder_app in Hm |- *.
  rewrite (sub_from_match _ _ _ _ Hm). f_equal.
  assert (String "{" (N +:+ "}" +:+ post) = (String "{" (N +:+ "}")) +:+ post) as ->.
  { symmetry. etrans; [apply app_cons|]. f_equal. apply app_assoc'. }
  replace (2 + String.length N)%nat with (String.length (String "{" (N +:+ "}")) + 0)%nat.
  - apply sub_from_skip_app.
  - cbn [String.length]. rewrite length_app'. cbn. lia.
Qed.

Lemma startswith_app p s : Str.startswith p (p +:+ s) = true.
Proof.
  induction p as [|c p IH]; [by destruct s|].
  rewrite app_cons. unfold Str.startswith; fold Str.startswith.
  by rewrite Ascii.eqb_refl, IH.
Qed.

Lemma contains_placeholder pre N post :
  Str.contains (placeholder N) (pre +:+ placeholder N +:+ post) = true.
Proof.
  apply contains_app. destruct (placeholder N +:+ post) eqn:E.
  - by rewrite placeholder_app in E.
  - rewrite contains_cons, <- E, startswith_app. done.
Qed.

Lemma sub_from_fixed repl n s :
  (String.length s ≤ n)%nat →
  (∀ N, valid_name N → Str.contains (placeholder N) s = true → repl N = placeholder N) →
  Re.sub_from repl 0 s = s.
Proof.
  revert s. induction n as [|n IH]; intros s Hlen H.
  { destruct s; [done|cbn in Hlen; lia]. }
  destruct s as [|c t]; [done|].
  destruct (Re.match_at (String c t)) as [N|] eqn:Em.
  - apply match_at_spec in Em as [HN [post E]]. rewrite E.
    rewrite sub_from_placeholder by done.
    rewrite (H N HN).
    + f_equal. apply IH.
      * assert (String.length (String c t) = String.length (placeholder N +:+ post)) as El
          by (by rewrite E).
        rewrite length_app' in El. unfold placeholder in El. rewrite !length_app' in El.
        cbn in El, Hlen. lia.
      * intros M HM Hc. apply H; [done|]. rewrite E. by apply contains_app.
    + rewrite E. apply (contains_placeholder "").
  - cbn [Re.sub_from]. rewrite Em. f_equal. apply IH.
    + cbn in Hlen. lia.
    + intros M HM Hc. apply H; [done|]. rewrite contains_cons, Hc. apply orb_true_r.
Qed.

Lemma match_at_before_placeholder c pre N post :
  Str.contains "${" (String c pre) = false →
  Re.match_at (String c (pre +:+ placeholder N +:+ post)) = None.
Proof.
  rewrite contains_cons. intros [Hs _]%orb_false_elim.
  destruct pre as [|d pre].
  - rewrite placeholder_app. cbn [String.append]. unfold Re.match_at.
    by destruct (Ascii.eqb c "$").
  - rewrite app_cons. unfold Re.match_at.
    unfold Str.startswith in Hs. rewrite andb_true_r in Hs.
    rewrite (Ascii.eqb_sym c), (Ascii.eqb_sym d), Hs. done.
Qed.


(** Property X1.  In a text whose first marker opens a placeholder of a name
    [N], the text before the placeholder is kept, the placeholder becomes the
    value of [N], or stays when [N] is not set, and the text after it is
    resolved on its own: the value put in is not scanned again. *)
Theorem resolve_str_first_placeholder (env : gmap string string) (pre N post : string) :
  Str.contains "${" pre = false → valid_name N →
  resolve_str env (pre +:+ placeholder N +:+ post)
  = pre +:+ replace_var env N +:+ resolve_str env post.
Proof.
  intros Hpre HN. unfold resolve_str, Re.sub.
  induction pre as [|c pre IH].
  - by apply sub_from_placeholder.
  - rewrite !app_cons. cbn [Re.sub_from].
    rewrite match_at_before_placeholder by done. f_equal. apply IH.
    rewrite contains_cons in Hpre. by apply orb_false_elim in Hpre as [_ ?].
Qed.

(** Property X2.  A string is returned as it is when the environment sets
    none of the names of its placeholders, and so is a document when this
    holds of every string value in it. *)
Theorem resolver_keeps_unbound (env : gmap string string) :
  (∀ s, unbound_in env s → resolve_str env s = s) ∧
  (∀ data, (∀ s, s ∈ strings_of data → unbound_in env s) →
           _resolve_dict_env_vars env data = data).
Proof.
  assert (∀ s, unbound_in env s → resolve_str env s = s) as Hstr.
  { intros s H. apply (sub_from_fixed _ (String.length s)); [done|].
    intros N HN Hc. unfold replace_var. by rewrite (H N HN Hc). }
  split; [exact Hstr|].
  induction data as [| | |s|items IH|fields IH] using json_nested_ind; intros H; try done.
  - cbn. f_equal. apply Hstr, H. cbn. apply list_elem_of_here.
  - rewrite resolve_list_unfold. f_equal.
    induction items as [|x items IHi]; [done|].
    apply Forall_cons in IH as [Hx Hrest]. cbn. f_equal.
    + apply Hx. intros s Hs. apply H. cbn. apply elem_of_app. by left.
    + apply IHi; [done|]. intros s Hs. apply H. cbn. apply elem_of_app. by right.
  - rewrite resolve_dict_unfold. f_equal.
    induction fields as [|[k v] fields IHf]; [done|].
    apply Forall_cons in IH as [Hx Hrest]. cbn. f_equal.
    + unfold resolve_field. cbn. f_equal. apply Hx.
      intros s Hs. apply H. cbn. apply elem_of_app. by left.
    + apply IHf; [done|]. intros s Hs. apply H. cbn. apply elem_of_app. by right.
Qed.

(** ** More on the loader and the registry *)


Lemma reads_only_bind {A B} (m : M A) (k : A → M B) :
  reads_only m → (∀ a, reads_only (k a)) → reads_only (bind m k).
Proof.
  intros Hm Hk w. unfold bind. specialize (Hm w).
  destruct (m w) as [a w1|e w1]; cbn in Hm; subst w1; [apply Hk|done].
Qed.

Lemma reads_only_ret {A} (a : A) : reads_only (ret a).
Proof. done. Qed.

Lemma reads_only_raise {A} e : reads_only (@raise A e).
Proof. done. Qed.

Lemma reads_only_ask {A} (f : World → A) : reads_only (ask f).
Proof. done. Qed.

Lemma reads_only_contains_key key v : reads_only (contains_key key v).
Proof. by destruct v. Qed.

Lemma reads_only_getitem key v : reads_only (getitem key v).
Proof. destruct v; try done. intros w. cbn. by destruct (dict_get key fields). Qed.

Lemma reads_only_get key dflt v : reads_only (get key dflt v).
Proof. by destruct v. Qed.

Lemma reads_only_iterate v : reads_only (iterate v).
Proof. by destruct v. Qed.

Lemma reads_only_for_each {A} (xs : list A) body :
  (∀ x, reads_only (body x)) → reads_only (for_each xs body).
Proof.
  intros H. induction xs as [|x xs IH]; [done|].
  cbn [for_each]. apply reads_only_bind; [apply H|by intros].
Qed.

Lemma load_config_state os path : reads_only (_load_config os path).
Proof.
  unfold _load_config.
  destruct (read_json os path) as [|diag|e|doc]; [done|done|by destruct e|].
  apply reads_only_bind; [apply reads_only_ask|]. intros env.
  apply reads_only_bind; [|intros; apply reads_only_ret].
  apply reads_only_for_each. intros section.
  apply reads_only_bind; [apply reads_only_contains_key|]. by intros [].
Qed.

Lemma load_config_returns os path w config w' :
  _load_config os path w = Returns config w' →
  ∃ doc, read_json os path = JsonDocument doc ∧
         config = _resolve_dict_env_vars (environ w) doc ∧ w' = w.
Proof.
  intros H. pose proof (load_config_state os path w) as Hs. rewrite H in Hs. cbn in Hs.
  subst w'. unfold _load_config in H.
  destruct (read_json os path) as [|diag|e|doc]; [done|done|by destruct e|].
  exists doc. split; [done|].
  apply bind_returns in H as (env & w1 & [= <- <-] & H).
  apply bind_returns in H as (u & w2 & _ & [= <- _]). done.
Qed.

Lemma resolve_keeps_object env doc :
  (∀ fields, doc ≠ JDict fields) → ∀ fields, _resolve_dict_env_vars env doc ≠ JDict fields.
Proof. intros H fields. destruct doc; try done. by destruct (H fields0). Qed.

Lemma getitem_not_object key v w :
  (∀ fields, v ≠ JDict fields) → ∃ text, getitem key v w = Raises (TypeError text) w.
Proof. intros H. destruct v; try (by eexists). by destruct (H fields). Qed.

Lemma load_entry_outcome entry w :
  match load_entry entry w with
  | Returns loaded w' =>
      entry_well_formed entry = true ∧
      loaded = (if entry_skipped entry then None else Some (job_of_entry entry)) ∧
      w' = logged (entry_warnings entry) w
  | Raises _ w' => entry_well_formed entry = false ∧ w' = w
  end.
Proof.
  destruct (entry_well_formed entry) eqn:Ewf.
  { by rewrite load_entry_well_formed. }
  unfold load_entry, entry_well_formed, entry_skipped, entry_warnings, entry_token in *.
  destruct entry as [| | | | |fields]; try done.
  cbn [get field] in *. unfold bind at 1. cbn [ret].
  destruct (dict_get_d "api_token" (JStr "") fields) as [| | |token| |] eqn:Et; try done.
  cbn [str_of] in Ewf.
  destruct (has_key "number" fields) eqn:Hn.
  - cbn [andb] in Ewf. apply orb_false_elim in Ewf as [Hs Hname]. rewrite Hs.
    unfold bind at 1. rewrite (getitem_present _ _ _ Hn). unfold bind at 1.
    unfold getitem. destruct (dict_get "name" fields) eqn:Ename; [|done].
    exfalso. clear -Hname Ename. induction fields as [|[k v] l IH]; [done|].
    cbn in Hname, Ename. destruct (String.eqb k "name"); [done|]. by apply IH.
  - assert (dict_get "number" fields = None) as En.
    { clear -Hn. induction fields as [|[k v] l IH]; [done|].
      cbn in Hn |- *. destruct (String.eqb k "number"); [done|]. by apply IH. }
    destruct (Str.startswith "${" token); unfold bind at 1, getitem; by rewrite En.
Qed.

Lemma load_entries_stops good bad rest acc w :
  forallb entry_well_formed good = true → entry_well_formed bad = false →
  ∃ e, load_entries (good ++ bad :: rest) acc w
       = Raises e (logged (flat_map entry_warnings good) w).
Proof.
  revert acc w. induction good as [|x good IH]; intros acc w Hg Hb.
  - cbn [app load_entries flat_map]. rewrite logged_nil. unfold bind.
    pose proof (load_entry_outcome bad w) as H.
    destruct (load_entry bad w) as [loaded w'|e w'].
    + destruct H as [H _]. congruence.
    + destruct H as [_ ->]. by exists e.
  - cbn in Hg. apply andb_prop in Hg as [Hx Hg].
    cbn [app load_entries flat_map]. unfold bind.
    rewrite (load_entry_well_formed _ _ Hx).
    destruct (IH (match (if entry_skipped x then None else Some (job_of_entry x)) with
                  | Some d => acc ++ [d] | None => acc end)
                 (logged (entry_warnings x) w) Hg Hb) as [e ->].
    exists e. by rewrite logged_app.
Qed.

Lemma load_entry_unmarked entry w d w' :
  load_entry entry w = Returns (Some d) w' → Str.startswith "${" (api_token d) = false.
Proof.
  intros H. pose proof (load_entry_outcome entry w) as Ho. rewrite H in Ho.
  destruct Ho as (_ & E & _). unfold entry_skipped in E.
  destruct (Str.startswith "${" (str_of (entry_token entry))) eqn:Es; [done|].
  by injection E as ->.
Qed.

Lemma load_entries_invariant entries acc w ds w' :
  load_entries entries acc w = Returns ds w' →
  tokens_unmarked acc →
  tokens_unmarked ds ∧ environ w' = environ w ∧ extends only_print w w' ∧
  (length ds ≤ length acc + length entries)%nat.
Proof.
  revert acc w. induction entries as [|x entries IH]; intros acc w H Hacc.
  - injection H as <- <-. repeat split; [done| |cbn; lia]. apply extends_refl.
  - cbn [load_entries] in H. apply bind_returns in H as (loaded & w1 & Hx & H).
    pose proof (load_entry_outcome x w) as Ho. rewrite Hx in Ho. destruct Ho as (_ & _ & ->).
    assert (extends only_print w (logged (entry_warnings x) w)) as X.
    { apply extends_logged. unfold entry_warnings. destruct (entry_skipped x); by repeat constructor. }
    apply IH in H as (H1 & H2 & H3 & H4).
    + repeat split; [done|done|by eapply extends_trans|].
      destruct loaded; [rewrite length_app in H4|]; cbn in H4 |- *; lia.
    + destruct loaded as [d|]; [|done]. apply Forall_app. split; [done|].
      constructor; [|done]. by eapply load_entry_unmarked.
Qed.

Lemma load_demarches_unfold config w :
  _load_demarches config w =
  match getitem "demarches" config w with
  | Returns section _ =>
      match iterate section w with
      | Returns entries _ => load_entries entries [] w
      | Raises e _ => Raises e w
      end
  | Raises e _ => Raises e w
  end.
Proof.
  unfold _load_demarches, bind.
  pose proof (reads_only_getitem "demarches" config w) as H1.
  destruct (getitem "demarches" config w) as [section w1|e w1]; cbn in H1; subst w1; [|done].
  pose proof (reads_only_iterate section w) as H2.
  by destruct (iterate section w) as [entries w2|e w2]; cbn in H2; subst w2.
Qed.

Lemma load_entries_strings (ss : list string) acc w ds w' :
  load_entries (JStr <$> ss) acc w = Returns ds w' → ss = [].
Proof. destruct ss as [|s ss]; [done|]. cbn [fmap list_fmap load_entries]. by unfold bind. Qed.

(** Property X3.  The build of the registry stops at the first entry that is
    not well formed: it raises, so no registry is returned, not even for the
    entries before, and it has printed the warnings of the entries before and
    nothing for the entry itself. *)
Theorem load_demarches_stops_at_ill_formed (config : dict) (good : list json)
    (bad : json) (rest : list json) (w : World) :
  dict_get "demarches" config = Some (JList (good ++ bad :: rest)) →
  forallb entry_well_formed good = true →
  entry_well_formed bad = false →
  ∃ e, _load_demarches (JDict config) w
       = Raises e (logged (flat_map entry_warnings good) w).
Proof.
  intros Hc Hg Hb. rewrite load_demarches_unfold. cbn [getitem]. rewrite Hc. cbn [ret iterate].
  by apply load_entries_stops.
Qed.

(** Property X4.  Whatever the configuration, a registry that is returned
    holds no job whose token starts with the marker and no more jobs than the
    section has entries; the build has written nothing to the environment and
    has done nothing but print.  A section that is not a list yields an empty
    registry, when it yields one. *)
Theorem load_demarches_invariant (config : json) (w : World)
    (jobs : list DemarcheConfig) (w' : World) :
  _load_demarches config w = Returns jobs w' →
  tokens_unmarked jobs ∧
  environ w' = environ w ∧ extends only_print w w' ∧
  (length jobs ≤ length (items_of (field "demarches" JNull config)))%nat ∧
  ((∀ entries, field "demarches" JNull config ≠ JList entries) → jobs = [] ∧ w' = w).
Proof.
  rewrite load_demarches_unfold.
  destruct (getitem "demarches" config w) as [section w1|] eqn:Eg; [|done].
  apply (getitem_field _ _ _ _ _ JNull) in Eg as [-> _].
  destruct (iterate _ w) as [entries w2|] eqn:Ei; [|done].
  apply iterate_returns in Ei as [-> _]. intros H.
  pose proof (load_entries_invariant _ _ _ _ _ H (Forall_nil_2 _)) as (H1 & H2 & H3 & H4).
  split; [done|]. split; [done|]. split; [done|]. split; [exact H4|].
  intros Hnl. clear H1 H2 H3 H4.
  destruct (field "demarches" JNull config) as [| | |s|items|fields];
    cbn [items_of] in H; try (by destruct (Hnl items)); try (by injection H as <- <-).
  - apply load_entries_strings in H as E. rewrite E in H. by injection H as <- <-.
  - change ((λ kv : string * json, JStr kv.1) <$> fields)
      with ((JStr ∘ fst) <$> fields) in H.
    rewrite (list_fmap_compose fst JStr) in H.
    apply load_entries_strings in H as E. rewrite E in H. by injection H as <- <-.
Qed.

Lemma init_unfold os path w :
  init os path w =
  match _load_config os path (state_after (load_dotenv os false w)) with
  | Returns config _ =>
      match _load_demarches config (state_after (load_dotenv os false w)) with
      | Returns jobs w2 =>
          Returns {| config_file := path; config := config; demarches := jobs |} w2
      | Raises e w2 => Raises e w2
      end
  | Raises e _ => Raises e (state_after (load_dotenv os false w))
  end.
Proof.
  unfold init, bind. cbn [load_dotenv state_after].
  set (w1 := {| environ := _; log := _ |}).
  pose proof (load_config_state os path w1) as H.
  destruct (_load_config os path w1) as [config w2|e w2]; cbn in H; subst w2; [|done].
  by destruct (_load_demarches config w1).
Qed.

Lemma load_demarches_not_object config w :
  (∀ fields, config ≠ JDict fields) → ∃ e, _load_demarches config w = Raises e w.
Proof.
  intros H. rewrite load_demarches_unfold.
  destruct (getitem_not_object "demarches" config w H) as [text ->]. by eexists.
Qed.

Lemma dotenv_keeps_set e0 e kvs N V :
  e0 !! N = Some V → e !! N = Some V →
  foldl (load_binding false e0) e kvs !! N = Some V.
Proof.
  intros H0. revert e. induction kvs as [|kv kvs IH]; intros e H; [done|].
  cbn [foldl]. apply IH. unfold load_binding.
  destruct (e0 !! kv.1) eqn:E; [done|].
  rewrite lookup_insert_ne; [done|]. intros Heq. rewrite Heq in E. congruence.
Qed.

(** Property X5.  A manager is built only from a document that is an
    object with both sections.  Its configuration is the document resolved
    against the environment that the constructor leaves: the environment of
    the process with the variables of the [.env] file added, where a variable
    that was set keeps its value.  No job of its registry has a token that
    starts with the marker. *)
Theorem init_builds_resolved_manager (os : Platform) (path : string) (w : World)
    (self : Manager) (w' : World) :
  init os path w = Returns self w' →
  ∃ fields,
    read_json os path = JsonDocument (JDict fields) ∧
    missing_section fields = None ∧
    config_file self = path ∧
    config self = _resolve_dict_env_vars (environ w') (JDict fields) ∧
    tokens_unmarked (demarches self) ∧
    (∀ N V, environ w !! N = Some V → environ w' !! N = Some V) ∧
    (∀ N, N ∉ (dotenv_file os).*1 → environ w' !! N = environ w !! N).
Proof.
  rewrite init_unfold. set (w1 := state_after (load_dotenv os false w)).
  destruct (_load_config os path w1) as [cfg w2|] eqn:El; [|done].
  pose proof (load_config_returns _ _ _ _ _ El) as (doc & Er & Ec & _).
  destruct (_load_demarches cfg w1) as [jobs w3|] eqn:Ed; [|done].
  intros [= <- <-].
  pose proof (load_demarches_invariant _ _ _ _ Ed) as (Ht & Ee & _).
  assert (∃ fields, doc = JDict fields) as [fields ->].
  { destruct doc as [| | | | |fields]; try (by eexists);
      edestruct (load_demarches_not_object cfg w1) as [e He];
      try (rewrite He in Ed; discriminate); by subst cfg. }
  exists fields. split; [done|].
  pose proof (load_config_object os path w1 fields Er) as Ho.
  split.
  { rewrite El in Ho. by destruct (missing_section fields). }
  cbn [config_file config demarches]. split; [done|]. split; [by rewrite Ee|].
  split; [done|]. rewrite Ee. subst w1. cbn [load_dotenv state_after environ]. split.
  - intros N V H. by apply dotenv_keeps_set.
  - intros N. apply dotenv_environ_notin.
Qed.

(** Property X6.  The constructor raises the error of the loader for a
    missing file, a file that does not parse and a missing section, and it
    raises for every document that is not an object, although the loader lets
    some of them pass.  In each case the [.env] file has been read before: the
    state left is the one after [load_dotenv]. *)
Theorem init_fails_after_dotenv (os : Platform) (path : string) (w : World) :
  (read_json os path = NoSuchFile →
     init os path w = Raises (missing_file_error path) (state_after (load_dotenv os false w))) ∧
  (∀ diagnostic, read_json os path = NotJson diagnostic →
     init os path w
     = Raises (format_error path diagnostic) (state_after (load_dotenv os false w))) ∧
  (∀ fields section,
     read_json os path = JsonDocument (JDict fields) →
     missing_section fields = Some section →
     init os path w = Raises (schema_error section) (state_after (load_dotenv os false w))) ∧
  (∀ doc, read_json os path = JsonDocument doc → (∀ fields, doc ≠ JDict fields) →
     ∃ e, init os path w = Raises e (state_after (load_dotenv os false w))).
Proof.
  rewrite init_unfold. set (w1 := state_after (load_dotenv os false w)).
  split; [|split; [|split]].
  - intros E. unfold _load_config. by rewrite E.
  - intros diagnostic E. unfold _load_config. by rewrite E.
  - intros fields section E Hm. rewrite (load_config_object _ _ _ _ E), Hm. done.
  - intros doc E Hdoc.
    destruct (_load_config os path w1) as [cfg w2|e w2] eqn:El; [|by exists e].
    apply load_config_returns in El as (doc' & Er & -> & _).
    assert (doc' = doc) as -> by congruence.
    destruct (load_demarches_not_object (_resolve_dict_env_vars (environ w1) doc) w1) as [e ->];
      [by apply resolve_keeps_object|]. by exists e.
Qed.

(** ** More on the lookups and the stager *)


Lemma find_distinct_int (jobs : list DemarcheConfig) d :
  Forall (λ d, is_int (number d) = true) jobs →
  NoDup (number <$> jobs) →
  d ∈ jobs →
  List.find (λ d', py_eq (number d') (number d)) jobs = Some d.
Proof.
  intros Hint Hnd Hd. induction jobs as [|x jobs IH]; [by apply elem_of_nil in Hd|].
  apply Forall_cons in Hint as [Hx Hint]. cbn [fmap list_fmap] in Hnd.
  apply NoDup_cons in Hnd as [Hnx Hnd]. cbn [List.find].
  apply elem_of_cons in Hd as [->|Hd].
  - destruct (number x); try done. cbn. by rewrite Z.eqb_refl.
  - assert (is_int (number d) = true) as Hdi.
    { eapply Forall_forall in Hint; [exact Hint|done]. }
    assert (number x ≠ number d) as Hne.
    { intros E. apply Hnx. rewrite E. by apply list_elem_of_fmap_2. }
    destruct (number x) as [| |a| | |] eqn:Ex; try done.
    destruct (number d) as [| |b| | |] eqn:Ed; try done.
    cbn [py_eq]. destruct (Z.eqb_spec a b) as [->|_]; [done|]. by apply IH.
Qed.

Lemma find_int_no_string (jobs : list DemarcheConfig) s :
  Forall (λ d, is_int (number d) = true) jobs →
  List.find (λ d', py_eq (number d') (JStr s)) jobs = None.
Proof.
  induction 1 as [|x jobs Hx _ IH]; [done|]. cbn [List.find].
  by destruct (number x).
Qed.

(** Property X7.  When the numbers of the registered jobs are integers, no
    two of them equal, looking up the number of a registered job returns that
    job, and an identifier that is a string finds no job. *)
Theorem registry_lookup_round_trip (self : Manager) :
  Forall (λ d, is_int (number d) = true) (demarches self) →
  NoDup (number <$> demarches self) →
  (∀ d, d ∈ demarches self → get_demarche_config self (number d) = Some d) ∧
  (∀ s, get_demarche_config self (JStr s) = None).
Proof.
  intros Hint Hnd. split.
  - intros d Hd. by apply find_distinct_int.
  - intros s. by apply find_int_no_string.
Qed.

(** Property X8.  [get_grist_config] returns the target-store block when
    the configuration is an object whose [grist] value is an object, after one
    warning for each of its string values that starts with the marker, on each
    call.  Otherwise it raises and leaves the state as it was. *)
Theorem get_grist_config_outcomes (self : Manager) (w : World) :
  (∀ c g, config self = JDict c → dict_get "grist" c = Some (JDict g) →
     get_grist_config self w = Returns g (logged (flat_map grist_warning g) w)) ∧
  ((∀ c g, config self = JDict c → dict_get "grist" c ≠ Some (JDict g)) →
     ∃ e, get_grist_config self w = Raises e w).
Proof.
  split.
  - intros c g Hc Hg. by destruct (get_grist_config_logged self c g w Hc Hg).
  - intros H. unfold get_grist_config, bind.
    destruct (config self) as [| | | | |c] eqn:Ec; try (by eexists).
    cbn [getitem]. destruct (dict_get "grist" c) as [grist|] eqn:Eg; [|by eexists].
    cbn [ret]. destruct grist as [| | | | |g]; try (by eexists).
    by destruct (H c g eq_refl).
Qed.

(** ** Writes *)

Section WritesOnly.
Context {A B : Type} (slots : list string).

Lemma writes_only_bind (m : M A) (k : A → M B) :
  writes_only slots m → (∀ a, writes_only slots (k a)) → writes_only slots (bind m k).
Proof.
  intros Hm Hk w key Hkey. unfold bind. specialize (Hm w key Hkey).
  destruct (m w) as [a w1|e w1]; cbn in Hm |- *; [|done].
  by rewrite (Hk a w1 key Hkey).
Qed.

Lemma writes_only_try (m : M A) (h : exn → M A) :
  writes_only slots m → (∀ e, writes_only slots (h e)) → writes_only slots (try_except m h).
Proof.
  intros Hm Hh w key Hkey. unfold try_except. specialize (Hm w key Hkey).
  destruct (m w) as [a w1|e w1]; cbn in Hm |- *; [done|].
  by rewrite (Hh e w1 key Hkey).
Qed.

Lemma keeps_writes_only (m : M A) : keeps_environ m → writes_only slots m.
Proof. intros H w key _. by rewrite H. Qed.

Lemma writes_only_setenv key v : key ∈ slots → writes_only slots (setenv key v).
Proof.
  intros Hin w k Hk. unfold setenv. destruct v; try done.
  destruct (Str.mem _ s); [done|]. cbn. apply lookup_insert_ne. by intros ->.
Qed.

End WritesOnly.

Lemma writes_only_load_dotenv os slots b :
  (dotenv_file os).*1 ⊆ slots → writes_only slots (load_dotenv os b).
Proof.
  intros Hsub w k Hk. cbn. apply dotenv_environ_notin. intros Hin. by apply Hk, Hsub.
Qed.

Lemma keeps_environ_iterate v : keeps_environ (iterate v).
Proof. by destruct v. Qed.

Lemma keeps_environ_expect_strs i items : keeps_environ (expect_strs i items).
Proof.
  revert i. induction items as [|x items IH]; intros i; [done|].
  destruct x; try done. cbn [expect_strs].
  apply keeps_environ_bind; [apply IH|by intros].
Qed.

Lemma keeps_environ_join_value sep v : keeps_environ (join_value sep v).
Proof.
  destruct v; try done; unfold join_value;
    (apply keeps_environ_bind; [apply keeps_environ_iterate|intros];
     apply keeps_environ_bind; [apply keeps_environ_expect_strs|by intros]).
Qed.

Lemma keeps_environ_probe_access os d n : keeps_environ (probe_access os d n).
Proof.
  intros w. destruct (probe_access_returns os d n w) as (w' & -> & E). done.
Qed.

Lemma slot_in_staging os slot :
  slot ∈ credential_slots ++ setting_slots → slot ∈ staging_slots os.
Proof.
  unfold staging_slots. rewrite !elem_of_app. tauto.
Qed.

Lemma dotenv_in_staging os : (dotenv_file os).*1 ⊆ staging_slots os.
Proof. intros x Hx. unfold staging_slots. rewrite !elem_of_app. tauto. Qed.

Ltac in_list := repeat first [apply list_elem_of_here | apply list_elem_of_further].

Ltac slot_in :=
  apply slot_in_staging; unfold credential_slots, setting_slots; cbn [app]; solve [in_list].

Lemma writes_only_stage_context os self d n :
  writes_only (staging_slots os) (stage_context os self d n).
Proof.
  unfold stage_context.
  repeat first
    [ apply writes_only_setenv; slot_in
    | apply writes_only_load_dotenv; apply dotenv_in_staging
    | apply keeps_writes_only;
      first [ apply keeps_environ_print | apply keeps_environ_refresh_modules
            | apply keeps_environ_get_grist_config | apply keeps_environ_getitem
            | apply keeps_environ_get | apply keeps_environ_join_value
            | apply keeps_environ_iterate ]
    | apply writes_only_bind; [|intros] ].
Qed.

Lemma writes_only_set_environment os self n :
  writes_only (staging_slots os) (set_environment_for_demarche os self n).
Proof.
  unfold set_environment_for_demarche.
  destruct (get_demarche_config self n) as [d|].
  - destruct (token_invalid (api_token d)).
    + apply keeps_writes_only. auto with keeps.
    + apply writes_only_bind; [apply writes_only_stage_context|intros].
      apply keeps_writes_only, keeps_environ_probe_access.
  - apply keeps_writes_only. auto with keeps.
Qed.

(** Property X9.  Whatever its outcome, a staging leaves every variable of
    the environment as it was, apart from its thirteen slots and the
    variables that the [.env] file binds. *)
Theorem staging_writes_only_its_slots (os : Platform) (self : Manager) (n : json)
    (w : World) (slot : string) :
  slot ∉ credential_slots → slot ∉ setting_slots → slot ∉ (dotenv_file os).*1 →
  environ (state_after (set_environment_for_demarche os self n w)) !! slot
  = environ w !! slot.
Proof.
  intros H1 H2 H3. apply writes_only_set_environment.
  unfold staging_slots. rewrite !elem_of_app. tauto.
Qed.


Lemma load_binding_override e0 e kv : load_binding true e0 e kv = <[kv.1 := kv.2]> e.
Proof. unfold load_binding. by destruct (e0 !! kv.1). Qed.

Lemma dotenv_override_write e0 e kvs : foldl (load_binding true e0) e kvs = write e kvs.
Proof.
  revert e. induction kvs as [|kv kvs IH]; intros e; [done|].
  cbn [foldl]. rewrite load_binding_override, IH. done.
Qed.

Lemma sample_dotenv_plain dotenv file post run :
  dotenv_plain (sample_platform dotenv file post run).
Proof.
  intros kv Hin. cbn in Hin. unfold plain_dotenv in Hin.
  by apply list_elem_of_fmap in Hin as (x & -> & _).
Qed.

Lemma dotenv_plain_values os b e b' e' :
  dotenv_plain os → dotenv_values os b e = dotenv_values os b' e'.
Proof.
  intros Hp. unfold dotenv_values. apply Forall_fmap_ext_1, Forall_forall.
  intros kv Hin. f_equal. by apply Hp.
Qed.

Lemma write_app e kvs1 kvs2 : write e (kvs1 ++ kvs2) = write (write e kvs1) kvs2.
Proof. apply foldl_app. Qed.

Lemma staged_environ_write os self d n e :
  dotenv_plain os →
  staged_environ os self d n e
  = write e (job_credentials os d n ++ dotenv_values os true ∅ ++ job_settings os self d).
Proof.
  intros Hp. unfold staged_environ, dotenv_environ.
  rewrite dotenv_override_write, !write_app.
  by rewrite (dotenv_plain_values os true _ true ∅ Hp).
Qed.

Lemma write_lookup_bound e1 e2 kvs k :
  k ∈ kvs.*1 → write e1 kvs !! k = write e2 kvs !! k.
Proof.
  revert e1 e2. induction kvs as [|kv kvs IH]; intros e1 e2 Hk.
  { by apply elem_of_nil in Hk. }
  rewrite !write_cons. destruct (decide (k ∈ kvs.*1)) as [Hin|Hnin]; [by apply IH|].
  cbn [fmap list_fmap] in Hk. apply elem_of_cons in Hk as [->|Hk]; [|done].
  rewrite !write_lookup_notin by done. by rewrite !lookup_insert_eq.
Qed.

Lemma write_twice e kvs : write (write e kvs) kvs = write e kvs.
Proof.
  apply map_eq. intros k. destruct (decide (k ∈ kvs.*1)) as [Hin|Hnin].
  - by apply write_lookup_bound.
  - by rewrite write_lookup_notin.
Qed.

(** Property X10.  When no value of the [.env] file refers to a variable,
    staging a job again right after a staging of it that returned [True]
    returns [True] again and leaves the environment as the first staging
    left it. *)
Theorem staging_again_changes_nothing (os : Platform) (self : Manager) (n : json)
    (w w1 : World) :
  dotenv_plain os →
  set_environment_for_demarche os self n w = Returns true w1 →
  ∃ w2, set_environment_for_demarche os self n w1 = Returns true w2 ∧
        environ w2 = environ w1.
Proof.
  intros Hp H. apply set_environment_true in H as (d & Hd & Ht & Hs & He).
  rewrite (set_environment_accepted _ _ _ _ Hd Ht).
  destruct (stageable_returns os self d n w1 Hs) as [w' Hw'].
  rewrite (bind_step _ _ _ _ _ Hw').
  destruct (probe_access_returns os d n w') as (w2 & -> & E2).
  exists w2. split; [done|]. rewrite E2.
  rewrite (stage_context_environ _ _ _ _ _ _ _ Hw'), He.
  by rewrite !staged_environ_write, write_twice.
Qed.

Lemma stage_context_token os self d n w :
  Str.mem Ascii.zero (api_token d) = false →
  "DEMARCHES_API_TOKEN" ∉ (dotenv_file os).*1 →
  environ (state_after (stage_context os self d n w)) !! "DEMARCHES_API_TOKEN"
  = Some (api_token d).
Proof.
  intros Hz Hd. unfold stage_context.
  erewrite bind_step by apply print_logged.
  erewrite bind_step by apply print_logged.
  erewrite bind_step by (unfold setenv; rewrite Hz; reflexivity).
  match goal with
  | |- environ (state_after (?m ?w0)) !! _ = _ =>
      assert (writes_only (["DEMARCHES_API_URL"; "DEMARCHE_NUMBER"] ++ setting_slots
                           ++ (dotenv_file os).*1) m) as WO
  end.
  { repeat first
      [ apply writes_only_setenv;
        first [ apply elem_of_app; left; solve [in_list]
              | apply elem_of_app; right; apply elem_of_app; left; unfold setting_slots;
                solve [in_list] ]
      | apply writes_only_load_dotenv; intros x Hx; rewrite !elem_of_app; tauto
      | apply keeps_writes_only;
        first [ apply keeps_environ_print | apply keeps_environ_refresh_modules
              | apply keeps_environ_get_grist_config | apply keeps_environ_getitem
              | apply keeps_environ_get | apply keeps_environ_join_value
              | apply keeps_environ_iterate ]
      | apply writes_only_bind; [|intros] ]. }
  rewrite WO.
  - cbn. apply lookup_insert_eq.
  - rewrite !elem_of_app. intros [H|[H|H]]; [| |done].
    + apply elem_of_cons in H as [H|H]; [done|].
      apply elem_of_cons in H as [H|H]; [done|]. by apply elem_of_nil in H.
    + destruct slots_distinct as (_ & _ & F). by inversion F.
Qed.

(** Property X11.  A staging that raises does not undo its writes: when the
    token of the job has no null character and the [.env] file does not bind
    the slot, the slot of the token holds the token of the job after the
    failure. *)
Theorem staging_raise_leaves_token (os : Platform) (self : Manager) (n : json)
    (d : DemarcheConfig) (w : World) (e : exn) (w' : World) :
  get_demarche_config self n = Some d →
  set_environment_for_demarche os self n w = Raises e w' →
  Str.mem Ascii.zero (api_token d) = false →
  "DEMARCHES_API_TOKEN" ∉ (dotenv_file os).*1 →
  environ w' !! "DEMARCHES_API_TOKEN" = Some (api_token d).
Proof.
  intros Hd H Hz Hdot.
  destruct (token_invalid (api_token d)) eqn:Ht.
  { destruct (set_environment_rejected os self n w) as [m Hm].
    - unfold rejected. by rewrite Hd.
    - rewrite Hm in H. discriminate. }
  rewrite (set_environment_accepted _ _ _ _ Hd Ht) in H.
  apply bind_raises in H as [H|(u & w1 & _ & H)].
  - pose proof (stage_context_token os self d n w Hz Hdot) as T. by rewrite H in T.
  - destruct (probe_access_returns os d n w1) as (w2 & E & _). rewrite E in H. discriminate.
Qed.

(** ** More on the validation *)


Lemma keeps_environ_grist_field_incomplete g key :
  keeps_environ (grist_field_incomplete g key).
Proof.
  unfold grist_field_incomplete. destruct (dict_get key g) as [v|]; [|done].
  destruct (negb (py_truthy v)); [done|]. by destruct v.
Qed.

Lemma keeps_environ_validate_grist g keys valid : keeps_environ (validate_grist g keys valid).
Proof.
  revert valid. induction keys as [|key keys IH]; intros valid; [done|].
  cbn [validate_grist].
  apply keeps_environ_bind; [apply keeps_environ_grist_field_incomplete|].
  intros []; [|apply IH].
  apply keeps_environ_bind; [apply keeps_environ_print|intros; apply IH].
Qed.

Lemma keeps_environ_validate_demarches todo valid : keeps_environ (validate_demarches todo valid).
Proof.
  revert valid. induction todo as [|d todo IH]; intros valid; [done|].
  cbn [validate_demarches]. destruct (token_invalid (api_token d));
    (apply keeps_environ_bind; [apply keeps_environ_print|intros; apply IH]).
Qed.

Lemma keeps_environ_validate_configuration self : keeps_environ (validate_configuration self).
Proof.
  unfold validate_configuration.
  apply keeps_environ_bind; [apply keeps_environ_print|intros].
  apply keeps_environ_bind; [apply keeps_environ_get_grist_config|intros g].
  apply keeps_environ_bind; [apply keeps_environ_validate_grist|intros valid].
  apply keeps_environ_bind; [destruct valid; [apply keeps_environ_print|done]|intros].
  apply keeps_environ_bind; [apply keeps_environ_print|intros].
  apply keeps_environ_bind; [apply keeps_environ_validate_demarches|intros valid'].
  apply keeps_environ_bind; [destruct valid'; apply keeps_environ_print|by intros].
Qed.

Lemma validate_grist_uncheckable g keys valid w :
  forallb (grist_checkable g) keys = false →
  ∃ e w', validate_grist g keys valid w = Raises e w'.
Proof.
  revert valid w. induction keys as [|key keys IH]; intros valid w H; [done|].
  cbn [forallb] in H. cbn [validate_grist].
  destruct (grist_checkable g key) eqn:Ec.
  - cbn [andb] in H.
    rewrite (bind_step _ _ _ _ _ (grist_field_incomplete_checkable _ _ w Ec)).
    destruct (grist_incomplete g key); [|by apply IH].
    rewrite (bind_step _ _ _ _ _ (print_logged _ _)). by apply IH.
  - unfold bind at 1, grist_field_incomplete. unfold grist_checkable in Ec.
    destruct (dict_get key g) as [v|]; [|done].
    destruct (negb (py_truthy v)) eqn:Et; [by destruct v|].
    destruct v; try done; by eexists _, _.
Qed.

Lemma validate_configuration_well_formed self w :
  grist_well_formed self = true →
  ∃ w', validate_configuration self w = Returns (configuration_valid self) w'.
Proof.
  unfold grist_well_formed. destruct (config self) as [| | | | |c] eqn:Ec; try done.
  destruct (dict_get "grist" c) as [[| | | | |g]|] eqn:Eg; try done.
  intros Hg.
  destruct (get_grist_config_logged self c g) with (w := logged [Output InfoValidating] w)
    as [Eb Hget]; [done..|].
  unfold validate_configuration, configuration_valid. rewrite Eb.
  rewrite (bind_step _ _ _ _ _ (print_logged _ _)).
  rewrite (bind_step _ _ _ _ _ Hget).
  rewrite (bind_step _ _ _ _ _ (validate_grist_logged g GRIST_KEYS true _ Hg)).
  cbn [andb]. fold (grist_valid g).
  destruct (grist_valid g).
  - rewrite (bind_step _ _ _ _ _ (print_logged _ _)).
    rewrite (bind_step _ _ _ _ _ (print_logged _ _)).
    rewrite (bind_step _ _ _ _ _ (validate_demarches_logged _ _ _)).
    fold (tokens_valid self). cbn [andb].
    destruct (tokens_valid self); rewrite (bind_step _ _ _ _ _ (print_logged _ _));
      by eexists.
  - unfold bind at 1. cbn [ret].
    rewrite (bind_step _ _ _ _ _ (print_logged _ _)).
    rewrite (bind_step _ _ _ _ _ (validate_demarches_logged _ _ _)).
    cbn [andb]. rewrite (bind_step _ _ _ _ _ (print_logged _ _)). by eexists.
Qed.

Lemma validate_configuration_ill_formed self w :
  grist_well_formed self = false →
  ∃ e w', validate_configuration self w = Raises e w'.
Proof.
  intros H. unfold validate_configuration.
  rewrite (bind_step _ _ _ _ _ (print_logged _ _)).
  set (w1 := logged _ w).
  destruct (get_grist_config self w1) as [g w2|e w2] eqn:Eg.
  2:{ unfold bind at 1. rewrite Eg. by eexists _, _. }
  rewrite (bind_step _ _ _ _ _ Eg).
  assert (forallb (grist_checkable g) GRIST_KEYS = false) as Hc.
  { unfold get_grist_config in Eg. apply bind_returns in Eg as (grist & w3 & Hgi & Eg).
    apply getitem_returns in Hgi as (c & Ec & Hgc & ->).
    unfold grist_well_formed in H. rewrite Ec, Hgc in H.
    destruct grist as [| | | | |g']; try done.
    apply bind_returns in Eg as (u & w4 & _ & [= <- _]). done. }
  destruct (validate_grist_uncheckable g GRIST_KEYS true w2 Hc) as (e & w' & E).
  unfold bind at 1. change ["base_url"; "api_key"; "doc_id"] with GRIST_KEYS.
  rewrite E. by eexists _, _.
Qed.

(** Property X12.  Validation returns exactly when the configuration has a
    target-store block whose three fields can be checked (missing, empty or a
    string); otherwise it raises.  In both cases it writes nothing to the
    environment. *)
Theorem validate_configuration_returns_iff (self : Manager) (w : World) :
  returns (validate_configuration self w) = grist_well_formed self ∧
  environ (state_after (validate_configuration self w)) = environ w.
Proof.
  split; [|apply keeps_environ_validate_configuration].
  destruct (grist_well_formed self) eqn:E.
  - by destruct (validate_configuration_well_formed self w E) as [w' ->].
  - by destruct (validate_configuration_ill_formed self w E) as (e & w' & ->).
Qed.

Lemma find_elem {A} (f : A → bool) (l : list A) x : List.find f l = Some x → x ∈ l ∧ f x = true.
Proof.
  induction l as [|y l IH]; [done|]. cbn. destruct (f y) eqn:E.
  - intros [= <-]. split; [apply list_elem_of_here|done].
  - intros H. destruct (IH H). split; [by apply list_elem_of_further|done].
Qed.

Lemma forallb_elem {A} (f : A → bool) (l : list A) x : forallb f l = true → x ∈ l → f x = true.
Proof.
  intros H Hx. induction l as [|y l IH]; [by apply elem_of_nil in Hx|].
  cbn in H. apply andb_prop in H as [Hy H].
  apply elem_of_cons in Hx as [->|Hx]; [done|by apply IH].
Qed.

Lemma tokens_valid_not_rejected self n :
  tokens_valid self = true → unknown self n = false → rejected self n = false.
Proof.
  unfold tokens_valid, unknown, rejected. intros H.
  destruct (get_demarche_config self n) as [d|] eqn:E; [|done]. intros _.
  apply find_elem in E as [Hd _].
  apply negb_true_iff. by apply (forallb_elem _ _ _ H).
Qed.

Lemma validate_true_valid self w w' :
  validate_configuration self w = Returns true w' →
  grist_well_formed self = true ∧ configuration_valid self = true.
Proof.
  intros H. destruct (grist_well_formed self) eqn:E.
  - destruct (validate_configuration_well_formed self w E) as [w1 H1].
    rewrite H1 in H. by injection H as -> _.
  - destruct (validate_configuration_ill_formed self w E) as (e & w1 & H1).
    rewrite H1 in H. discriminate.
Qed.

(** Property X13.  After a validation that returned [True], each of the
    three target-store fields is a non-empty string that does not start with
    the marker, every registered job has a usable token, and the staging of
    an identifier that the registry knows never returns [False]. *)
Theorem validated_configuration_is_usable (os : Platform) (self : Manager) (w w' : World) :
  validate_configuration self w = Returns true w' →
  (∀ key, key ∈ GRIST_KEYS →
     ∃ s, dict_get key (grist_block self) = Some (JStr s) ∧ s ≠ "" ∧
          Str.startswith "${" s = false) ∧
  (∀ d, d ∈ demarches self → token_invalid (api_token d) = false) ∧
  (∀ n w1 w2, unknown self n = false →
     set_environment_for_demarche os self n w1 ≠ Returns false w2).
Proof.
  intros H. apply validate_true_valid in H as [Hwf Hv].
  unfold configuration_valid in Hv. apply andb_prop in Hv as [Hg Ht].
  split; [|split].
  - intros key Hkey.
    assert (grist_checkable (grist_block self) key = true) as Hc.
    { unfold grist_well_formed in Hwf. unfold grist_block, field, dict_get_d.
      destruct (config self) as [| | | | |c]; try done.
      destruct (dict_get "grist" c) as [[| | | | |g]|]; try done. cbn [default].
      by apply (forallb_elem _ _ _ Hwf). }
    pose proof (forallb_elem _ _ _ Hg Hkey) as Hi. cbn beta in Hi.
    apply negb_true_iff in Hi. unfold grist_incomplete in Hi. unfold grist_checkable in Hc.
    destruct (dict_get key (grist_block self)) as [v|]; [|done].
    apply orb_false_elim in Hi as [Htr Hs]. apply negb_false_iff in Htr.
    destruct v as [| | |s| |]; try (by rewrite Htr in Hc).
    exists s. split; [done|]. split; [|done].
    intros ->. done.
  - intros d Hd. apply negb_true_iff. by apply (forallb_elem _ _ _ Ht).
  - intros n w1 w2 Hn Hf. apply set_environment_false in Hf.
    by rewrite (tokens_valid_not_rejected self n Ht Hn) in Hf.
Qed.

(** ** More on the orchestrator *)


Lemma yields_bind {A B} (Φ : B → Prop) (m : M A) (k : A → M B) :
  (∀ a, yields Φ (k a)) → yields Φ (bind m k).
Proof. intros Hk w b w' (a & w1 & _ & H)%bind_returns. by eapply Hk. Qed.

Lemma yields_try {A} (Φ : A → Prop) (m : M A) (h : exn → M A) :
  yields Φ m → (∀ e, yields Φ (h e)) → yields Φ (try_except m h).
Proof.
  intros Hm Hh w a w'. unfold try_except.
  destruct (m w) as [a1 w1|e w1] eqn:E; [intros [= <- <-]; by eapply Hm|by apply Hh].
Qed.

Lemma yields_ret {A} (Φ : A → Prop) (a : A) : Φ a → yields Φ (ret a).
Proof. by intros H w b w' [= <- _]. Qed.

Lemma yields_raise {A} (Φ : A → Prop) e : yields Φ (@raise A e).
Proof. by intros w b w'. Qed.

Lemma sync_single_yields (Φ : SyncResult → Prop) os self d :
  (∀ ok t, Φ {| demarche_number := number d; demarche_name := name d; success := ok;
                dossiers_processed := 0; errors := []; duration_seconds := t |}) →
  (∀ e t, Φ {| demarche_number := number d; demarche_name := name d; success := false;
               dossiers_processed := 0; errors := [ErrSynchronisation e];
               duration_seconds := t |}) →
  yields Φ (_sync_single_demarche os self d).
Proof.
  intros Hok Hfail. unfold _sync_single_demarche.
  apply yields_bind. intros start_time. apply yields_try.
  - repeat (apply yields_bind; intros ?).
    match goal with |- yields _ (match ?x with _ => _ end) => destruct x as [text|ok] end;
      [apply yields_raise|].
    apply yields_bind. intros end_time. by apply yields_ret.
  - intros e. do 2 (apply yields_bind; intros ?). by apply yields_ret.
Qed.

Lemma sync_all_loop_yields (Φ : SyncResult → Prop) os self total i todo acc :
  (∀ d, d ∈ todo → rejected self (number d) = true →
        Φ (environment_failure (number d) (name d))) →
  (∀ d, yields Φ (_sync_single_demarche os self d)) →
  Forall Φ acc →
  yields (Forall Φ) (sync_all_loop os self total i todo acc).
Proof.
  intros Henv Hsingle. revert i acc.
  induction todo as [|d rest IH]; intros i acc Hacc.
  - by apply yields_ret.
  - cbn [sync_all_loop]. apply yields_bind. intros _.
    intros w results w' (staged & w1 & Hs & H)%bind_returns.
    destruct staged; cbn [negb] in H.
    + apply bind_returns in H as (r & w2 & Hr & H).
      apply bind_returns in H as (u & w3 & _ & H).
      eapply IH; [| |exact H].
      * intros d' Hd'. apply Henv. by apply list_elem_of_further.
      * apply Forall_app. split; [done|]. constructor; [|done]. by eapply Hsingle.
    + eapply IH; [| |exact H].
      * intros d' Hd'. apply Henv. by apply list_elem_of_further.
      * apply Forall_app. split; [done|]. constructor; [|done].
        apply Henv; [apply list_elem_of_here|]. by eapply set_environment_false.
Qed.

Lemma sync_specific_loop_yields (Φ : SyncResult → Prop) os self force final todo acc :
  (∀ n, get_demarche_config self n = None → Φ (not_found_failure os n)) →
  (∀ n d, get_demarche_config self n = Some d → token_invalid (api_token d) = true →
          Φ (environment_failure n (name d))) →
  (∀ d, yields Φ (_sync_single_demarche os self d)) →
  Forall Φ acc →
  yields (Forall Φ) (sync_specific_loop os self force final todo acc).
Proof.
  intros Hnf Henv Hsingle. revert acc.
  induction todo as [|n rest IH]; intros acc Hacc.
  - by apply yields_ret.
  - cbn [sync_specific_loop].
    destruct (get_demarche_config self n) as [d|] eqn:E.
    + destruct (negb (py_truthy (enabled d)) && negb force).
      * do 2 (apply yields_bind; intros _). by apply IH.
      * apply yields_bind. intros _.
        intros w results w' (staged & w1 & Hs & H)%bind_returns.
        destruct staged; cbn [negb] in H.
        -- apply bind_returns in H as (r & w2 & Hr & H).
           apply bind_returns in H as (u & w3 & _ & H).
           eapply IH; [|exact H].
           apply Forall_app. split; [done|]. constructor; [|done]. by eapply Hsingle.
        -- eapply IH; [|exact H].
           apply Forall_app. split; [done|]. constructor; [|done].
           apply Henv; [done|]. apply set_environment_false in Hs.
           unfold rejected in Hs. by rewrite E in Hs.
    + do 2 (apply yields_bind; intros _). apply IH.
      apply Forall_app. split; [done|]. constructor; [|done]. by apply Hnf.
Qed.

Lemma sync_all_yields (Φ : SyncResult → Prop) os self :
  (∀ d, d ∈ get_enabled_demarches self → rejected self (number d) = true →
        Φ (environment_failure (number d) (name d))) →
  (∀ d, yields Φ (_sync_single_demarche os self d)) →
  yields (Forall Φ) (sync_all_demarches os self).
Proof.
  intros Henv Hsingle. unfold sync_all_demarches.
  apply yields_bind. intros _.
  intros w results w' (rs & w1 & H & H')%bind_returns.
  apply bind_returns in H' as (u & w2 & _ & [= <- _]).
  by eapply sync_all_loop_yields.
Qed.

Lemma sync_specific_yields (Φ : SyncResult → Prop) os self ids force :
  (∀ n, get_demarche_config self n = None → Φ (not_found_failure os n)) →
  (∀ n d, get_demarche_config self n = Some d → token_invalid (api_token d) = true →
          Φ (environment_failure n (name d))) →
  (∀ d, yields Φ (_sync_single_demarche os self d)) →
  yields (Forall Φ) (sync_specific_demarches os self ids force).
Proof.
  intros Hnf Henv Hsingle. unfold sync_specific_demarches.
  apply yields_bind. intros _.
  intros w results w' (rs & w1 & H & H')%bind_returns.
  apply bind_returns in H' as (u & w2 & _ & [= <- _]).
  by eapply sync_specific_loop_yields.
Qed.

(** Property X14.  Every result of a synchronisation of one job, of all
    enabled jobs or of a selection has no count of dossiers, at most one
    error, and an error only with [success = False]; a failure that the
    orchestrator records itself has a duration of zero. *)
Theorem results_are_well_shaped (os : Platform) (self : Manager) :
  (∀ d w r w', _sync_single_demarche os self d w = Returns r w' → well_shaped r) ∧
  (∀ w results w',
     sync_all_demarches os self w = Returns results w' → Forall well_shaped results) ∧
  (∀ ids force w results w',
     sync_specific_demarches os self ids force w = Returns results w' →
     Forall well_shaped results).
Proof.
  assert (∀ d, yields well_shaped (_sync_single_demarche os self d)) as Hs.
  { intros d. by apply sync_single_yields. }
  split; [|split].
  - intros d w r w'. apply Hs.
  - intros w results w'. by apply sync_all_yields.
  - intros ids force w results w'. by apply sync_specific_yields.
Qed.

Lemma py_eq_int_refl v : is_int v = true → py_eq v v = true.
Proof. destruct v; try done. intros _. apply Z.eqb_refl. Qed.

Lemma int_number_known self d :
  is_int (number d) = true → d ∈ demarches self → unknown self (number d) = false.
Proof.
  intros Hi Hd. unfold unknown, get_demarche_config.
  destruct (List.find _ _) eqn:E; [done|].
  apply list_elem_of_In in Hd.
  pose proof (find_none _ _ E d Hd) as H. cbn in H. by rewrite py_eq_int_refl in H.
Qed.

Lemma enabled_registered self d : d ∈ get_enabled_demarches self → d ∈ demarches self.
Proof.
  unfold get_enabled_demarches. rewrite !list_elem_of_In, filter_In. tauto.
Qed.

(** Property X15.  When every registered job has a usable token, no result
    of a selection reports a failed staging, and none of a run over the
    enabled jobs does when the numbers of the jobs are integers. *)
Theorem valid_tokens_never_fail_staging (os : Platform) (self : Manager) :
  tokens_valid self = true →
  (∀ ids force w results w',
     sync_specific_demarches os self ids force w = Returns results w' →
     Forall staged_ok results) ∧
  (Forall (λ d, is_int (number d) = true) (demarches self) →
   ∀ w results w',
     sync_all_demarches os self w = Returns results w' → Forall staged_ok results).
Proof.
  intros Ht.
  assert (∀ d, yields staged_ok (_sync_single_demarche os self d)) as Hs.
  { intros d. apply sync_single_yields; intros; unfold staged_ok; cbn.
    - apply not_elem_of_nil.
    - intros H. apply elem_of_cons in H as [H|H]; [done|by apply elem_of_nil in H]. }
  split.
  - intros ids force w results w'. apply sync_specific_yields; [| |done].
    + intros n _. unfold staged_ok. cbn.
      intros H. apply elem_of_cons in H as [H|H]; [done|by apply elem_of_nil in H].
    + intros n d Hd Hi. apply find_elem in Hd as [Hd _].
      pose proof (forallb_elem _ _ _ Ht Hd) as Hv. cbn in Hv. by rewrite Hi in Hv.
  - intros Hint w results w'. apply sync_all_yields; [|done].
    intros d Hd Hr. apply enabled_registered in Hd.
    assert (unknown self (number d) = false) as Hk.
    { apply int_number_known; [|done]. by eapply Forall_forall in Hint. }
    by rewrite (tokens_valid_not_rejected self _ Ht Hk) in Hr.
Qed.


Lemma sync_specific_loop_forced os self final todo acc w :
  wp (sync_specific_loop os self true final todo acc)
     (λ results w', ∃ rs, results = acc ++ rs ∧ Forall2 (answers os self) todo rs)
     (λ _ _, True) w.
Proof.
  revert acc w. induction todo as [|n rest IH]; intros acc w.
  - unfold wp. cbn. exists []. by rewrite app_nil_r.
  - unfold wp. cbn [sync_specific_loop].
    destruct (get_demarche_config self n) as [d|] eqn:E.
    + rewrite andb_false_r.
      unfold bind at 1. cbn [print emit].
      unfold bind at 1.
      destruct (set_environment_for_demarche os self n _) as [staged w2|]; [|done].
      destruct staged; cbn [negb].
      * unfold bind at 1.
        pose proof (sync_single_demarche_returns os self d w2) as Hs. unfold wp in Hs.
        destruct (_sync_single_demarche os self d w2) as [r w3|]; [|done].
        destruct Hs as (_ & _ & Hname & _).
        unfold bind at 1.
        destruct (extends_pause (λ _, True) (negb (py_eq n final)) w3 I I) as (w4 & -> & _).
        specialize (IH (acc ++ [r]) w4). unfold wp in IH.
        destruct (sync_specific_loop _ _ _ _ rest _ w4); [|done].
        destruct IH as (rs & -> & F). exists (r :: rs). rewrite <- app_assoc.
        split; [done|]. constructor; [|done]. unfold answers. by rewrite E.
      * specialize (IH (acc ++ [environment_failure n (name d)]) w2). unfold wp in IH.
        destruct (sync_specific_loop _ _ _ _ rest _ w2); [|done].
        destruct IH as (rs & -> & F). exists (environment_failure n (name d) :: rs).
        rewrite <- app_assoc. split; [done|]. constructor; [|done].
        unfold answers. by rewrite E.
    + unfold bind at 1. cbn [print emit]. unfold bind at 1. cbn [print emit].
      match goal with |- match sync_specific_loop _ _ _ _ _ ?a ?w0 with _ => _ end =>
        specialize (IH a w0) end.
      unfold wp in IH.
      destruct (sync_specific_loop _ _ _ _ rest _ _); [|done].
      destruct IH as (rs & -> & F). exists (not_found_failure os n :: rs).
      rewrite <- app_assoc. split; [done|]. constructor; [|done].
      unfold answers. by rewrite E.
Qed.

(** Property X16.  With [force_disabled] set, a selection that returns has
    one result for each identifier, in order: a disabled job is run like an
    enabled one. *)
Theorem sync_specific_forced_answers_all (os : Platform) (self : Manager)
    (ids : list json) (w : World) (results : list SyncResult) (w' : World) :
  sync_specific_demarches os self ids true w = Returns results w' →
  Forall2 (answers os self) ids results ∧ length results = length ids.
Proof.
  unfold sync_specific_demarches.
  intros (u & w1 & [= <- <-] & H)%bind_returns.
  apply bind_returns in H as (rs & w2 & H & H').
  assert (rs = results) as <-.
  { apply bind_returns in H' as (? & ? & _ & [= <- <-]). done. }
  pose proof (sync_specific_loop_forced os self (List.last ids JNull) ids []
                {| environ := environ w; log := Output (InfoSearching ids) :: log w |}) as L.
  unfold wp in L. rewrite H in L. destruct L as (rs' & -> & F).
  split; [done|]. symmetry. by eapply Forall2_length.
Qed.


(** ** The command line *)

Section MainLemmas.
Context {A B : Type}.

Lemma main_bind_done (m : Main A) (k : A → Main B) c b c2 :
  main_bind m k c = Done b c2 ↔ ∃ a c1, m c = Done a c1 ∧ k a c1 = Done b c2.
Proof.
  unfold main_bind. split.
  - destruct (m c) as [a c1|e c1]; [|done]. intros H. by exists a, c1.
  - by intros (a & c1 & -> & H).
Qed.

Lemma main_bind_step (m : Main A) (k : A → Main B) c a c1 :
  m c = Done a c1 → main_bind m k c = k a c1.
Proof. unfold main_bind. by intros ->. Qed.

Lemma main_yields_bind (Φ : B → Prop) (m : Main A) (k : A → Main B) :
  (∀ a, main_yields Φ (k a)) → main_yields Φ (main_bind m k).
Proof. intros Hk c b c' (a & c1 & _ & H)%main_bind_done. by eapply Hk. Qed.

Lemma main_total_bind (m : Main A) (k : A → Main B) :
  main_total m → (∀ a, main_total (k a)) → main_total (main_bind m k).
Proof.
  intros Hm Hk c. destruct (Hm c) as (a & c1 & E). rewrite (main_bind_step _ _ _ _ _ E).
  apply Hk.
Qed.

Lemma main_emits_bind P (m : Main A) (k : A → Main B) :
  main_emits P m → (∀ a, main_emits P (k a)) → main_emits P (main_bind m k).
Proof.
  intros Hm Hk c. unfold main_bind. specialize (Hm c).
  destruct (m c) as [a c1|e c1]; cbn in Hm |- *; [|done].
  eapply extends_trans; [exact Hm|apply Hk].
Qed.

Lemma main_writes_only_bind slots (m : Main A) (k : A → Main B) :
  main_writes_only slots m → (∀ a, main_writes_only slots (k a)) →
  main_writes_only slots (main_bind m k).
Proof.
  intros Hm Hk c key Hkey. unfold main_bind. specialize (Hm c key Hkey).
  destruct (m c) as [a c1|e c1]; cbn in Hm |- *; [|done].
  by rewrite (Hk a c1 key Hkey).
Qed.

End MainLemmas.

Section MainLemmas1.
Context {A : Type}.

Lemma main_yields_ret (Φ : A → Prop) a : Φ a → main_yields Φ (main_ret a).
Proof. by intros H c b c' [= <- _]. Qed.

Lemma main_yields_try (Φ : A → Prop) (m : Main A) h :
  main_yields Φ m → (∀ e, main_yields Φ (h e)) → main_yields Φ (main_try m h).
Proof.
  intros Hm Hh c a c'. unfold main_try.
  destruct (m c) as [a1 c1|e c1] eqn:E; [intros [= <- <-]; by eapply Hm|by apply Hh].
Qed.

Lemma main_yields_try_value_error (Φ : A → Prop) (m : Main A) h :
  main_yields Φ m → (∀ e, main_yields Φ (h e)) → main_yields Φ (main_try_value_error m h).
Proof.
  intros Hm Hh c a c'. unfold main_try_value_error.
  destruct (m c) as [a1 c1|e c1] eqn:E; [intros [= <- <-]; by eapply Hm|].
  destruct e; try done. by apply Hh.
Qed.

Lemma main_total_ret (a : A) : main_total (main_ret a).
Proof. intros c. by eexists _, _. Qed.

Lemma main_total_try (m : Main A) h : (∀ e, main_total (h e)) → main_total (main_try m h).
Proof.
  intros Hh c. unfold main_try. destruct (m c) as [a c1|e c1]; [by eexists _, _|apply Hh].
Qed.

Lemma main_emits_ret P (a : A) : main_emits P (main_ret a).
Proof. intros c. apply extends_refl. Qed.

Lemma main_emits_raise P e : main_emits P (@main_raise A e).
Proof. intros c. apply extends_refl. Qed.

Lemma main_emits_try P (m : Main A) h :
  main_emits P m → (∀ e, main_emits P (h e)) → main_emits P (main_try m h).
Proof.
  intros Hm Hh c. unfold main_try. specialize (Hm c).
  destruct (m c) as [a c1|e c1]; cbn in Hm |- *; [done|].
  eapply extends_trans; [exact Hm|apply Hh].
Qed.

Lemma main_emits_try_value_error P (m : Main A) h :
  main_emits P m → (∀ e, main_emits P (h e)) → main_emits P (main_try_value_error m h).
Proof.
  intros Hm Hh c. unfold main_try_value_error. specialize (Hm c).
  destruct (m c) as [a c1|e c1]; cbn in Hm |- *; [done|].
  destruct e; try done. eapply extends_trans; [exact Hm|apply Hh].
Qed.

Lemma main_emits_call P (m : M A) : emits P m → main_emits P (call m).
Proof.
  intros H c. unfold call. specialize (H (process c)).
  by destruct (m (process c)).
Qed.

Lemma main_writes_only_ret slots (a : A) : main_writes_only slots (main_ret a).
Proof. by intros c k _. Qed.

Lemma main_writes_only_raise slots e : main_writes_only slots (@main_raise A e).
Proof. by intros c k _. Qed.

Lemma main_writes_only_try slots (m : Main A) h :
  main_writes_only slots m → (∀ e, main_writes_only slots (h e)) →
  main_writes_only slots (main_try m h).
Proof.
  intros Hm Hh c key Hkey. unfold main_try. specialize (Hm c key Hkey).
  destruct (m c) as [a c1|e c1]; cbn in Hm |- *; [done|].
  by rewrite (Hh e c1 key Hkey).
Qed.

Lemma main_writes_only_try_value_error slots (m : Main A) h :
  main_writes_only slots m → (∀ e, main_writes_only slots (h e)) →
  main_writes_only slots (main_try_value_error m h).
Proof.
  intros Hm Hh c key Hkey. unfold main_try_value_error. specialize (Hm c key Hkey).
  destruct (m c) as [a c1|e c1]; cbn in Hm |- *; [done|].
  destruct e; try done. by rewrite (Hh _ c1 key Hkey).
Qed.

Lemma main_writes_only_call slots (m : M A) :
  writes_only slots m → main_writes_only slots (call m).
Proof.
  intros H c k Hk. unfold call. specialize (H (process c) k Hk).
  by destruct (m (process c)).
Qed.

End MainLemmas1.

Lemma main_total_say m : main_total (say m).
Proof. intros c. by eexists _, _. Qed.

Lemma main_emits_say P m : main_emits P (say m).
Proof. intros c. apply extends_refl. Qed.

Lemma main_writes_only_say slots m : main_writes_only slots (say m).
Proof. by intros c k _. Qed.

Lemma main_total_for_each {A} (xs : list A) body :
  (∀ x, main_total (body x)) → main_total (main_for_each xs body).
Proof.
  intros H. induction xs as [|x xs IH]; [apply main_total_ret|].
  cbn [main_for_each]. apply main_total_bind; [apply H|by intros].
Qed.

Lemma main_emits_for_each {A} P (xs : list A) body :
  (∀ x, main_emits P (body x)) → main_emits P (main_for_each xs body).
Proof.
  intros H. induction xs as [|x xs IH]; [apply main_emits_ret|].
  cbn [main_for_each]. apply main_emits_bind; [apply H|by intros].
Qed.

Lemma main_writes_only_for_each {A} slots (xs : list A) body :
  (∀ x, main_writes_only slots (body x)) → main_writes_only slots (main_for_each xs body).
Proof.
  intros H. induction xs as [|x xs IH]; [apply main_writes_only_ret|].
  cbn [main_for_each]. apply main_writes_only_bind; [apply H|by intros].
Qed.

Ltac main_yields_step :=
  first
    [ apply main_yields_ret
    | apply main_yields_bind; intros ?
    | match goal with
      | |- main_yields _ (if ?b then _ else _) => destruct b
      | |- main_yields _ (match ?x with _ => _ end) => destruct x
      end ].

Lemma main_body_yields builtins os args :
  main_yields (λ code, code = 0 ∨ code = 1) (main_body builtins os args).
Proof.
  unfold main_body. repeat main_yields_step; auto.
Qed.

Lemma main_total_main builtins os args : main_total (main builtins os args).
Proof.
  unfold main. apply main_total_bind.
  - destruct (Args.debug args); [|apply main_total_ret].
    apply main_total_bind; [|intros; apply main_total_say].
    intros c0. by eexists _, _.
  - intros _. apply main_total_try. intros e.
    apply main_total_bind; [apply main_total_say|intros _].
    apply main_total_bind; [|intros; apply main_total_ret].
    destruct (Args.debug args); apply main_total_say.
Qed.

(** Property X17.  [main] never raises: whatever the manager raises is
    caught, and the exit code is 0 or 1. *)
Theorem main_returns_exit_code (builtins : Builtins) (os : Platform) (args : Args.t)
    (c : Console) :
  ∃ code c', main builtins os args c = Done code c' ∧ (code = 0 ∨ code = 1).
Proof.
  assert (main_yields (λ code, code = 0 ∨ code = 1) (main builtins os args)) as Hy.
  { unfold main. apply main_yields_bind. intros _.
    apply main_yields_try; [apply main_body_yields|].
    intros e. repeat main_yields_step; auto. }
  destruct (main_total_main builtins os args c) as (code & c' & E).
  exists code, c'. split; [done|]. by apply (Hy c code c').
Qed.


Lemma emits_impl {A} (P Q : event → Prop) (m : M A) :
  (∀ ev, P ev → Q ev) → emits P m → emits Q m.
Proof. intros H Hm w. eapply extends_impl; [exact H|apply Hm]. Qed.

Lemma reads_only_emits {A} P (m : M A) : reads_only m → emits P m.
Proof. intros H w. rewrite H. apply extends_refl. Qed.

Lemma reads_only_keeps {A} (m : M A) : reads_only m → keeps_environ m.
Proof. intros H w. by rewrite H. Qed.

Lemma emits_grist_config_prints self : emits only_print (get_grist_config self).
Proof.
  unfold get_grist_config. apply emits_bind; [apply emits_getitem|intros grist].
  destruct grist; try apply emits_raise.
  apply emits_bind; [|intros; apply emits_ret].
  apply emits_for_each. intros [k v]. cbn [snd].
  destruct v; try apply emits_ret.
  destruct (Str.startswith _ _); [by apply emits_print|apply emits_ret].
Qed.

Lemma emits_grist_field_incomplete P g key : emits P (grist_field_incomplete g key).
Proof.
  unfold grist_field_incomplete. destruct (dict_get key g) as [v|]; [|apply emits_ret].
  destruct (negb (py_truthy v)); [apply emits_ret|].
  destruct v; first [apply emits_ret | apply emits_raise].
Qed.

Lemma emits_validate_grist g keys valid : emits only_print (validate_grist g keys valid).
Proof.
  revert valid. induction keys as [|key keys IH]; intros valid; [apply emits_ret|].
  cbn [validate_grist].
  apply emits_bind; [apply emits_grist_field_incomplete|].
  intros []; [|apply IH].
  apply emits_bind; [by apply emits_print|intros; apply IH].
Qed.

Lemma emits_validate_demarches todo valid : emits only_print (validate_demarches todo valid).
Proof.
  revert valid. induction todo as [|d todo IH]; intros valid; [apply emits_ret|].
  cbn [validate_demarches]. destruct (token_invalid (api_token d));
    (apply emits_bind; [by apply emits_print|intros; apply IH]).
Qed.

Lemma emits_validate_configuration self : emits only_print (validate_configuration self).
Proof.
  unfold validate_configuration.
  apply emits_bind; [by apply emits_print|intros].
  apply emits_bind; [apply emits_grist_config_prints|intros g].
  apply emits_bind; [apply emits_validate_grist|intros valid].
  apply emits_bind; [destruct valid; [by apply emits_print|apply emits_ret]|intros].
  apply emits_bind; [by apply emits_print|intros].
  apply emits_bind; [apply emits_validate_demarches|intros valid'].
  apply emits_bind; [destruct valid'; by apply emits_print|intros; apply emits_ret].
Qed.

Lemma only_print_quiet ev : only_print ev → quiet ev.
Proof. by destruct ev. Qed.

Lemma emits_load_demarches config : emits only_print (_load_demarches config).
Proof.
  intros w. destruct (_load_demarches config w) as [jobs w'|e w'] eqn:E.
  - by apply load_demarches_invariant in E as (_ & _ & X & _).
  - cbn. revert E. rewrite load_demarches_unfold.
    destruct (getitem "demarches" config w) as [section w1|]; [|intros [= _ <-]; apply extends_refl].
    destruct (iterate section w) as [entries w2|]; [|intros [= _ <-]; apply extends_refl].
    clear. generalize (@nil DemarcheConfig). revert w.
    induction entries as [|x entries IH]; intros w acc; [done|].
    cbn [load_entries]. unfold bind at 1.
    pose proof (load_entry_outcome x w) as Ho.
    destruct (load_entry x w) as [loaded w1|e1 w1].
    + destruct Ho as (_ & _ & ->). intros H. apply IH in H.
      eapply extends_trans; [|exact H]. apply extends_logged.
      unfold entry_warnings. destruct (entry_skipped x); by repeat constructor.
    + destruct Ho as [_ ->]. intros [= _ <-]. apply extends_refl.
Qed.

Lemma emits_init os path : emits quiet (init os path).
Proof.
  unfold init.
  apply emits_bind; [by apply emits_load_dotenv|intros _].
  apply emits_bind; [apply reads_only_emits, load_config_state|intros config].
  apply emits_bind; [|intros; apply emits_ret].
  eapply emits_impl; [apply only_print_quiet|apply emits_load_demarches].
Qed.

Lemma keeps_environ_load_demarches config : keeps_environ (_load_demarches config).
Proof.
  intros w. destruct (_load_demarches config w) as [jobs w'|e w'] eqn:E.
  - by apply load_demarches_invariant in E as (_ & X & _).
  - cbn. revert E. rewrite load_demarches_unfold.
    destruct (getitem "demarches" config w) as [section w1|]; [|by intros [= _ <-]].
    destruct (iterate section w) as [entries w2|]; [|by intros [= _ <-]].
    clear. generalize (@nil DemarcheConfig). revert w.
    induction entries as [|x entries IH]; intros w acc; [done|].
    cbn [load_entries]. unfold bind at 1.
    pose proof (load_entry_outcome x w) as Ho.
    destruct (load_entry x w) as [loaded w1|e1 w1].
    + destruct Ho as (_ & _ & ->). intros H. by apply IH in H.
    + destruct Ho as [_ ->]. by intros [= _ <-].
Qed.

Lemma writes_only_init os path : writes_only (dotenv_file os).*1 (init os path).
Proof.
  unfold init.
  apply writes_only_bind; [by apply writes_only_load_dotenv|intros _].
  apply writes_only_bind;
    [apply keeps_writes_only, reads_only_keeps, load_config_state|intros config].
  apply writes_only_bind; [|by intros].
  apply keeps_writes_only, keeps_environ_load_demarches.
Qed.

Lemma writes_only_weaken {A} slots slots' (m : M A) :
  slots ⊆ slots' → writes_only slots m → writes_only slots' m.
Proof. intros Hs H w k Hk. apply H. intros Hin. by apply Hk, Hs. Qed.

Lemma main_prelude_state builtins os args c k :
  main builtins os args c =
  main_try (main_body builtins os args)
    (λ e, main_bind (say (MainFatal (exn_str e)))
            (λ _, main_bind (if Args.debug args then say MainTraceback else say MainUseDebug)
                    (λ _, main_ret 1)))
    (if Args.debug args then
       {| process := debug_environ args (process c);
          lines := (length (log (process c)), MainDebugOn) :: lines c |}
     else c) ∧
  (k ≠ "LOG_LEVEL" → environ (debug_environ args (process c)) !! k = environ (process c) !! k) ∧
  log (debug_environ args (process c)) = log (process c).
Proof.
  unfold main, debug_environ. destruct (Args.debug args); [|done].
  split; [done|]. split; [|done]. intros Hk. cbn. by apply lookup_insert_ne.
Qed.

(** Property X18.  When the path of the configuration does not exist,
    [main] returns 1 and has done nothing to the process but the setting of
    [LOG_LEVEL] under [--debug]: the [.env] file is not read and no manager is
    built. *)
Theorem main_stops_without_configuration_file (builtins : Builtins) (os : Platform)
    (args : Args.t) (c : Console) :
  os_path_exists builtins (Args.config args) = false →
  ∃ c', main builtins os args c = Done 1 c' ∧
        process c' = debug_environ args (process c).
Proof.
  intros H. destruct (main_prelude_state builtins os args c "") as (-> & _).
  unfold main_try, main_body. unfold main_bind at 1. cbn [say].
  unfold main_bind at 1. cbn [say]. rewrite H. cbn [negb].
  unfold main_bind, say, main_ret. cbn.
  eexists. split; [reflexivity|]. cbn. unfold debug_environ. by destruct (Args.debug args).
Qed.

Ltac main_emits_step :=
  first
    [ apply main_emits_ret
    | apply main_emits_say
    | apply main_emits_for_each; intros ?
    | apply main_emits_bind; [|intros ?]
    | match goal with
      | |- main_emits _ (if ?b then _ else _) => destruct b
      | |- main_emits _ (match ?x with _ => _ end) => destruct x
      end ].

Ltac main_writes_step :=
  first
    [ apply main_writes_only_ret
    | apply main_writes_only_say
    | apply main_writes_only_for_each; intros ?
    | apply main_writes_only_bind; [|intros ?]
    | match goal with
      | |- main_writes_only _ (if ?b then _ else _) => destruct b
      | |- main_writes_only _ (match ?x with _ => _ end) => destruct x
      end ].

Lemma main_emits_handler P (debug : bool) e :
  main_emits P (main_bind (say (MainFatal (exn_str e)))
                  (λ _, main_bind (if debug then say MainTraceback else say MainUseDebug)
                          (λ _, main_ret 1))).
Proof. repeat main_emits_step. Qed.

Lemma main_writes_only_handler slots (debug : bool) e :
  main_writes_only slots
    (main_bind (say (MainFatal (exn_str e)))
       (λ _, main_bind (if debug then say MainTraceback else say MainUseDebug)
               (λ _, main_ret 1))).
Proof. repeat main_writes_step. Qed.

Lemma main_emits_prelude P (debug : bool) :
  main_emits P (if debug then
                  main_bind (call (setenv "LOG_LEVEL" (JStr "DEBUG"))) (λ _, say MainDebugOn)
                else main_ret tt).
Proof.
  destruct debug; [|apply main_emits_ret].
  apply main_emits_bind; [|intros; apply main_emits_say].
  apply main_emits_call, emits_setenv.
Qed.

Lemma main_writes_only_prelude slots (debug : bool) :
  "LOG_LEVEL" ∈ slots →
  main_writes_only slots
    (if debug then
       main_bind (call (setenv "LOG_LEVEL" (JStr "DEBUG"))) (λ _, say MainDebugOn)
     else main_ret tt).
Proof.
  intros H. destruct debug; [|apply main_writes_only_ret].
  apply main_writes_only_bind; [|intros; apply main_writes_only_say].
  by apply main_writes_only_call, writes_only_setenv.
Qed.

Lemma main_body_check_only_emits builtins os args :
  check_only args = true → main_emits quiet (main_body builtins os args).
Proof.
  unfold check_only, main_body. intros ->.
  do 2 (apply main_emits_bind; [apply main_emits_say|intros _]).
  destruct (negb _); [repeat main_emits_step|].
  apply main_emits_bind; [apply main_emits_call, emits_init|intros manager].
  apply main_emits_bind; [apply main_emits_say|intros _].
  apply main_emits_bind; [repeat main_emits_step|intros _].
  apply main_emits_bind; [|intros []; repeat main_emits_step].
  apply main_emits_call. eapply emits_impl; [apply only_print_quiet|].
  apply emits_validate_configuration.
Qed.

Lemma main_body_check_only_writes builtins os args :
  check_only args = true →
  main_writes_only ("LOG_LEVEL" :: (dotenv_file os).*1) (main_body builtins os args).
Proof.
  unfold check_only, main_body. intros ->.
  do 2 (apply main_writes_only_bind; [apply main_writes_only_say|intros _]).
  destruct (negb _); [repeat main_writes_step|].
  apply main_writes_only_bind; [|intros manager].
  { apply main_writes_only_call. eapply writes_only_weaken; [|apply writes_only_init].
    intros x Hx. by apply list_elem_of_further. }
  apply main_writes_only_bind; [apply main_writes_only_say|intros _].
  apply main_writes_only_bind; [repeat main_writes_step|intros _].
  apply main_writes_only_bind; [|intros []; repeat main_writes_step].
  apply main_writes_only_call, keeps_writes_only, keeps_environ_validate_configuration.
Qed.

Lemma for_each_say_process {A} (f : A → main_message) xs c u c' :
  main_for_each xs (λ x, say (f x)) c = Done u c' → process c' = process c.
Proof.
  revert c. induction xs as [|x xs IH]; intros c; [by intros [= _ <-]|].
  cbn [main_for_each]. intros (? & ? & [= <- <-] & H)%main_bind_done.
  by apply IH in H.
Qed.

Lemma main_body_check_only_valid builtins os args c c' :
  check_only args = true →
  main_body builtins os args c = Done 0 c' →
  ∃ manager w1 w2,
    init os (Args.config args) (process c) = Returns manager w1 ∧
    validate_configuration manager w1 = Returns true w2.
Proof.
  unfold check_only, main_body. intros ->.
  intros (u1 & c1 & [= <- <-] & H)%main_bind_done.
  apply main_bind_done in H as (u2 & c2 & [= <- <-] & H).
  destruct (negb _).
  { apply main_bind_done in H as (? & ? & _ & H).
    by apply main_bind_done in H as (? & ? & _ & [= ?]). }
  apply main_bind_done in H as (manager & c3 & Hi & H).
  apply main_bind_done in H as (u4 & c4 & [= <- <-] & H).
  apply main_bind_done in H as (u5 & c5 & H5 & H).
  apply main_bind_done in H as (valid & c6 & Hv & H).
  unfold call in Hi. cbn [process] in Hi.
  destruct (init os (Args.config args) (process c)) as [m w1|] eqn:Ei; [|done].
  injection Hi as -> <-. exists manager, w1.
  assert (process c5 = w1) as Hp.
  { destruct (Args.debug args).
    - apply main_bind_done in H5 as (? & ? & [= <- <-] & H5).
      by apply for_each_say_process in H5.
    - unfold main_ret in H5. by injection H5 as _ <-. }
  unfold call in Hv. rewrite Hp in Hv.
  destruct (validate_configuration manager w1) as [v w2|] eqn:Ev; [|done].
  injection Hv as -> <-. exists w2.
  destruct valid; [done|].
  by apply main_bind_done in H as (? & ? & _ & [= ?]).
Qed.

(** Property X19.  Under [--validate-only] or [--dry-run], [main] neither
    stages nor synchronises: the process only prints and reads the [.env]
    file, and no variable is written apart from [LOG_LEVEL] and those of the
    [.env] file.  The exit code is 0 only when a manager was built and its
    validation returned [True]. *)
Theorem main_check_only_is_quiet (builtins : Builtins) (os : Platform)
    (args : Args.t) (c : Console) :
  check_only args = true →
  extends quiet (process c) (process (console_after (main builtins os args c))) ∧
  (∀ k, k ≠ "LOG_LEVEL" → k ∉ (dotenv_file os).*1 →
     environ (process (console_after (main builtins os args c))) !! k
     = environ (process c) !! k) ∧
  (∀ c', main builtins os args c = Done 0 c' →
     ∃ manager w1 w2,
       init os (Args.config args) (debug_environ args (process c)) = Returns manager w1 ∧
       validate_configuration manager w1 = Returns true w2).
Proof.
  intros Hc. split; [|split].
  - assert (main_emits quiet (main builtins os args)) as H; [|apply H].
    unfold main. apply main_emits_bind; [apply main_emits_prelude|intros _].
    apply main_emits_try; [by apply main_body_check_only_emits|].
    intros e. apply main_emits_handler.
  - intros k Hk Hd.
    assert (main_writes_only ("LOG_LEVEL" :: (dotenv_file os).*1) (main builtins os args)) as H.
    { unfold main. apply main_writes_only_bind;
        [apply main_writes_only_prelude, list_elem_of_here|intros _].
      apply main_writes_only_try; [by apply main_body_check_only_writes|].
      intros e. apply main_writes_only_handler. }
    apply H. intros Hin. apply elem_of_cons in Hin as [?|?]; done.
  - intros c'. destruct (main_prelude_state builtins os args c "") as (-> & _).
    unfold main_try.
    match goal with |- match main_body _ _ _ ?c0 with _ => _ end = _ → _ =>
      destruct (main_body builtins os args c0) as [code c1|e c1] eqn:E end.
    + intros [= -> <-]. apply main_body_check_only_valid in E; [|done].
      revert E. unfold debug_environ. by destruct (Args.debug args).
    + intros H. apply main_bind_done in H as (? & ? & _ & H).
      apply main_bind_done in H as (? & ? & _ & H). discriminate.
Qed.


Lemma parse_numbers_fails builtins parts acc c x text :
  x ∈ parts → str_strip builtins x ≠ "" →
  int_of_str builtins (str_strip builtins x) = inl text →
  ∃ text', parse_numbers builtins parts acc c = Failed (ValueError text') c.
Proof.
  intros Hx Hs Hi. revert acc. induction parts as [|y parts IH]; intros acc.
  { by apply elem_of_nil in Hx. }
  cbn [parse_numbers]. apply elem_of_cons in Hx as [<-|Hx].
  - destruct (String.eqb_spec (str_strip builtins x) "") as [E|_]; [done|].
    rewrite Hi. by eexists.
  - destruct (String.eqb (str_strip builtins y) ""); [by apply IH|].
    destruct (int_of_str builtins (str_strip builtins y)); [by eexists|by apply IH].
Qed.

Lemma run_sync_malformed builtins os args manager c s x text :
  Args.demarches args = Some s → s ≠ "" →
  x ∈ str_split "," s → str_strip builtins x ≠ "" →
  int_of_str builtins (str_strip builtins x) = inl text →
  ∃ c', run_sync builtins os args manager c = Done None c' ∧ process c' = process c.
Proof.
  intros Ha Hne Hx Hs Hi. unfold run_sync, selection. rewrite Ha.
  destruct (String.eqb_spec s "") as [E|_]; [done|].
  unfold main_try_value_error. unfold main_bind at 1.
  destruct (parse_numbers_fails builtins (str_split "," s) [] c x text Hx Hs Hi) as [text' ->].
  by eexists.
Qed.

Lemma main_body_malformed builtins os args s x text :
  check_only args = false →
  Args.demarches args = Some s → s ≠ "" →
  x ∈ str_split "," s → str_strip builtins x ≠ "" →
  int_of_str builtins (str_strip builtins x) = inl text →
  main_yields (λ code, code = 1) (main_body builtins os args) ∧
  main_emits quiet (main_body builtins os args).
Proof.
  intros Hc Ha Hne Hx Hs Hi. unfold check_only in Hc. unfold main_body. rewrite Hc.
  assert (∀ manager, main_yields (λ ran, ran = None) (run_sync builtins os args manager)) as Hy.
  { intros manager c ran c' E.
    destruct (run_sync_malformed builtins os args manager c s x text) as (c1 & E1 & _); try done.
    rewrite E1 in E. by injection E as <- _. }
  assert (∀ manager, main_emits quiet (run_sync builtins os args manager)) as He.
  { intros manager c.
    destruct (run_sync_malformed builtins os args manager c s x text) as (c1 & -> & E1); try done.
    cbn. rewrite E1. apply extends_refl. }
  split.
  - do 2 (apply main_yields_bind; intros _).
    destruct (negb _); [by repeat main_yields_step|].
    do 4 (apply main_yields_bind; intros ?).
    destruct (negb _); [by repeat main_yields_step|].
    intros c code c' (ran & c1 & Hr & H)%main_bind_done.
    apply Hy in Hr as ->. by injection H as <- _.
  - do 2 (apply main_emits_bind; [apply main_emits_say|intros _]).
    destruct (negb _); [repeat main_emits_step|].
    apply main_emits_bind; [apply main_emits_call, emits_init|intros manager].
    apply main_emits_bind; [apply main_emits_say|intros _].
    apply main_emits_bind; [repeat main_emits_step|intros _].
    apply main_emits_bind; [|intros valid].
    { apply main_emits_call. eapply emits_impl; [apply only_print_quiet|].
      apply emits_validate_configuration. }
    destruct (negb valid); [repeat main_emits_step|].
    apply main_emits_bind; [apply He|intros ran]. repeat main_emits_step.
Qed.

(** Property X20.  When an item of [--demarches] is not blank and is not a
    number, a synchronising [main] returns 1 without a staging or a
    synchronisation, also for the identifiers listed before that item. *)
Theorem main_rejects_malformed_selection (builtins : Builtins) (os : Platform)
    (args : Args.t) (c : Console) (s x text : string) :
  check_only args = false →
  Args.demarches args = Some s → s ≠ "" →
  x ∈ str_split "," s →
  str_strip builtins x ≠ "" →
  int_of_str builtins (str_strip builtins x) = inl text →
  ∃ c', main builtins os args c = Done 1 c' ∧ extends quiet (process c) (process c').
Proof.
  intros Hc Ha Hne Hx Hs Hi.
  destruct (main_body_malformed builtins os args s x text) as [Hy He]; try done.
  destruct (main_total_main builtins os args c) as (code & c' & E).
  assert (code = 1) as ->.
  { revert E. apply (main_yields_bind (λ code, code = 1)); intros _.
    apply main_yields_try; [done|]. intros e. by repeat main_yields_step. }
  exists c'. split; [done|].
  assert (main_emits quiet (main builtins os args)) as H.
  { unfold main. apply main_emits_bind; [apply main_emits_prelude|intros _].
    apply main_emits_try; [done|]. intros e. apply main_emits_handler. }
  specialize (H c). by rewrite E in H.
Qed.


Lemma did_sync_after w0 w1 w2 :
  extends any_event w0 w1 → did_sync w1 w2 → did_sync w0 w2.
Proof.
  intros (evs1 & E1 & _) (evs2 & E2 & X). exists (evs2 ++ evs1).
  split; [by rewrite E2, E1, app_assoc|]. apply Exists_app. by left.
Qed.

Lemma did_sync_before w0 w1 w2 :
  did_sync w0 w1 → extends any_event w1 w2 → did_sync w0 w2.
Proof.
  intros (evs1 & E1 & X) (evs2 & E2 & _). exists (evs2 ++ evs1).
  split; [by rewrite E2, E1, app_assoc|]. apply Exists_app. by right.
Qed.

Lemma extends_any P w w' : extends P w w' → extends any_event w w'.
Proof. apply extends_impl. by intros. Qed.

Lemma emits_any {A} P (m : M A) : emits P m → emits any_event m.
Proof. apply emits_impl. by intros. Qed.

Lemma returns_extends {A} (m : M A) w a w' :
  emits any_event m → m w = Returns a w' → extends any_event w w'.
Proof. intros H E. specialize (H w). by rewrite E in H. Qed.

Lemma sync_single_synced os self d w r w' :
  _sync_single_demarche os self d w = Returns r w' →
  extends any_event w w' ∧ (success r = true → did_sync w w').
Proof.
  intros H. split.
  { pose proof (sync_single_demarche_returns os self d w) as Hs. unfold wp in Hs.
    rewrite H in Hs. destruct Hs as (_ & _ & _ & X). by eapply extends_any. }
  intros Hok. unfold _sync_single_demarche in H.
  apply bind_returns in H as (start_time & w0 & [= <- <-] & H).
  unfold try_except in H.
  match type of H with match ?body w with _ => _ end = _ =>
    destruct (body w) as [r1 w1|e w1] eqn:Eb end.
  2:{ apply bind_returns in H as (? & ? & _ & H).
      apply bind_returns in H as (? & ? & _ & [= <- _]). done. }
  injection H as -> ->.
  apply bind_returns in Eb as (failed & w2 & [= <- <-] & Eb).
  apply bind_returns in Eb as (u1 & w3 & H1 & Eb).
  assert (w3 = w) as ->.
  { destruct (import_grist_processor os w); [done|by injection H1]. }
  apply bind_returns in Eb as (g & w4 & Hg & Eb).
  apply (returns_extends _ _ _ _ (emits_any _ _ (emits_get_grist_config self))) in Hg as Xg.
  apply bind_returns in Eb as (base_url & w5 & H5 & Eb).
  apply getitem_returns in H5 as (? & _ & _ & ->).
  apply bind_returns in Eb as (api_key & w6 & H6 & Eb).
  apply getitem_returns in H6 as (? & _ & _ & ->).
  apply bind_returns in Eb as (doc_id & w7 & H7 & Eb).
  apply getitem_returns in H7 as (? & _ & _ & ->).
  apply bind_returns in Eb as (failed2 & w8 & [= <- <-] & Eb).
  apply bind_returns in Eb as (u2 & w9 & H9 & Eb).
  assert (w9 = w4) as ->.
  { destruct (GristClient os w4 base_url api_key doc_id); [done|by injection H9]. }
  apply bind_returns in Eb as (parallel & w10 & H10 & Eb).
  apply get_returns in H10 as [_ ->].
  apply bind_returns in Eb as (batch_size & w11 & H11 & Eb).
  apply get_returns in H11 as [_ ->].
  apply bind_returns in Eb as (max_workers & w12 & H12 & Eb).
  apply get_returns in H12 as [_ ->].
  apply bind_returns in Eb as (outcome & w13 & [= <- <-] & Eb).
  apply bind_returns in Eb as (u3 & w14 & [= <- <-] & Eb).
  destruct (process_demarche_for_grist_optimized os w4 (number d) parallel batch_size
              max_workers) as [text|ok] eqn:Eo; [done|].
  apply bind_returns in Eb as (end_time & w15 & [= <- <-] & [= <- <-]).
  cbn in Hok. subst ok.
  eapply did_sync_after; [exact Xg|].
  eexists [_]. split; [reflexivity|]. by constructor.
Qed.

Lemma extends_any_cons ev w :
  extends any_event w {| environ := environ w; log := ev :: log w |}.
Proof. by apply extends_cons. Qed.

Lemma extends_any_cons2 ev1 ev2 w :
  extends any_event w {| environ := environ w; log := ev2 :: ev1 :: log w |}.
Proof. exists [ev2; ev1]. split; [done|]. by repeat constructor. Qed.

Lemma pause_extends (b : bool) w u w' :
  (if b then pause else ret tt) w = Returns u w' → extends any_event w w'.
Proof.
  destruct (extends_pause any_event b w I I) as (w1 & -> & _ & X). by intros [= _ <-].
Qed.

Lemma sync_all_loop_synced os self total i todo acc w results w' :
  sync_all_loop os self total i todo acc w = Returns results w' →
  ∃ new, results = acc ++ new ∧ extends any_event w w' ∧
         (Exists (λ r, success r = true) new → did_sync w w').
Proof.
  revert i acc w. induction todo as [|d rest IH]; intros i acc w H.
  - injection H as <- <-. exists []. rewrite app_nil_r.
    split; [done|]. split; [apply extends_refl|]. by intros ?%Exists_nil.
  - cbn [sync_all_loop] in H.
    apply bind_returns in H as (u & w1 & [= <- <-] & H).
    apply bind_returns in H as (staged & w2 & Hs & H).
    assert (extends any_event w w2) as X2.
    { eapply extends_trans; [apply extends_any_cons|].
      eapply returns_extends; [|exact Hs]. eapply emits_any, emits_set_environment. }
    destruct staged; cbn [negb] in H.
    + apply bind_returns in H as (r & w3 & Hr & H).
      apply sync_single_synced in Hr as [X3 D3].
      apply bind_returns in H as (u4 & w4 & Hp & H).
      apply pause_extends in Hp as X4.
      apply IH in H as (new & -> & X5 & D5).
      exists (r :: new). rewrite <- app_assoc. split; [done|].
      split; [by do 3 (eapply extends_trans; [eassumption|])|].
      intros [Hr|Hn]%Exists_cons.
      * eapply did_sync_after; [exact X2|].
        eapply did_sync_before; [by apply D3|]. by eapply extends_trans.
      * eapply did_sync_after; [|by apply D5].
        by do 2 (eapply extends_trans; [eassumption|]).
    + apply IH in H as (new & -> & X5 & D5).
      exists (environment_failure (number d) (name d) :: new).
      rewrite <- app_assoc. split; [done|].
      split; [by eapply extends_trans|].
      intros [Hr|Hn]%Exists_cons; [done|].
      eapply did_sync_after; [exact X2|by apply D5].
Qed.

Lemma sync_specific_loop_synced os self force final todo acc w results w' :
  sync_specific_loop os self force final todo acc w = Returns results w' →
  ∃ new, results = acc ++ new ∧ extends any_event w w' ∧
         (Exists (λ r, success r = true) new → did_sync w w').
Proof.
  revert acc w. induction todo as [|n rest IH]; intros acc w H.
  - injection H as <- <-. exists []. rewrite app_nil_r.
    split; [done|]. split; [apply extends_refl|]. by intros ?%Exists_nil.
  - cbn [sync_specific_loop] in H.
    destruct (get_demarche_config self n) as [d|] eqn:E.
    + destruct (negb (py_truthy (enabled d)) && negb force).
      * apply bind_returns in H as (u1 & w1 & [= <- <-] & H).
        apply bind_returns in H as (u2 & w2 & [= <- <-] & H).
        apply IH in H as (new & -> & X5 & D5). exists new. split; [done|].
        assert (extends any_event w
                  {| environ := environ w;
                     log := Output InfoUseForce :: Output (WarnDisabled n (name d)) :: log w |})
          as X0.
        { apply extends_any_cons2. }
        split; [by eapply extends_trans|].
        intros Hn. eapply did_sync_after; [exact X0|by apply D5].
      * apply bind_returns in H as (u & w1 & [= <- <-] & H).
        apply bind_returns in H as (staged & w2 & Hs & H).
        assert (extends any_event w w2) as X2.
        { eapply extends_trans; [apply extends_any_cons|].
          eapply returns_extends; [|exact Hs]. eapply emits_any, emits_set_environment. }
        destruct staged; cbn [negb] in H.
        -- apply bind_returns in H as (r & w3 & Hr & H).
           apply sync_single_synced in Hr as [X3 D3].
           apply bind_returns in H as (u4 & w4 & Hp & H).
           apply pause_extends in Hp as X4.
           apply IH in H as (new & -> & X5 & D5).
           exists (r :: new). rewrite <- app_assoc. split; [done|].
           split; [by do 3 (eapply extends_trans; [eassumption|])|].
           intros [Hr|Hn]%Exists_cons.
           ++ eapply did_sync_after; [exact X2|].
              eapply did_sync_before; [by apply D3|]. by eapply extends_trans.
           ++ eapply did_sync_after; [|by apply D5].
              by do 2 (eapply extends_trans; [eassumption|]).
        -- apply IH in H as (new & -> & X5 & D5).
           exists (environment_failure n (name d) :: new).
           rewrite <- app_assoc. split; [done|].
           split; [by eapply extends_trans|].
           intros [Hr|Hn]%Exists_cons; [done|].
           eapply did_sync_after; [exact X2|by apply D5].
    + apply bind_returns in H as (u1 & w1 & [= <- <-] & H).
      apply bind_returns in H as (u2 & w2 & [= <- <-] & H).
      apply IH in H as (new & -> & X5 & D5).
      exists (not_found_failure os n :: new). rewrite <- app_assoc. split; [done|].
      assert (extends any_event w
                {| environ := environ w;
                   log := Output (InfoAvailable (number <$> demarches self))
                          :: Output (ErrDemarcheNotFound n) :: log w |}) as X0.
      { apply extends_any_cons2. }
      split; [by eapply extends_trans|].
      intros [Hr|Hn]%Exists_cons; [done|].
      eapply did_sync_after; [exact X0|by apply D5].
Qed.

Lemma sync_all_synced os self w results w' :
  sync_all_demarches os self w = Returns results w' →
  Exists (λ r, success r = true) results → did_sync w w'.
Proof.
  unfold sync_all_demarches. intros (u & w1 & [= <- <-] & H)%bind_returns.
  apply bind_returns in H as (rs & w2 & H & H').
  apply bind_returns in H' as (u2 & w3 & [= <- <-] & [= <- <-]).
  apply sync_all_loop_synced in H as (new & -> & X & D). cbn [app].
  intros Hn. eapply did_sync_after; [apply extends_any_cons|].
  eapply did_sync_before; [by apply D|apply extends_any_cons].
Qed.

Lemma sync_specific_synced os self ids force w results w' :
  sync_specific_demarches os self ids force w = Returns results w' →
  Exists (λ r, success r = true) results → did_sync w w'.
Proof.
  unfold sync_specific_demarches. intros (u & w1 & [= <- <-] & H)%bind_returns.
  apply bind_returns in H as (rs & w2 & H & H').
  apply bind_returns in H' as (u2 & w3 & Hp & [= <- <-]).
  apply sync_specific_loop_synced in H as (new & -> & X & D). cbn [app] in *.
  intros Hn. eapply did_sync_after; [apply extends_any_cons|].
  eapply did_sync_before; [by apply D|].
  destruct new; injection Hp as Hp; subst w3; apply extends_any_cons.
Qed.

Lemma call_done {A} (m : M A) c a c' :
  call m c = Done a c' → m (process c) = Returns a (process c').
Proof. unfold call. destruct (m (process c)); [|done]. by intros [= <- <-]. Qed.

Lemma say_done m c u c' : say m c = Done u c' → process c' = process c.
Proof. by intros [= _ <-]. Qed.

Lemma parse_numbers_done builtins parts acc c ids c' :
  parse_numbers builtins parts acc c = Done ids c' → c' = c.
Proof.
  revert acc. induction parts as [|x parts IH]; intros acc; [by intros [= _ <-]|].
  cbn [parse_numbers]. destruct (String.eqb _ _); [apply IH|].
  destruct (int_of_str _ _); [done|apply IH].
Qed.

Lemma run_sync_results builtins os args manager c results c' :
  run_sync builtins os args manager c = Done (Some results) c' →
  (∃ ids, sync_specific_demarches os manager ids (Args.force args) (process c)
          = Returns results (process c')) ∨
  sync_all_demarches os manager (process c) = Returns results (process c').
Proof.
  unfold run_sync. destruct (selection args) as [s|].
  - unfold main_try_value_error.
    match goal with |- match ?body c with _ => _ end = _ → _ =>
      destruct (body c) as [ran c1|e c1] eqn:Eb end.
    + intros [= -> ->]. left.
      apply main_bind_done in Eb as (ids & c2 & Hp & Eb).
      apply parse_numbers_done in Hp as ->.
      apply main_bind_done in Eb as (u & c3 & Hs & Eb).
      apply say_done in Hs as Hs'.
      apply main_bind_done in Eb as (rs & c4 & Hc & [= -> ->]).
      apply call_done in Hc. rewrite Hs' in Hc. by exists ids.
    + by destruct e.
  - intros (rs & c1 & Hc & [= -> ->])%main_bind_done. right. by apply call_done.
Qed.

Lemma success_count_positive (results : list SyncResult) :
  (0 <? length (List.filter success results))%nat = true →
  Exists (λ r, success r = true) results.
Proof.
  induction results as [|r rs IH]; [done|]. cbn [List.filter].
  destruct (success r) eqn:E; [by left|]. intros H. right. by apply IH.
Qed.

Lemma main_body_success builtins os args c c' :
  check_only args = false →
  main_body builtins os args c = Done 0 c' →
  did_sync (process c) (process c').
Proof.
  unfold check_only, main_body. intros ->.
  intros (u1 & c1 & H1%say_done & H)%main_bind_done.
  apply main_bind_done in H as (u2 & c2 & H2%say_done & H).
  destruct (negb _).
  { apply main_bind_done in H as (? & ? & _ & H).
    by apply main_bind_done in H as (? & ? & _ & [= ?]). }
  apply main_bind_done in H as (manager & c3 & Hi%call_done & H).
  apply main_bind_done in H as (u4 & c4 & H4%say_done & H).
  apply main_bind_done in H as (u5 & c5 & H5 & H).
  assert (process c5 = process c4) as H5'.
  { destruct (Args.debug args).
    - apply main_bind_done in H5 as (? & ? & Hs%say_done & H5).
      apply for_each_say_process in H5. congruence.
    - unfold main_ret in H5. by injection H5 as _ <-. }
  apply main_bind_done in H as (valid & c6 & Hv%call_done & H).
  destruct valid; cbn [negb] in H.
  2:{ apply main_bind_done in H as (? & ? & _ & H). by injection H. }
  apply main_bind_done in H as (ran & c7 & Hr & H).
  destruct ran as [results|]; [|by injection H].
  destruct (0 <? length (List.filter success results))%nat eqn:Hn.
  2:{ apply main_bind_done in H as (? & ? & _ & H). by injection H. }
  apply main_bind_done in H as (u8 & c8 & H8%say_done & [= ->]).
  apply success_count_positive in Hn.
  rewrite H8.
  assert (extends any_event (process c) (process c6)) as X.
  { rewrite <- H1 at 1. rewrite <- H2.
    eapply extends_trans.
    - eapply returns_extends; [|exact Hi]. eapply emits_any, emits_init.
    - rewrite <- H4, <- H5'.
      eapply returns_extends; [|exact Hv]. eapply emits_any, emits_validate_configuration. }
  eapply did_sync_after; [exact X|].
  apply run_sync_results in Hr as [[ids Hr]|Hr].
  - by eapply sync_specific_synced.
  - by eapply sync_all_synced.
Qed.

(** Property X21.  A synchronising [main] returns 0 only when the
    collaborator has returned [True] for at least one job. *)
Theorem main_success_means_a_job_synced (builtins : Builtins) (os : Platform)
    (args : Args.t) (c c' : Console) :
  check_only args = false →
  main builtins os args c = Done 0 c' →
  did_sync (process c) (process c').
Proof.
  intros Hc. destruct (main_prelude_state builtins os args c "") as (-> & _ & Hl).
  unfold main_try.
  match goal with |- match main_body _ _ _ ?c0 with _ => _ end = _ → _ =>
    destruct (main_body builtins os args c0) as [code c1|e c1] eqn:E end.
  - intros [= -> <-]. apply main_body_success in E; [|done].
    destruct E as (evs & El & X). exists evs. split; [|done].
    rewrite El. f_equal. revert Hl. unfold debug_environ. by destruct (Args.debug args).
  - intros H. apply main_bind_done in H as (? & ? & _ & H).
    apply main_bind_done in H as (? & ? & _ & H). discriminate.
Qed.


Lemma call_returns {A} (m : M A) c a w :
  m (process c) = Returns a w → call m c = Done a {| process := w; lines := lines c |}.
Proof. unfold call. by intros ->. Qed.

Lemma call_raises {A} (m : M A) c e w :
  m (process c) = Raises e w → call m c = Failed e {| process := w; lines := lines c |}.
Proof. unfold call. by intros ->. Qed.

Lemma for_each_say_done {A} (f : A → main_message) xs c :
  ∃ c', main_for_each xs (λ x, say (f x)) c = Done tt c' ∧ process c' = process c.
Proof.
  revert c. induction xs as [|x xs IH]; intros c; [by eexists|].
  cbn [main_for_each]. unfold main_bind at 1. cbn [say].
  destruct (IH {| process := process c; lines := (length (log (process c)), f x) :: lines c |})
    as (c' & -> & E). by exists c'.
Qed.

Lemma debug_listing_done (debug : bool) (manager : Manager) c :
  ∃ c', (if debug then
           main_bind (say MainAvailable)
             (λ _, main_for_each (demarches manager) (λ d,
                say (MainJob (number d) (name d) (py_truthy (enabled d))
                       (negb (token_invalid (api_token d))))))
         else main_ret tt) c = Done tt c' ∧ process c' = process c.
Proof.
  destruct debug; [|by eexists]. unfold main_bind at 1. cbn [say].
  destruct (for_each_say_done
              (λ d, MainJob (number d) (name d) (py_truthy (enabled d))
                      (negb (token_invalid (api_token d))))
              (demarches manager)
              {| process := process c;
                 lines := (length (log (process c)), MainAvailable) :: lines c |})
    as (c' & -> & E). by exists c'.
Qed.

Lemma main_body_value_error builtins os args c s ids manager w1 w2 text w3 :
  check_only args = false →
  os_path_exists builtins (Args.config args) = true →
  Args.demarches args = Some s → s ≠ "" →
  (∀ c0, parse_numbers builtins (str_split "," s) [] c0 = Done ids c0) →
  init os (Args.config args) (process c) = Returns manager w1 →
  validate_configuration manager w1 = Returns true w2 →
  sync_specific_demarches os manager ids (Args.force args) w2 = Raises (ValueError text) w3 →
  ∃ l, main_body builtins os args c
       = Done 1 {| process := w3;
                   lines := (length (log w3), MainYourInput s)
                            :: (length (log w3), MainExpectedFormat)
                            :: (length (log w3), MainSelectionError s) :: l |}.
Proof.
  intros Hc He Ha Hne Hp Hi Hv Hs. unfold check_only in Hc. unfold main_body.
  unfold main_bind at 1. cbn [say]. unfold main_bind at 1. cbn [say].
  rewrite He, Hc. cbn [negb].
  erewrite main_bind_step by (apply call_returns; exact Hi).
  unfold main_bind at 1. cbn [say process lines].
  match goal with |- context [main_bind _ _ ?c4] =>
    destruct (debug_listing_done (Args.debug args) manager c4) as (c5 & E5 & P5) end.
  rewrite (main_bind_step _ _ _ _ _ E5). cbn [process] in P5.
  erewrite main_bind_step by (apply call_returns; rewrite P5; exact Hv).
  cbn [negb].
  unfold main_bind at 1, run_sync, selection. rewrite Ha.
  destruct (String.eqb_spec s "") as [E|_]; [done|].
  unfold main_try_value_error. unfold main_bind at 1. rewrite Hp.
  unfold main_bind at 1. cbn [say process lines].
  unfold main_bind at 1.
  erewrite call_raises by (cbn [process]; exact Hs).
  cbn. by eexists.
Qed.

(** Property X22.  A [ValueError] that the synchronisation of a selection
    raises, as the staging does for a value with a null character, is caught
    by the handler of the selection: [main] prints the three lines about a
    selection that cannot be read and returns 1. *)
Theorem main_blames_selection_for_value_error (builtins : Builtins) (os : Platform)
    (args : Args.t) (c : Console) (s : string) (ids : list json) (manager : Manager)
    (w1 w2 : World) (text : string) (w3 : World) :
  check_only args = false →
  os_path_exists builtins (Args.config args) = true →
  Args.demarches args = Some s → s ≠ "" →
  (∀ c0, parse_numbers builtins (str_split "," s) [] c0 = Done ids c0) →
  init os (Args.config args) (debug_environ args (process c)) = Returns manager w1 →
  validate_configuration manager w1 = Returns true w2 →
  sync_specific_demarches os manager ids (Args.force args) w2 = Raises (ValueError text) w3 →
  ∃ l, main builtins os args c
       = Done 1 {| process := w3;
                   lines := (length (log w3), MainYourInput s)
                            :: (length (log w3), MainExpectedFormat)
                            :: (length (log w3), MainSelectionError s) :: l |}.
Proof.
  intros Hc He Ha Hne Hp Hi Hv Hs.
  destruct (main_prelude_state builtins os args c "") as (-> & _).
  unfold main_try.
  match goal with |- context [main_body _ _ _ ?c0] =>
    destruct (main_body_value_error builtins os args c0 s ids manager w1 w2 text w3)
      as [l ->]; try done end.
  - revert Hi. unfold debug_environ. by destruct (Args.debug args).
  - by exists l.
Qed.

(** ** Pauses of the orchestrator *)

Lemma emits_no_sleep_grist_config self : emits no_sleep (get_grist_config self).
Proof. eapply emits_impl; [|apply emits_grist_config_prints]. by intros []. Qed.

Lemma emits_no_sleep_set_environment os self n :
  emits no_sleep (set_environment_for_demarche os self n).
Proof.
  unfold set_environment_for_demarche, stage_context, refresh_modules, probe_access.
  destruct (get_demarche_config self n); [destruct (token_invalid _)|];
    eauto 80 using emits_no_sleep_grist_config with emits.
Qed.

Lemma emits_no_sleep_sync_single os self d : emits no_sleep (_sync_single_demarche os self d).
Proof.
  unfold _sync_single_demarche.
  eauto 80 using emits_no_sleep_grist_config, emits_raise_if_failed with emits.
Qed.

Lemma count_sleeps_app evs1 evs2 :
  count_sleeps (evs1 ++ evs2) = (count_sleeps evs1 + count_sleeps evs2)%nat.
Proof. unfold count_sleeps. by rewrite List.filter_app, length_app. Qed.

Lemma count_no_sleep evs : Forall no_sleep evs → count_sleeps evs = 0%nat.
Proof.
  induction 1 as [|ev evs Hev _ IH]; [done|].
  unfold count_sleeps in *. cbn. by destruct ev.
Qed.

Lemma no_sleep_two ev : no_sleep ev → sleeps_two ev.
Proof. by destruct ev. Qed.

Lemma returns_no_sleep {A} (m : M A) w a w' :
  emits no_sleep m → m w = Returns a w' →
  ∃ evs, log w' = evs ++ log w ∧ count_sleeps evs = 0%nat ∧ Forall sleeps_two evs.
Proof.
  intros H E. specialize (H w). rewrite E in H. destruct H as (evs & El & F).
  exists evs. split; [done|]. split; [by apply count_no_sleep|].
  eapply Forall_impl; [exact F|apply no_sleep_two].
Qed.

Lemma sync_all_loop_sleeps os self total i todo acc w results w' :
  (i + length todo = total + 1)%nat →
  sync_all_loop os self total i todo acc w = Returns results w' →
  ∃ evs, log w' = evs ++ log w ∧
         (count_sleeps evs ≤ length todo - 1)%nat ∧ Forall sleeps_two evs.
Proof.
  revert i acc w. induction todo as [|d rest IH]; intros i acc w Hi H.
  - injection H as _ <-. by exists [].
  - cbn [sync_all_loop] in H. cbn [length] in Hi.
    apply bind_returns in H as (u & w1 & [= <- <-] & H).
    apply bind_returns in H as (staged & w2 & Hs & H).
    apply (returns_no_sleep _ _ _ _ (emits_no_sleep_set_environment os self (number d))) in Hs
      as (evs2 & E2 & C2 & F2). cbn [log] in E2.
    destruct staged; cbn [negb] in H.
    + apply bind_returns in H as (r & w3 & Hr & H).
      apply (returns_no_sleep _ _ _ _ (emits_no_sleep_sync_single os self d)) in Hr
        as (evs3 & E3 & C3 & F3).
      apply bind_returns in H as (u4 & w4 & Hp & H).
      apply IH in H as (evs5 & E5 & C5 & F5); [|lia].
      destruct (i <? total)%nat eqn:Hlt.
      * cbv [pause print emit bind] in Hp. injection Hp as <- <-. cbn [log] in E5.
        exists (evs5 ++ [Sleep 2; Output InfoPause] ++ evs3 ++ evs2
                ++ [Output (InfoSyncIndexed i total (name d) (number d))]).
        split; [rewrite E5, E3, E2; by rewrite <- !app_assoc|].
        apply Nat.ltb_lt in Hlt. split.
        -- rewrite !count_sleeps_app, C3, C2. cbn [length]. unfold count_sleeps at 2 3. cbn. lia.
        -- rewrite !Forall_app. repeat split; try done; by repeat constructor.
      * cbv [ret] in Hp. injection Hp as <- <-.
        exists (evs5 ++ evs3 ++ evs2
                ++ [Output (InfoSyncIndexed i total (name d) (number d))]).
        split; [rewrite E5, E3, E2; by rewrite <- !app_assoc|]. split.
        -- rewrite !count_sleeps_app, C3, C2. cbn [length]. unfold count_sleeps at 2. cbn. lia.
        -- rewrite !Forall_app. repeat split; try done; by repeat constructor.
    + apply IH in H as (evs5 & E5 & C5 & F5); [|lia].
      exists (evs5 ++ evs2 ++ [Output (InfoSyncIndexed i total (name d) (number d))]).
      split; [rewrite E5, E2; by rewrite <- !app_assoc|]. split.
      * rewrite !count_sleeps_app, C2. cbn [length]. unfold count_sleeps at 2. cbn. lia.
      * rewrite !Forall_app. repeat split; try done; by repeat constructor.
Qed.

Lemma sync_specific_loop_sleeps os self force final todo acc w results w' :
  sync_specific_loop os self force final todo acc w = Returns results w' →
  ∃ evs, log w' = evs ++ log w ∧
         (count_sleeps evs ≤ length (List.filter (λ n, negb (py_eq n final)) todo))%nat ∧
         Forall sleeps_two evs.
Proof.
  revert acc w. induction todo as [|n rest IH]; intros acc w H.
  - injection H as _ <-. by exists [].
  - cbn [sync_specific_loop] in H. cbn [List.filter].
    destruct (get_demarche_config self n) as [d|].
    + destruct (negb (py_truthy (enabled d)) && negb force).
      * apply bind_returns in H as (u1 & w1 & [= <- <-] & H).
        apply bind_returns in H as (u2 & w2 & [= <- <-] & H).
        apply IH in H as (evs5 & E5 & C5 & F5). cbn [log] in E5.
        exists (evs5 ++ [Output InfoUseForce; Output (WarnDisabled n (name d))]).
        split; [rewrite E5; by rewrite <- !app_assoc|]. split.
        -- rewrite !count_sleeps_app. unfold count_sleeps at 2. cbn.
           destruct (negb (py_eq n final)); cbn [length]; lia.
        -- rewrite !Forall_app. repeat split; try done; by repeat constructor.
      * apply bind_returns in H as (u & w1 & [= <- <-] & H).
        apply bind_returns in H as (staged & w2 & Hs & H).
        apply (returns_no_sleep _ _ _ _ (emits_no_sleep_set_environment os self n)) in Hs
          as (evs2 & E2 & C2 & F2). cbn [log] in E2.
        destruct staged; cbn [negb] in H.
        -- apply bind_returns in H as (r & w3 & Hr & H).
           apply (returns_no_sleep _ _ _ _ (emits_no_sleep_sync_single os self d)) in Hr
             as (evs3 & E3 & C3 & F3).
           apply bind_returns in H as (u4 & w4 & Hp & H).
           apply IH in H as (evs5 & E5 & C5 & F5).
           destruct (negb (py_eq n final)).
           ++ cbv [pause print emit bind] in Hp. injection Hp as <- <-. cbn [log] in E5.
              exists (evs5 ++ [Sleep 2; Output InfoPause] ++ evs3 ++ evs2
                      ++ [Output (InfoSync (name d) n)]).
              split; [rewrite E5, E3, E2; by rewrite <- !app_assoc|]. split.
              ** rewrite !count_sleeps_app, C3, C2. cbn [length].
                 unfold count_sleeps at 2 3. cbn. lia.
              ** rewrite !Forall_app. repeat split; try done; by repeat constructor.
           ++ cbv [ret] in Hp. injection Hp as <- <-.
              exists (evs5 ++ evs3 ++ evs2 ++ [Output (InfoSync (name d) n)]).
              split; [rewrite E5, E3, E2; by rewrite <- !app_assoc|]. split.
              ** rewrite !count_sleeps_app, C3, C2. unfold count_sleeps at 2. cbn. lia.
              ** rewrite !Forall_app. repeat split; try done; by repeat constructor.
        -- apply IH in H as (evs5 & E5 & C5 & F5).
           exists (evs5 ++ evs2 ++ [Output (InfoSync (name d) n)]).
           split; [rewrite E5, E2; by rewrite <- !app_assoc|]. split.
           ++ rewrite !count_sleeps_app, C2. unfold count_sleeps at 2. cbn.
              destruct (negb (py_eq n final)); cbn [length]; lia.
           ++ rewrite !Forall_app. repeat split; try done; by repeat constructor.
    + apply bind_returns in H as (u1 & w1 & [= <- <-] & H).
      apply bind_returns in H as (u2 & w2 & [= <- <-] & H).
      apply IH in H as (evs5 & E5 & C5 & F5). cbn [log] in E5.
      exists (evs5 ++ [Output (InfoAvailable (number <$> demarches self));
                       Output (ErrDemarcheNotFound n)]).
      split; [rewrite E5; by rewrite <- !app_assoc|]. split.
      * rewrite !count_sleeps_app. unfold count_sleeps at 2. cbn.
        destruct (negb (py_eq n final)); cbn [length]; lia.
      * rewrite !Forall_app. repeat split; try done; by repeat constructor.
Qed.

(** Property X25.  A run over the enabled jobs that returns has paused at
    most once less than there are enabled jobs, and a run over a selection at
    most once for each identifier that differs from the last identifier of
    the selection; every pause lasts two seconds. *)
Theorem pauses_only_between_jobs (os : Platform) (self : Manager) :
  (∀ w results w',
     sync_all_demarches os self w = Returns results w' →
     ∃ evs, log w' = evs ++ log w ∧ Forall sleeps_two evs ∧
            (count_sleeps evs ≤ length (get_enabled_demarches self) - 1)%nat) ∧
  (∀ demarche_numbers force_disabled w results w',
     sync_specific_demarches os self demarche_numbers force_disabled w
     = Returns results w' →
     ∃ evs, log w' = evs ++ log w ∧ Forall sleeps_two evs ∧
            (count_sleeps evs
             ≤ length (List.filter (differs_from (List.last demarche_numbers JNull))
                         demarche_numbers))%nat).
Proof.
  split.
  - intros w results w'. unfold sync_all_demarches.
    intros (u & w1 & [= <- <-] & H)%bind_returns.
    apply bind_returns in H as (rs & w2 & H & H').
    apply bind_returns in H' as (u2 & w3 & [= <- <-] & [= <- <-]).
    apply sync_all_loop_sleeps in H as (evs & E & C & F); [|lia].
    cbn [log] in E |- *.
    exists ([Output (Summary rs)] ++ evs
            ++ [Output (InfoStartAll (length (get_enabled_demarches self)))]).
    split; [rewrite E; by rewrite <- !app_assoc|]. split.
    + rewrite !Forall_app. repeat split; try done; by repeat constructor.
    + rewrite !count_sleeps_app. unfold count_sleeps at 1 3. cbn. lia.
  - intros numbers force w results w'. unfold sync_specific_demarches.
    intros (u & w1 & [= <- <-] & H)%bind_returns.
    apply bind_returns in H as (rs & w2 & H & H').
    apply bind_returns in H' as (u2 & w3 & Hp & [= <- <-]).
    apply sync_specific_loop_sleeps in H as (evs & E & C & F). cbn [log] in E.
    assert (∃ m, log w3 = Output m :: log w2) as [m Em].
    { destruct rs; cbv [print emit] in Hp; injection Hp as <- <-; by eexists. }
    exists ([Output m] ++ evs ++ [Output (InfoSearching numbers)]).
    split; [rewrite Em, E; by rewrite <- !app_assoc|]. split.
    + rewrite !Forall_app. repeat split; try done; by repeat constructor.
    + rewrite !count_sleeps_app. unfold count_sleeps at 1 3. cbn.
      unfold differs_from. lia.
Qed.


(** ** Across the components *)


Lemma NoDup_fmap_eq {A B} (f : A → B) (l : list A) x y :
  NoDup (f <$> l) → x ∈ l → y ∈ l → f x = f y → x = y.
Proof.
  induction l as [|z l IH]; intros Hnd Hx Hy E; [by apply elem_of_nil in Hx|].
  cbn [fmap list_fmap] in Hnd. apply NoDup_cons in Hnd as [Hz Hnd].
  apply elem_of_cons in Hx as [->|Hx]; apply elem_of_cons in Hy as [->|Hy]; [done| | |by apply IH].
  - destruct Hz. rewrite E. by apply list_elem_of_fmap_2.
  - destruct Hz. rewrite <- E. by apply list_elem_of_fmap_2.
Qed.

Lemma py_eq_int a b : is_int a = true → is_int b = true → py_eq a b = true → a = b.
Proof.
  destruct a; try done. destruct b; try done. intros _ _ H. cbn in H.
  apply Z.eqb_eq in H. by subst.
Qed.

Lemma find_none_elem {A} (f : A → bool) (l : list A) :
  (∀ x, x ∈ l → f x = false) → List.find f l = None.
Proof.
  induction l as [|y l IH]; intros H; [done|]. cbn.
  rewrite (H y) by apply list_elem_of_here. apply IH. intros x Hx. apply H.
  by apply list_elem_of_further.
Qed.

(** Property X23.  For a configuration whose entries are well formed and
    have integers for numbers, no two of them equal: an entry that the
    registry leaves out, its token starting with the marker, is unknown to the
    registry, so that a selection which names its number reports it as not
    found. *)
Theorem skipped_entry_is_unknown (self : Manager) (config : dict) (entries : list json)
    (w w' : World) (e : json) :
  dict_get "demarches" config = Some (JList entries) →
  forallb entry_well_formed entries = true →
  Forall (λ x, is_int (entry_number x) = true) entries →
  NoDup (entry_number <$> entries) →
  _load_demarches (JDict config) w = Returns (demarches self) w' →
  e ∈ entries → entry_skipped e = true →
  get_demarche_config self (entry_number e) = None ∧
  unknown self (entry_number e) = true.
Proof.
  intros Hc Hwf Hint Hnd Hl He Hs.
  assert (demarches self
          = job_of_entry <$> List.filter (λ x, negb (entry_skipped x)) entries) as Ej.
  { revert Hl. rewrite load_demarches_unfold. cbn [getitem]. rewrite Hc. cbn [ret iterate].
    rewrite (load_entries_well_formed _ _ _ Hwf). by intros [= <- _]. }
  assert (get_demarche_config self (entry_number e) = None) as Hn.
  { unfold get_demarche_config. apply find_none_elem. intros d Hd.
    rewrite Ej in Hd. apply list_elem_of_fmap in Hd as (x & -> & Hx).
    apply list_elem_of_In, filter_In in Hx as [Hx Hk]. apply list_elem_of_In in Hx.
    destruct (py_eq (number (job_of_entry x)) (entry_number e)) eqn:E; [|done].
    apply py_eq_int in E.
    - apply (NoDup_fmap_eq entry_number entries x e Hnd Hx He) in E. subst x.
      by rewrite Hs in Hk.
    - exact (proj1 (Forall_forall _ _) Hint x Hx).
    - exact (proj1 (Forall_forall _ _) Hint e He). }
  split; [done|]. unfold unknown. by rewrite Hn.
Qed.


Lemma wp_track {A B} (P : event → Prop) (Q : A → Prop) (m : M A) (k : A → M B)
    Φ Ψ w0 w :
  emits P m → yields Q m → extends P w0 w →
  (∀ a w', Q a → extends P w0 w' → wp (k a) Φ Ψ w') →
  (∀ e w', extends P w0 w' → Ψ e w') →
  wp (bind m k) Φ Ψ w.
Proof.
  intros He Hy X HΦ HΨ. unfold wp, bind. specialize (He w).
  destruct (m w) as [a w'|e w'] eqn:E; cbn in He.
  - apply HΦ; [by eapply Hy|by eapply extends_trans].
  - apply HΨ. by eapply extends_trans.
Qed.

Lemma yields_getitem key v : yields (λ x, x = field key JNull v) (getitem key v).
Proof. intros w x w' H. by apply (getitem_field _ _ _ _ _ JNull) in H as [-> _]. Qed.

Lemma yields_get key dflt v : yields (λ x, x = field key dflt v) (get key dflt v).
Proof. intros w x w' H. by apply get_returns in H as [-> _]. Qed.

Lemma yields_get_grist_config self : yields (λ g, g = grist_block self) (get_grist_config self).
Proof. intros w g w' H. by apply get_grist_config_returns in H as [-> _]. Qed.

Lemma yields_any {A} (m : M A) : yields (λ _, True) m.
Proof. by intros w a w' _. Qed.

Lemma emits_called_grist_config self d : emits (called_for self d) (get_grist_config self).
Proof.
  eapply emits_impl; [|apply emits_grist_config_prints]. by intros [].
Qed.

Lemma sync_single_called_for os self d w :
  wp (_sync_single_demarche os self d)
     (λ r w', extends (called_for self d) w w') (λ _ _, False) w.
Proof.
  unfold _sync_single_demarche. apply wp_ask.
  set (P := called_for self d).
  assert (∀ e w', extends P w w' →
            wp (end_time <- ask (clock os) ;;
                print (ErrSync (sync_error_text (ErrSynchronisation e))) ;;
                ret {| demarche_number := number d; demarche_name := name d;
                       success := false; dossiers_processed := 0;
                       errors := [ErrSynchronisation e];
                       duration_seconds := end_time - clock os w |})
               (λ r w', extends P w w') (λ _ _, False) w') as Hfail.
  { intros e w' X. apply wp_ask, wp_emit. unfold wp. cbn.
    eapply extends_trans; [exact X|]. by apply extends_cons. }
  apply wp_try. apply wp_ask.
  eapply (wp_track P (λ _, True));
    [apply emits_raise_if_failed|apply yields_any|apply extends_refl| |by auto].
  intros _ w1 _ X1.
  eapply (wp_track P); [apply emits_called_grist_config|apply yields_get_grist_config|exact X1| |by auto].
  intros g w2 -> X2.
  eapply (wp_track P); [apply emits_getitem|apply yields_getitem|exact X2| |by auto].
  intros base_url w3 -> X3.
  eapply (wp_track P); [apply emits_getitem|apply yields_getitem|exact X3| |by auto].
  intros api_key w4 -> X4.
  eapply (wp_track P); [apply emits_getitem|apply yields_getitem|exact X4| |by auto].
  intros doc_id w5 -> X5. apply wp_ask.
  eapply (wp_track P (λ _, True));
    [apply emits_raise_if_failed|apply yields_any|exact X5| |by auto].
  intros _ w6 _ X6.
  eapply (wp_track P); [apply emits_get|apply yields_get|exact X6| |by auto].
  intros parallel w7 -> X7.
  eapply (wp_track P); [apply emits_get|apply yields_get|exact X7| |by auto].
  intros batch_size w8 -> X8.
  eapply (wp_track P); [apply emits_get|apply yields_get|exact X8| |by auto].
  intros max_workers w9 -> X9. apply wp_ask, wp_emit.
  match goal with |- wp _ _ _ ?w10 => assert (extends P w w10) as X10 end.
  { eapply extends_trans; [exact X9|]. by apply extends_cons. }
  destruct (process_demarche_for_grist_optimized os w9 (number d) _ _ _) as [text|ok].
  - by apply Hfail.
  - apply wp_ask. unfold wp. cbn. exact X10.
Qed.

Lemma staged_called_matches os self d n e ev :
  called_for self d ev → call_matches os (staged_environ os self d n e) ev.
Proof.
  destruct ev as [| | | | |b k i num p bs mw o]; try done.
  intros (_ & -> & -> & -> & -> & -> & ->). unfold call_matches.
  repeat split; apply staged_setting; unfold job_settings; in_list.
Qed.

(** Property X24.  After a staging of the job that returned [True], the
    synchronisation of the job leaves the environment as it was staged, and
    every call of the collaborator that it makes has the number of the job
    and, for the target store and the settings of the job, the values that
    the environment holds as strings. *)
Theorem collaborator_called_with_staged_settings (os : Platform) (self : Manager)
    (n : json) (d : DemarcheConfig) (w w1 : World) (r : SyncResult) (w2 : World) :
  get_demarche_config self n = Some d →
  set_environment_for_demarche os self n w = Returns true w1 →
  _sync_single_demarche os self d w1 = Returns r w2 →
  environ w2 = environ w1 ∧
  extends (call_matches os (environ w2)) w1 w2 ∧
  extends (called_for self d) w1 w2.
Proof.
  intros Hd Hs Hr.
  apply set_environment_true in Hs as (d' & Hd' & _ & _ & He).
  assert (d' = d) as -> by congruence.
  pose proof (sync_single_demarche_returns os self d w1) as Hk. unfold wp in Hk.
  rewrite Hr in Hk. destruct Hk as (Ee & _).
  pose proof (sync_single_called_for os self d w1) as Hc. unfold wp in Hc. rewrite Hr in Hc.
  split; [done|]. split; [|done].
  eapply extends_impl; [|exact Hc]. intros ev. rewrite Ee, He.
  apply staged_called_matches.
Qed.


(** * Concrete runs *)

Lemma resolve_dict_outcomes_witness :
  ∃ enough, ∀ frames compiled, (enough ≤ frames)%nat →
    ∃ compiled',
      Interpreter._resolve_dict_env_vars latin1_limits (<["HOME" := "/root"]> ∅)
        (JDict [("paths", JList [JStr "${HOME}/data"; JInt 3])]) frames compiled
      = inr (JDict [("paths", JList [JStr "/root/data"; JInt 3])], compiled').
Proof.
  destruct (resolve_dict_outcomes (<["HOME" := "/root"]> ∅))
    as (_ & _ & _ & _ & _ & _ & _ & _ & _ & Hreturns & _).
  apply (Hreturns latin1_limits (JDict [("paths", JList [JStr "${HOME}/data"; JInt 3])])).
  repeat constructor.
Defined.

(** A list nested a thousand times, with a thousand frames left: the call
    raises [RecursionError].  And a placeholder whose name has the euro sign,
    in a Latin-1 locale: [os.getenv] raises [UnicodeEncodeError], and so does
    the call. *)
Lemma resolver_call_can_fail :
  Interpreter._resolve_dict_env_vars latin1_limits ∅ (nest 1000) 1000 false
  = inl Interpreter.RecursionError ∧
  ∃ msg,
    Interpreter._resolve_dict_env_vars latin1_limits ∅
      (JDict [("k", JStr "${€}")]) 1000 false
    = inl (Interpreter.UnicodeEncodeError msg).
Proof.
  split; [vm_compute; reflexivity|]. eexists. vm_compute. reflexivity.
Qed.

Example staging_reflects_latest_job_run :
  environ after_B !! "STATUTS_DOSSIERS" = Some "accepte,refuse" ∧
  environ after_B !! "BATCH_SIZE" = Some "50" ∧
  environ after_B !! "DEMARCHES_API_TOKEN" = Some "token-B".
Proof.
  destruct (staging_reflects_latest_job calm two_jobs job_A job_B World0 after_A after_B)
    as [Hsettings Hcredentials];
    [reflexivity | vm_compute; reflexivity | vm_compute; reflexivity |].
  split; [|split].
  - apply Hsettings. apply (bool_decide_unpack _). vm_compute. reflexivity.
  - apply Hsettings. apply (bool_decide_unpack _). vm_compute. reflexivity.
  - apply Hcredentials; apply (bool_decide_unpack _); vm_compute; reflexivity.
Defined.

(** Claim C1, at the failing input.  The [.env] file binds the slot of the
    token.  After staging [job_A] and then [job_B], both calls returning
    [True], the slot of the token holds the value of the file and not the
    token of [job_B]: the stager has written the token, and the reload of the
    file, which comes after that write, has put the value of the file over
    it.  The slots that the stager writes before the reload and the file does
    not bind, and those that it writes after the reload, hold the values of
    [job_B]. *)
Theorem staging_loses_token_to_dotenv :
  ∃ w1 w2,
    get_demarche_config two_jobs (number job_B) = Some job_B ∧
    dotenv_values with_stale_dotenv true (environ World0)
    = [("DEMARCHES_API_TOKEN", "token-of-dotenv")] ∧
    set_environment_for_demarche with_stale_dotenv two_jobs (number job_A) World0
    = Returns true w1 ∧
    set_environment_for_demarche with_stale_dotenv two_jobs (number job_B) w1
    = Returns true w2 ∧
    environ w2 !! "DEMARCHES_API_TOKEN" = Some "token-of-dotenv" ∧
    environ w2 !! "DEMARCHES_API_TOKEN" ≠ Some (api_token job_B) ∧
    environ w2 !! "DEMARCHE_NUMBER" = Some "2" ∧
    environ w2 !! "STATUTS_DOSSIERS" = Some "accepte,refuse".
Proof.
  eexists _, _. split; [reflexivity|]. split; [reflexivity|].
  split; [vm_compute; reflexivity|]. split; [vm_compute; reflexivity|].
  split; [vm_compute; reflexivity|]. split; [vm_compute; discriminate|].
  split; vm_compute; reflexivity.
Qed.

(** Two jobs with one number: the registry finds the first under it, so
    staging by that number stages the first job. *)
Example staging_duplicate_number_stages_first :
  let A := sample_job 7 "A" "token-A" true [] in
  let B := sample_job 7 "B" "token-B" true [] in
  let self := sample_manager [A; B] in
  ∃ w1 w2,
    get_demarche_config self (number B) = Some A ∧
    set_environment_for_demarche calm self (number A) World0 = Returns true w1 ∧
    set_environment_for_demarche calm self (number B) w1 = Returns true w2 ∧
    environ w2 !! "DEMARCHES_API_TOKEN" = Some (api_token A).
Proof.
  cbv zeta. eexists _, _. split; [reflexivity|].
  split; [vm_compute; reflexivity|]. split; vm_compute; reflexivity.
Qed.

Lemma staging_succeeds_whatever_probe_witness :
  ∃ w', set_environment_for_demarche
          (with_http_post calm (λ _ _ _ _, ProbeException "timed out"))
          two_jobs (JInt 2) World0
        = Returns true w'.
Proof.
  destruct (staging_succeeds_whatever_probe calm two_jobs (JInt 2)
              (λ _ _ _ _, ProbeException "timed out") World0) as [Hstaged _].
  apply (Hstaged job_B); vm_compute; reflexivity.
Defined.

(** A date bound that is [null]: the token is usable, and the call raises. *)
Lemma staging_raises_on_null_date :
  let d := sample_job 1 "A" "token-A" true [("date_depot_debut", JNull)] in
  let self := sample_manager [d] in
  get_demarche_config self (JInt 1) = Some d ∧
  token_invalid (api_token d) = false ∧
  stageable calm self d (JInt 1) = false ∧
  ∃ text w', set_environment_for_demarche calm self (JInt 1) World0
             = Raises (TypeError text) w'.
Proof.
  cbv zeta. split; [reflexivity|]. split; [reflexivity|].
  split; [vm_compute; reflexivity|].
  eexists _, _. vm_compute. reflexivity.
Qed.

Lemma staging_failure_writes_nothing_witness :
  ∃ w', set_environment_for_demarche calm two_jobs (JInt 999) World0 = Returns false w'.
Proof.
  destruct (staging_failure_writes_nothing calm two_jobs (JInt 999) World0) as [Hrejected _].
  apply Hrejected. reflexivity.
Defined.


(** Three enabled jobs, the collaborator raises for the second. *)
Example sync_all_second_job_fails :
  ∃ results w',
    sync_all_demarches flaky four_jobs World0 = Returns results w' ∧
    demarche_number <$> results = [JInt 1; JInt 2; JInt 3] ∧
    success <$> results = [true; false; true] ∧
    errors <$> results = [[]; [ErrSynchronisation (Exception "boom")]; []].
Proof. eexists _, _. split; [vm_compute; reflexivity|]. by vm_compute. Qed.

Lemma sync_specific_passes_over_witness :
  ∃ w', sync_specific_demarches calm four_jobs [JInt 999; JInt 4] false World0
        = Returns [not_found_failure calm (JInt 999)] w' ∧
        environ w' = environ World0 ∧ extends only_print World0 w'.
Proof.
  destruct (sync_specific_passes_over calm four_jobs) as (_ & _ & Hpassed & _).
  apply (Hpassed [JInt 999; JInt 4] World0).
  repeat constructor.
Defined.

Lemma load_config_outcomes_witness :
  _load_config
    (sample_platform [] (JsonDocument (JDict [("grist", sample_grist); ("demarches", JList [])]))
       ProbeConfirmed (λ _, inr true))
    "config.json" World0
  = Returns (JDict [("grist", sample_grist); ("demarches", JList [])]) World0.
Proof.
  destruct (load_config_outcomes
              (sample_platform []
                 (JsonDocument (JDict [("grist", sample_grist); ("demarches", JList [])]))
                 ProbeConfirmed (λ _, inr true))
              "config.json" World0 eq_refl) as (_ & _ & _ & Hreturned & _).
  apply Hreturned. eexists. split; [reflexivity|]. split; [reflexivity|].
  split; vm_compute; reflexivity.
Defined.

(** A document that is the number 5: the file exists and parses, and the
    loader neither returns nor raises one of its three errors.  And a file
    that is not UTF-8: it is no valid document, and the loader raises the
    [UnicodeDecodeError] of the reading and not its format error. *)
Lemma load_config_unlisted_failures :
  (let os := sample_platform [] (JsonDocument (JInt 5)) ProbeConfirmed (λ _, inr true) in
   read_json os "config.json" = JsonDocument (JInt 5) ∧
   (∃ text, _load_config os "config.json" World0 = Raises (TypeError text) World0) ∧
   (∀ config w', _load_config os "config.json" World0 ≠ Returns config w') ∧
   (∀ section, _load_config os "config.json" World0 ≠ Raises (schema_error section) World0)) ∧
  (let e := UnicodeDecodeError
              "'utf-8' codec can't decode byte 0xff in position 0: invalid start byte" in
   let os := sample_platform [] (Unreadable e) ProbeConfirmed (λ _, inr true) in
   _load_config os "config.json" World0 = Raises e World0 ∧
   e ≠ missing_file_error "config.json" ∧
   (∀ diagnostic, e ≠ format_error "config.json" diagnostic) ∧
   (∀ section, e ≠ schema_error section)).
Proof.
  split.
  - cbv zeta.
    assert (_load_config (sample_platform [] (JsonDocument (JInt 5)) ProbeConfirmed (λ _, inr true))
              "config.json" World0
            = Raises (TypeError "argument of type 'int' is not iterable") World0) as E
      by reflexivity.
    rewrite E. split; [reflexivity|]. split; [by eexists|].
    split; intros; discriminate.
  - cbv zeta. split; [reflexivity|]. split; [discriminate|].
    split; intros; vm_compute; intros [= H]; discriminate H.
Qed.

(** A document that is a list of the two section names passes the check,
    although it has no section. *)
Example load_config_list_document :
  _load_config
    (sample_platform [] (JsonDocument (JList [JStr "grist"; JStr "demarches"]))
       ProbeConfirmed (λ _, inr true))
    "config.json" World0
  = Returns (JList [JStr "grist"; JStr "demarches"]) World0.
Proof. vm_compute. reflexivity. Qed.

Lemma validate_configuration_report_witness :
  validate_configuration two_jobs World0
  = Returns (configuration_valid two_jobs) (logged (validation_report two_jobs) World0).
Proof. exact (validate_configuration_report two_jobs World0 eq_refl). Defined.

(** A job whose token is an unresolved placeholder: the registry leaves it
    out, and validation then finds nothing wrong. *)
Lemma validate_misses_excluded_job :
  let document :=
    JDict [("grist", sample_grist);
           ("demarches", JList [sample_entry 1 "A" "${TOKEN_A}"])] in
  let os := sample_platform [] (JsonDocument document) ProbeConfirmed (λ _, inr true) in
  ∃ self w1 w2,
    init os "config.json" World0 = Returns self w1 ∧
    demarches self = [] ∧
    validate_configuration self w1 = Returns true w2 ∧
    Forall (λ ev, ∀ number name, ev ≠ Output (ErrTokenMissing number name)) (log w2).
Proof.
  cbv zeta. eexists _, _, _.
  split; [vm_compute; reflexivity|]. split; [reflexivity|].
  split; [vm_compute; reflexivity|].
  repeat constructor; intros; discriminate.
Qed.


Ltac not_in_list H :=
  repeat (apply elem_of_cons in H as [H|H]; [discriminate H|]); by apply elem_of_nil in H.

Lemma resolve_str_first_placeholder_witness :
  resolve_str (<["A" := "${B}"]> (<["B" := "b"]> ∅)) ("x=" +:+ placeholder "A" +:+ ";y=${B}")
  = "x=" +:+ replace_var (<["A" := "${B}"]> (<["B" := "b"]> ∅)) "A"
    +:+ resolve_str (<["A" := "${B}"]> (<["B" := "b"]> ∅)) ";y=${B}".
Proof.
  apply resolve_str_first_placeholder; [reflexivity|].
  split; [discriminate|reflexivity].
Defined.

Example resolve_value_not_rescanned :
  resolve_str (<["A" := "${B}"]> (<["B" := "b"]> ∅)) "x=${A};y=${B}" = "x=${B};y=b".
Proof. vm_compute. reflexivity. Qed.

Lemma resolver_keeps_unbound_witness :
  _resolve_dict_env_vars (<["Z" := "v"]> ∅)
    (JDict [("k", JList [JStr "a${X}b"; JInt 3])])
  = JDict [("k", JList [JStr "a${X}b"; JInt 3])].
Proof.
  destruct (resolver_keeps_unbound (<["Z" := "v"]> ∅)) as [_ Hdocument].
  apply Hdocument. intros s Hs N HN Hc.
  cbn in Hs. apply elem_of_cons in Hs as [->|Hs]; [|by apply elem_of_nil in Hs].
  destruct (decide (N = "Z")) as [->|Hne].
  - vm_compute in Hc. discriminate Hc.
  - rewrite lookup_insert_ne by (intros E; by apply Hne). apply lookup_empty.
Defined.

Lemma init_builds_resolved_manager_witness :
  ∃ self w' fields,
    init (sample_files [("TOKEN_A", "secret")]
            (JsonDocument (JDict [("grist", sample_grist);
                                  ("demarches", JList [sample_entry 1 "A" "${TOKEN_A}"])])))
      "config.json" World0 = Returns self w' ∧
    config self = _resolve_dict_env_vars (environ w') (JDict fields) ∧
    tokens_unmarked (demarches self) ∧
    api_token <$> demarches self = ["secret"].
Proof.
  destruct (init (sample_files [("TOKEN_A", "secret")]
              (JsonDocument (JDict [("grist", sample_grist);
                                    ("demarches", JList [sample_entry 1 "A" "${TOKEN_A}"])])))
              "config.json" World0) as [self w'|e w'] eqn:E.
  - destruct (init_builds_resolved_manager _ _ _ _ _ E) as (fields & _ & _ & _ & Hc & Ht & _).
    exists self, w', fields. split; [reflexivity|]. split; [exact Hc|]. split; [exact Ht|].
    vm_compute in E. injection E as <- _. reflexivity.
  - vm_compute in E. discriminate E.
Defined.

Lemma init_fails_after_dotenv_witness :
  ∃ e, init (sample_files [] (JsonDocument (JList [JStr "grist"; JStr "demarches"])))
         "config.json" World0
       = Raises e (state_after
                     (load_dotenv
                        (sample_files [] (JsonDocument (JList [JStr "grist"; JStr "demarches"])))
                        false World0)).
Proof.
  destruct (init_fails_after_dotenv
              (sample_files [] (JsonDocument (JList [JStr "grist"; JStr "demarches"])))
              "config.json" World0) as (_ & _ & _ & Hdocument).
  apply (Hdocument (JList [JStr "grist"; JStr "demarches"])); [reflexivity|].
  intros fields. discriminate.
Defined.

Lemma load_demarches_stops_at_ill_formed_witness :
  ∃ e, _load_demarches
         (JDict [("demarches",
                  JList ([sample_entry 1 "A" "${TOKEN_A}"]
                         ++ JDict [("name", JStr "B"); ("api_token", JStr "token-B")]
                         :: [sample_entry 3 "C" "token-C"]))])
         World0
       = Raises e (logged (flat_map entry_warnings [sample_entry 1 "A" "${TOKEN_A}"]) World0).
Proof.
  apply (load_demarches_stops_at_ill_formed _ [sample_entry 1 "A" "${TOKEN_A}"]
           (JDict [("name", JStr "B"); ("api_token", JStr "token-B")])
           [sample_entry 3 "C" "token-C"] World0); reflexivity.
Defined.

Lemma load_demarches_invariant_witness :
  tokens_unmarked [job_of_entry (sample_entry 2 "B" "token-B")] ∧
  environ (logged (flat_map entry_warnings
                     [sample_entry 1 "A" "${TOKEN_A}"; sample_entry 2 "B" "token-B"]) World0)
  = environ World0.
Proof.
  destruct (load_demarches_invariant
              (JDict [("demarches",
                       JList [sample_entry 1 "A" "${TOKEN_A}"; sample_entry 2 "B" "token-B"])])
              World0 [job_of_entry (sample_entry 2 "B" "token-B")]
              (logged (flat_map entry_warnings
                         [sample_entry 1 "A" "${TOKEN_A}"; sample_entry 2 "B" "token-B"]) World0))
    as (Ht & He & _); [vm_compute; reflexivity|].
  split; [exact Ht|exact He].
Defined.

Lemma registry_lookup_round_trip_witness :
  get_demarche_config four_jobs (number job_C) = Some job_C ∧
  get_demarche_config four_jobs (JStr "3") = None.
Proof.
  destruct (registry_lookup_round_trip four_jobs) as [Hfound Hstring].
  - repeat constructor.
  - repeat (apply NoDup_cons_2; [intros H; not_in_list H|]). apply NoDup_nil_2.
  - split; [|apply Hstring]. apply Hfound.
    apply list_elem_of_further, list_elem_of_further, list_elem_of_here.
Defined.

Lemma get_grist_config_outcomes_witness :
  get_grist_config two_jobs World0
  = Returns [("base_url", JStr "https://grist.example"); ("api_key", JStr "key");
             ("doc_id", JStr "doc")] World0 ∧
  ∃ e, get_grist_config {| config_file := "config.json"; config := JDict []; demarches := [] |}
         World0 = Raises e World0.
Proof.
  split.
  - destruct (get_grist_config_outcomes two_jobs World0) as [Hreturned _].
    apply (Hreturned [("grist", sample_grist); ("demarches", JList [])]); reflexivity.
  - destruct (get_grist_config_outcomes
                {| config_file := "config.json"; config := JDict []; demarches := [] |} World0)
      as [_ Hraised].
    apply Hraised. intros c g [= <-]. discriminate.
Defined.

Lemma staging_writes_only_its_slots_witness :
  environ (state_after (set_environment_for_demarche calm two_jobs (JInt 2)
                          {| environ := <["PATH" := "/usr/bin"]> ∅; log := [] |}))
    !! "PATH" = Some "/usr/bin".
Proof.
  rewrite (staging_writes_only_its_slots calm two_jobs (JInt 2)
             {| environ := <["PATH" := "/usr/bin"]> ∅; log := [] |} "PATH").
  - reflexivity.
  - intros H. not_in_list H.
  - intros H. not_in_list H.
  - intros H. not_in_list H.
Defined.

Lemma staging_again_changes_nothing_witness :
  ∃ w2, set_environment_for_demarche with_stale_dotenv two_jobs (JInt 1)
          (state_after (set_environment_for_demarche with_stale_dotenv two_jobs (JInt 1) World0))
        = Returns true w2 ∧
        environ w2
        = environ (state_after
                     (set_environment_for_demarche with_stale_dotenv two_jobs (JInt 1) World0)).
Proof.
  apply (staging_again_changes_nothing with_stale_dotenv two_jobs (JInt 1) World0).
  - apply sample_dotenv_plain.
  - vm_compute. reflexivity.
Defined.

(** A name that the [.env] file binds twice, and that is not set: the last
    binding is the one written, with [override] and without it. *)
Example load_dotenv_duplicate_name :
  let os := sample_files [("A", "1"); ("A", "2")] NoSuchFile in
  environ (state_after (load_dotenv os false World0)) !! "A" = Some "2" ∧
  environ (state_after (load_dotenv os true World0)) !! "A" = Some "2".
Proof. vm_compute. split; reflexivity. Qed.

(** With [DOC_COPY=${GRIST_DOC_ID}] in the [.env] file, the second staging
    changes the environment: the reload expands the reference before the
    stager writes the slot, so it sees the value that the first staging
    left. *)
Example staging_again_with_reference :
  let w1 := state_after (set_environment_for_demarche with_dotenv_reference two_jobs
                           (JInt 1) World0) in
  let w2 := state_after (set_environment_for_demarche with_dotenv_reference two_jobs
                           (JInt 1) w1) in
  environ w1 !! "DOC_COPY" = Some "" ∧ environ w2 !! "DOC_COPY" = Some "doc".
Proof. vm_compute. split; reflexivity. Qed.

Lemma staging_raise_leaves_token_witness :
  ∃ e w',
    set_environment_for_demarche calm
      (sample_manager [sample_job 1 "A" "token-A" true [("date_depot_debut", JNull)]])
      (JInt 1) World0 = Raises e w' ∧
    environ w' !! "DEMARCHES_API_TOKEN" = Some "token-A".
Proof.
  destruct (set_environment_for_demarche calm
              (sample_manager [sample_job 1 "A" "token-A" true [("date_depot_debut", JNull)]])
              (JInt 1) World0) as [staged w'|e w'] eqn:E.
  - vm_compute in E. discriminate E.
  - exists e, w'. split; [reflexivity|].
    apply (staging_raise_leaves_token calm
             (sample_manager [sample_job 1 "A" "token-A" true [("date_depot_debut", JNull)]])
             (JInt 1)
             (sample_job 1 "A" "token-A" true [("date_depot_debut", JNull)]) World0 e w');
      [reflexivity|exact E|reflexivity|].
    intros H. not_in_list H.
Defined.


Lemma validated_configuration_is_usable_witness :
  (∃ s, dict_get "api_key" (grist_block two_jobs) = Some (JStr s) ∧ s ≠ "" ∧
        Str.startswith "${" s = false) ∧
  token_invalid (api_token job_B) = false.
Proof.
  destruct (validated_configuration_is_usable calm two_jobs World0
              (logged (validation_report two_jobs) World0)) as (Hgrist & Htokens & _).
  - vm_compute. reflexivity.
  - split.
    + apply Hgrist. apply list_elem_of_further, list_elem_of_here.
    + apply Htokens. apply list_elem_of_further, list_elem_of_here.
Defined.

Lemma results_are_well_shaped_witness :
  ∃ results w',
    sync_all_demarches flaky four_jobs World0 = Returns results w' ∧
    Forall well_shaped results.
Proof.
  destruct (sync_all_demarches flaky four_jobs World0) as [results w'|e w'] eqn:E.
  - exists results, w'. split; [reflexivity|].
    destruct (results_are_well_shaped flaky four_jobs) as (_ & Hall & _).
    exact (Hall World0 results w' E).
  - vm_compute in E. discriminate E.
Defined.

Lemma valid_tokens_never_fail_staging_witness :
  ∃ results w',
    sync_specific_demarches calm four_jobs [JInt 999; JInt 2] false World0
    = Returns results w' ∧
    Forall staged_ok results.
Proof.
  destruct (sync_specific_demarches calm four_jobs [JInt 999; JInt 2] false World0)
    as [results w'|e w'] eqn:E.
  - exists results, w'. split; [reflexivity|].
    destruct (valid_tokens_never_fail_staging calm four_jobs eq_refl) as [Hselected _].
    exact (Hselected _ _ _ _ _ E).
  - vm_compute in E. discriminate E.
Defined.

Lemma sync_specific_forced_answers_all_witness :
  ∃ results w',
    sync_specific_demarches calm four_jobs [JInt 999; JInt 4] true World0
    = Returns results w' ∧
    Forall2 (answers calm four_jobs) [JInt 999; JInt 4] results ∧
    length results = 2%nat.
Proof.
  destruct (sync_specific_demarches calm four_jobs [JInt 999; JInt 4] true World0)
    as [results w'|e w'] eqn:E.
  - exists results, w'. split; [reflexivity|].
    exact (sync_specific_forced_answers_all calm four_jobs _ _ _ _ E).
  - vm_compute in E. discriminate E.
Defined.

(** The items of [--demarches] as [split] cuts them. *)
Example str_split_items :
  str_split "," "1,,2" = ["1"; ""; "2"] ∧
  str_split "," " 12 , 13" = [" 12 "; " 13"] ∧
  str_split "," "," = [""; ""] ∧
  str_split "," "" = [""].
Proof. repeat split. Qed.

Lemma main_stops_without_configuration_file_witness :
  ∃ c', main (sample_builtins false) calm (sample_args None false) Console0 = Done 1 c' ∧
        process c' = debug_environ (sample_args None false) (process Console0).
Proof.
  apply main_stops_without_configuration_file. reflexivity.
Defined.

Lemma main_check_only_is_quiet_witness :
  extends quiet (process Console0)
    (process (console_after
                (main (sample_builtins true) (sample_files [] (JsonDocument sample_document))
                   (sample_args None true) Console0))).
Proof.
  destruct (main_check_only_is_quiet (sample_builtins true)
              (sample_files [] (JsonDocument sample_document))
              (sample_args None true) Console0 eq_refl) as [Hquiet _].
  exact Hquiet.
Defined.

Example main_check_only_run :
  ∃ c', main (sample_builtins true) (sample_files [] (JsonDocument sample_document))
          (sample_args None true) Console0 = Done 0 c'.
Proof. eexists. vm_compute. reflexivity. Qed.

Lemma main_rejects_malformed_selection_witness :
  ∃ c', main (sample_builtins true) (sample_files [] (JsonDocument sample_document))
          (sample_args (Some "1, x2") false) Console0 = Done 1 c' ∧
        extends quiet (process Console0) (process c').
Proof.
  apply (main_rejects_malformed_selection (sample_builtins true)
           (sample_files [] (JsonDocument sample_document))
           (sample_args (Some "1, x2") false) Console0 "1, x2" " x2" "invalid literal").
  - reflexivity.
  - reflexivity.
  - discriminate.
  - apply (bool_decide_unpack _). vm_compute. reflexivity.
  - vm_compute. discriminate.
  - vm_compute. reflexivity.
Defined.

Lemma main_success_means_a_job_synced_witness :
  ∃ c', main (sample_builtins true) (sample_files [] (JsonDocument sample_document))
          (sample_args (Some "2, 999") false) Console0 = Done 0 c' ∧
        did_sync (process Console0) (process c').
Proof.
  assert (∃ c', main (sample_builtins true) (sample_files [] (JsonDocument sample_document))
                  (sample_args (Some "2, 999") false) Console0 = Done 0 c') as [c' E].
  { eexists. vm_compute. reflexivity. }
  exists c'. split; [exact E|].
  apply (main_success_means_a_job_synced (sample_builtins true)
           (sample_files [] (JsonDocument sample_document))
           (sample_args (Some "2, 999") false) Console0 c'); [reflexivity|exact E].
Defined.


Lemma skipped_entry_is_unknown_witness :
  get_demarche_config
    {| config_file := "config.json";
       config := JDict [("demarches", JList [sample_entry 1 "A" "${TOKEN_A}";
                                              sample_entry 2 "B" "token-B"])];
       demarches := [job_of_entry (sample_entry 2 "B" "token-B")] |}
    (entry_number (sample_entry 1 "A" "${TOKEN_A}")) = None.
Proof.
  apply (skipped_entry_is_unknown
           {| config_file := "config.json";
              config := JDict [("demarches", JList [sample_entry 1 "A" "${TOKEN_A}";
                                                     sample_entry 2 "B" "token-B"])];
              demarches := [job_of_entry (sample_entry 2 "B" "token-B")] |}
           [("demarches", JList [sample_entry 1 "A" "${TOKEN_A}"; sample_entry 2 "B" "token-B"])]
           [sample_entry 1 "A" "${TOKEN_A}"; sample_entry 2 "B" "token-B"]
           World0
           (logged (flat_map entry_warnings
                      [sample_entry 1 "A" "${TOKEN_A}"; sample_entry 2 "B" "token-B"]) World0)
           (sample_entry 1 "A" "${TOKEN_A}")).
  - reflexivity.
  - reflexivity.
  - repeat constructor.
  - repeat (apply NoDup_cons_2; [intros H; not_in_list H|]). apply NoDup_nil_2.
  - vm_compute. reflexivity.
  - apply list_elem_of_here.
  - reflexivity.
Defined.

Lemma collaborator_called_with_staged_settings_witness :
  ∃ r w2,
    _sync_single_demarche calm two_jobs job_B after_B = Returns r w2 ∧
    environ w2 = environ after_B ∧
    extends (call_matches calm (environ w2)) after_B w2.
Proof.
  destruct (_sync_single_demarche calm two_jobs job_B after_B) as [r w2|e w2] eqn:E.
  - exists r, w2. split; [reflexivity|].
    destruct (collaborator_called_with_staged_settings calm two_jobs (JInt 2) job_B
                after_A after_B r w2) as (He & Hm & _);
      [reflexivity|vm_compute; reflexivity|exact E|].
    split; [exact He|exact Hm].
  - vm_compute in E. discriminate E.
Defined.

Lemma main_blames_selection_for_value_error_witness :
  ∃ c', main (sample_builtins true)
          (sample_files [] (JsonDocument sample_document_with_null))
          (sample_args (Some "1") false) Console0 = Done 1 c' ∧
        ∃ p l, lines c' = (p, MainYourInput "1") :: (p, MainExpectedFormat)
                          :: (p, MainSelectionError "1") :: l.
Proof.
  edestruct (main_blames_selection_for_value_error (sample_builtins true)
               (sample_files [] (JsonDocument sample_document_with_null))
               (sample_args (Some "1") false) Console0 "1" [JInt 1]) as [l E].
  - reflexivity.
  - reflexivity.
  - reflexivity.
  - discriminate.
  - intros c0. reflexivity.
  - vm_compute. reflexivity.
  - vm_compute. reflexivity.
  - vm_compute. reflexivity.
  - eexists. split; [exact E|]. by eexists _, _.
Defined.

Lemma pauses_only_between_jobs_witness :
  (∃ results w' evs,
     sync_all_demarches flaky four_jobs World0 = Returns results w' ∧
     log w' = evs ++ log World0 ∧ Forall sleeps_two evs ∧
     (count_sleeps evs ≤ length (get_enabled_demarches four_jobs) - 1)%nat) ∧
  (∃ results w' evs,
     sync_specific_demarches calm four_jobs [JInt 2; JInt 999; JInt 2] false World0
     = Returns results w' ∧
     log w' = evs ++ log World0 ∧ Forall sleeps_two evs ∧
     (count_sleeps evs ≤ 1)%nat).
Proof.
  destruct (pauses_only_between_jobs flaky four_jobs) as [Hall _].
  destruct (pauses_only_between_jobs calm four_jobs) as [_ Hselected].
  split.
  - destruct (sync_all_demarches flaky four_jobs World0) as [results w'|e w'] eqn:E.
    + destruct (Hall World0 results w' E) as (evs & Hlog & Htwo & Hcount).
      exists results, w', evs. split; [reflexivity|]. split; [exact Hlog|].
      split; [exact Htwo|exact Hcount].
    + vm_compute in E. discriminate E.
  - destruct (sync_specific_demarches calm four_jobs [JInt 2; JInt 999; JInt 2] false World0)
      as [results w'|e w'] eqn:E.
    + destruct (Hselected _ _ World0 results w' E) as (evs & Hlog & Htwo & Hcount).
      exists results, w', evs. split; [reflexivity|]. split; [exact Hlog|].
      split; [exact Htwo|exact Hcount].
    + vm_compute in E. discriminate E.
Defined.
